(** * Expo push-notification client: tokens, publishing, retries, receipts

    A shallow embedding of the Go package [expo]
    (client.go, the retry file, the notification types and the receipt
    workflow) together with the properties its specification states.

    Conventions of the embedding.
    - A Go pointer that the code compares with [nil], or that a JSON
      [null] can set to [nil], is an [option]; so are slices and maps where
      the code distinguishes [nil] from empty.
    - A call that would dereference a [nil] pointer yields [Panics].
    - The messages of a batch are values: a batch holds no [nil] message.
    - A pair [(value, error)] returned by a Go function is a pair of
      options, as Go returns both.
    - The HTTP transport, the JSON decoder and the cancellation context are
      collaborators outside the package: they are given by a [World], and
      what a call does to them is recorded as a list of [Event]s.
    - [float64] arithmetic is an interface ([Float64]); the package only
      converts, multiplies, raises to a power and converts back. *)

From Stdlib Require Import ZArith QArith Lia List Ascii String.
From stdpp Require Import base option list strings gmap pretty.

Open Scope string_scope.
Open Scope list_scope.
Open Scope Z_scope.

(** ** Floating point, as far as the package uses it *)

Class Float64 := {
  float64 : Type;
  (** [float64(x)] for an integer [x] *)
  float64_of_int : Z -> float64;
  (** [x * y] *)
  float64_mul : float64 -> float64 -> float64;
  (** [math.Pow(x, y)] *)
  math_Pow : float64 -> float64 -> float64;
  (** [time.Duration(x)]: conversion to a 64-bit integer *)
  int64_of_float64 : float64 -> Z;
}.

(** Exact arithmetic on rationals with Go's truncation toward zero at the
    conversion to an integer.  It agrees with IEEE doubles wherever these
    compute without rounding and the result fits 64 bits; exponents other
    than integers are not represented. *)
Definition Qtrunc (q : Q) : Z := Z.quot (Qnum q) (Z.pos (Qden q)).

Definition exact_Pow (x y : Q) : Q := Qpower x (Qtrunc y).

#[global] Instance exact_float64 : Float64 := {|
  float64 := Q;
  float64_of_int := inject_Z;
  float64_mul := Qmult;
  math_Pow := exact_Pow;
  int64_of_float64 := Qtrunc;
|}.

(** ** Notification types *)

(** [type Token string], [type Data map[string]string] *)
Abbreviation Token := string (only parsing).
Abbreviation Data := (gmap string string) (only parsing).

Definition ErrorMsgDeviceNotRegistered : string := "DeviceNotRegistered".
Definition ErrMsgMalformedToken : string :=
  "token should start with ExponentPushToken".

Record Message := {
  msg_To : list (option Token);
  msg_Title : string;
  msg_Body : string;
  msg_Data : option Data;
  msg_Sound : string;
  msg_TTL : Z;
  msg_Expiration : Z;
  msg_Priority : string;
  msg_Badge : Z;
  msg_ChannelID : string;
  msg_Subtitle : string;
  msg_InterruptionLevel : string;
  msg_MutableContent : bool;
  msg_ContentAvailable : bool;
  msg_Icon : string;
  msg_RichContent : option Data;
  msg_CategoryID : string;
}.

(** A push ticket. *)
Record MessageResponse := {
  tk_MessageItem : option Message;
  tk_ID : string;
  tk_Status : string;
  tk_Message : string;
  tk_Details : option Data;
}.

(** The decoded body of a publish reply.  Both members are [nil] when the
    JSON member is absent or [null]; an empty JSON array decodes to an
    empty, non-nil slice; a [null] entry of ["data"] decodes to a [nil]
    ticket pointer. *)
Record Response := {
  rsp_Data : option (list (option MessageResponse));
  rsp_Errors : option (list Data);
}.

Record PushReceipt := {
  rc_Status : string;
  rc_Message : string;
  rc_Details : option Data;
}.

Record PushReceiptRequest := { rq_IDs : list string }.

Record PushReceiptResponse := {
  rr_Data : option (gmap string (option PushReceipt));
  rr_Errors : option (list Data);
}.

(** ** The transport, as the package sees it *)

(** What [json.NewDecoder(body).Decode(&p)] does with [p] a nil pointer
    variable: an error, or a pointer that JSON [null] leaves [nil]. *)
Inductive Decoded (A : Type) :=
| DecodeErr (e : string)
| DecodeOk (v : option A).
Arguments DecodeErr {A} e.
Arguments DecodeOk {A} v.

(** A response body, given by what decoding it into each of the two reply
    types yields. *)
Record Body := {
  as_Response : Decoded Response;
  as_PushReceiptResponse : Decoded PushReceiptResponse;
}.

Record HttpResponse := {
  StatusCode : Z;
  Status : string;
  RespBody : Body;
}.

Record ServerError := {
  se_Message : string;
  se_Response : option HttpResponse;
  se_ResponseData : option Response;
  se_Errors : option (list Data);
}.

Inductive error :=
| errorString (s : string)              (* errors.New, fmt.Errorf without %w *)
| wrapError (s : string) (inner : error) (* fmt.Errorf with %w *)
| serverError (e : ServerError)         (* *ServerError *)
| foreignError (s : string).            (* net/http, encoding/json, context *)

(** [err.Error()] *)
Fixpoint Error (e : error) : string :=
  match e with
  | errorString s => s
  | wrapError s inner => s +:+ Error inner
  | serverError se => se_Message se
  | foreignError s => s
  end.

Definition NewServerError (message : string) (response : option HttpResponse)
    (responseData : option Response) (errors : option (list Data)) : error :=
  serverError {| se_Message := message; se_Response := response;
                 se_ResponseData := responseData; se_Errors := errors |}.

Inductive Payload :=
| JSONMessages (msgs : list Message) (gzipped : bool)
| JSONReceiptIDs (req : PushReceiptRequest).

Record Request := {
  Method : string;
  URL : string;
  Header : list (string * string);
  ReqBody : Payload;
}.

(** The two results of a round trip: a response pointer and an error. *)
Abbreviation RoundTrip := (option HttpResponse * option error)%type (only parsing).

(** A call either returns or panics on a nil dereference. *)
Inductive Outcome (A : Type) :=
| Returns (a : A)
| Panics (why : string).
Arguments Returns {A} a.
Arguments Panics {A} why.

(** What a call does to the outside, in order. *)
Inductive Event :=
| EvBackoff (attempt : Z) (backoff : Z)  (* select on ctx.Done / time.After *)
| EvAction (k : nat)                     (* k-th invocation of the action *)
| EvCloseBody (k : nat)                  (* resp.Body.Close() before a retry *)
| EvReceiptDelay (d : Z)                 (* select before the receipt fetch *)
| EvGetReceipts (req : Request).         (* the getReceipts round trip *)

(** The collaborators of one call.  [ctx_backoff attempt d] and
    [ctx_delay d] say whether [ctx.Done()] wins the [select] against
    [time.After d], and with which [ctx.Err()]. *)
Record World := {
  send : nat -> Request -> RoundTrip;
  fetch : Request -> RoundTrip;
  ctx_backoff : Z -> Z -> option error;
  ctx_delay : Z -> option error;
}.

(** ** Tokens *)

Definition ParseToken (token : string) : option Token * option error :=
  if negb (String.prefix "ExponentPushToken" token)
  then (None, Some (errorString ErrMsgMalformedToken))
  else (Some token, None).

Definition MustParseToken (token : string) : option Token :=
  let '(tkn, _) := ParseToken token in tkn.

Definition IsPushTokenValid (token : string) : bool :=
  let '(_, err) := ParseToken token in
  match err with None => true | Some _ => false end.

Definition tk_IsOk (r : MessageResponse) : bool :=
  bool_decide (tk_Status r = "ok").

Definition rc_IsOk (r : PushReceipt) : bool :=
  bool_decide (rc_Status r = "ok").

(** [m[key]] on a Go map: the zero value when the key is missing. *)
Definition map_index (m : gmap string string) (key : string) : string :=
  default "" (m !! key).

Definition IsDeviceNotRegistered (r : PushReceipt) : bool :=
  match rc_Details r with
  | None => false
  | Some d => bool_decide (map_index d "error" = ErrorMsgDeviceNotRegistered)
  end.

(** ** Retry with exponential backoff *)

Section Client.
Context `{F : Float64}.

(** Durations are [time.Duration]: whole nanoseconds. *)
Definition Second : Z := 1000000000.
Definition Minute : Z := 60 * Second.

Record RetryConfig := {
  MaxRetries : Z;
  InitialInterval : Z;
  MaxInterval : Z;
  Multiplier : float64;
}.

Definition DefaultRetryConfig : RetryConfig := {|
  MaxRetries := 3;
  InitialInterval := 1 * Second;
  MaxInterval := 30 * Second;
  Multiplier := float64_of_int 2;
|}.

Definition IsRetryableError (statusCode : Z) : bool :=
  match statusCode with
  | 429 | 500 | 502 | 503 | 504 => true
  | _ => false
  end.

Definition ExponentialBackoff (c : RetryConfig) (attempt : Z) : Z :=
  if attempt <=? 0 then InitialInterval c
  else
    let duration :=
      float64_mul (float64_of_int (InitialInterval c))
                  (math_Pow (Multiplier c) (float64_of_int (attempt - 1))) in
    let backoff := int64_of_float64 duration in
    if backoff >? MaxInterval c then MaxInterval c else backoff.

(** One turn of the loop of [WithRetry]: it returns, or goes on to the next
    attempt with the error it recorded. *)
Inductive Turn :=
| Return (r : RoundTrip)
| Continue (lastErr : option error).

Definition retry_turn (ctx : Z -> Z -> option error) (retryConfig : RetryConfig)
    (fn : nat -> RoundTrip) (attempt : Z) : Turn * list Event :=
  let k := Z.to_nat attempt in
  let invoke (waited : list Event) : Turn * list Event :=
    let '(resp, lastErr) := fn k in
    match lastErr with
    | Some _ => (Continue lastErr, waited ++ [EvAction k])
    | None =>
      match resp with
      | Some rsp =>
        if IsRetryableError (StatusCode rsp)
        then (Continue (Some (serverError
                {| se_Message := "retryable error"; se_Response := Some rsp;
                   se_ResponseData := None; se_Errors := None |})),
              waited ++ [EvAction k; EvCloseBody k])
        else (Return (resp, lastErr), waited ++ [EvAction k])
      | None => (Return (resp, lastErr), waited ++ [EvAction k])
      end
    end in
  if 0 <? attempt then
    let backoff := ExponentialBackoff retryConfig attempt in
    match ctx attempt backoff with
    | Some err => (Return (None, Some err), [EvBackoff attempt backoff])
    | None => invoke [EvBackoff attempt backoff]
    end
  else invoke [].

(** The loop [for attempt := 0; attempt <= MaxRetries; attempt++], with
    [n] the number of turns left. *)
Fixpoint retry_loop (ctx : Z -> Z -> option error) (retryConfig : RetryConfig)
    (fn : nat -> RoundTrip) (n : nat) (attempt : Z) (lastErr : option error)
    : RoundTrip * list Event :=
  match n with
  | O => ((None, lastErr), [])
  | S n' =>
    match retry_turn ctx retryConfig fn attempt with
    | (Return r, tr) => (r, tr)
    | (Continue lastErr', tr) =>
      let '(r, tr') := retry_loop ctx retryConfig fn n' (attempt + 1) lastErr' in
      (r, tr ++ tr')
    end
  end.

(** [WithRetry].  The action [fn] is given by what its invocations
    return, by number; the loop counter does not overflow. *)
Definition WithRetry (ctx : Z -> Z -> option error)
    (retryConfig : option RetryConfig) (fn : nat -> RoundTrip)
    : RoundTrip * list Event :=
  let retryConfig := default DefaultRetryConfig retryConfig in
  retry_loop ctx retryConfig fn (Z.to_nat (MaxRetries retryConfig + 1)) 0 None.

(** ** Configuration *)

(** The [HttpClient] of the Go struct is the transport; here it is the
    [World] that every call takes. *)
Record Config := {
  Host : string;
  ApiURL : string;
  AccessToken : string;
  EnableGzip : bool;
  RetryConfig_ : option RetryConfig;
}.

Definition WithHost (host : string) (c : Config) : Config :=
  {| Host := host; ApiURL := ApiURL c; AccessToken := AccessToken c;
     EnableGzip := EnableGzip c; RetryConfig_ := RetryConfig_ c |}.

Definition WithApiURL (apiURL : string) (c : Config) : Config :=
  {| Host := Host c; ApiURL := apiURL; AccessToken := AccessToken c;
     EnableGzip := EnableGzip c; RetryConfig_ := RetryConfig_ c |}.

Definition WithAccessToken (accessToken : string) (c : Config) : Config :=
  {| Host := Host c; ApiURL := ApiURL c; AccessToken := accessToken;
     EnableGzip := EnableGzip c; RetryConfig_ := RetryConfig_ c |}.

Definition WithGzipEnabled (enabled : bool) (c : Config) : Config :=
  {| Host := Host c; ApiURL := ApiURL c; AccessToken := AccessToken c;
     EnableGzip := enabled; RetryConfig_ := RetryConfig_ c |}.

Definition WithRetryConfig (retryConfig : option RetryConfig) (c : Config)
    : Config :=
  {| Host := Host c; ApiURL := ApiURL c; AccessToken := AccessToken c;
     EnableGzip := EnableGzip c; RetryConfig_ := retryConfig |}.

Definition withDefaults (c : Config) : Config :=
  {| Host := if bool_decide (Host c = "") then "https://exp.host" else Host c;
     ApiURL := if bool_decide (ApiURL c = "") then "/--/api/v2" else ApiURL c;
     AccessToken := AccessToken c;
     EnableGzip := EnableGzip c;
     RetryConfig_ := match RetryConfig_ c with
                     | None => Some DefaultRetryConfig
                     | Some rc => Some rc
                     end |}.

Record Client := { cnf : Config }.

Definition NewClient (opts : list (option (Config -> Config))) : Client :=
  let c := {| Host := ""; ApiURL := ""; AccessToken := "";
              EnableGzip := false; RetryConfig_ := None |} in
  {| cnf := withDefaults
       (fold_left (fun c opt => match opt with Some f => f c | None => c end)
                  opts c) |}.

(** ** Publishing *)

Definition checkStatus (resp : HttpResponse) : option error :=
  if (200 <=? StatusCode resp) && (StatusCode resp <=? 299) then None
  else Some (errorString ("invalid response (" +:+ pretty (StatusCode resp)
                          +:+ " " +:+ Status resp +:+ ")")).

(** The two validation loops at the head of [publish]. *)
Fixpoint validate_recipients (to : list (option Token)) : option error :=
  match to with
  | [] => None
  | recipient :: rest =>
    match recipient with
    | None => Some (errorString "invalid push token")
    | Some s =>
      if bool_decide (s = "") then Some (errorString "invalid push token")
      else validate_recipients rest
    end
  end.

Fixpoint validate_messages (msgs : list Message) : option error :=
  match msgs with
  | [] => None
  | message :: rest =>
    if (length (msg_To message) =? 0)%nat
    then Some (errorString "no recipients")
    else match validate_recipients (msg_To message) with
         | Some err => Some err
         | None => validate_messages rest
         end
  end.

Definition maxNotificationsPerRequest : nat := 100.

(** One entry per (message, recipient) pair, in the order of the batch. *)
Definition expand (msgs : list Message) : list Message :=
  flat_map (fun msg => map (fun _ => msg) (msg_To msg)) msgs.

Definition set_MessageItem (t : MessageResponse) (m : Message)
    : MessageResponse :=
  {| tk_MessageItem := Some m; tk_ID := tk_ID t; tk_Status := tk_Status t;
     tk_Message := tk_Message t; tk_Details := tk_Details t |}.

(** [for i := range r.Data { r.Data[i].MessageItem = expandedMessages[i] }] *)
Fixpoint assign (data : list (option MessageResponse))
    (expandedMessages : list Message) : Outcome (list MessageResponse) :=
  match data with
  | [] => Returns []
  | None :: _ => Panics "nil pointer dereference: r.Data[i]"
  | Some t :: data' =>
    match expandedMessages with
    | [] => Panics "index out of range: expandedMessages[i]"
    | m :: ms =>
      match assign data' ms with
      | Returns ts => Returns (set_MessageItem t m :: ts)
      | Panics why => Panics why
      end
    end
  end.

Definition mismatch_message (expected received : nat) : string :=
  "mismatched response length. Expected " +:+ pretty expected
  +:+ " receipts but only received " +:+ pretty received.

Definition send_request (c : Client) (msgs : list Message) : Request :=
  {| Method := "POST";
     URL := Host (cnf c) +:+ ApiURL (cnf c) +:+ "/push/send";
     Header :=
       [("Content-Type", "application/json"); ("Accept", "application/json");
        ("Accept-Encoding", "gzip, deflate")]
       ++ (if EnableGzip (cnf c) then [("Content-Encoding", "gzip")] else [])
       ++ (if bool_decide (AccessToken (cnf c) = "") then []
           else [("Authorization", "Bearer " +:+ AccessToken (cnf c))]);
     ReqBody := JSONMessages msgs (EnableGzip (cnf c)) |}.

Abbreviation Tickets := (option (list MessageResponse) * option error)%type
  (only parsing).

(** What [publish] does with the reply that [WithRetry] handed over. *)
Definition publish_reply (msgs : list Message) (resp : HttpResponse)
    : Outcome Tickets :=
  match checkStatus resp with
  | Some err => Returns (None, Some err)
  | None =>
    match as_Response (RespBody resp) with
    | DecodeErr e => Returns (None, Some (foreignError e))
    | DecodeOk None => Panics "nil pointer dereference: r.Errors"
    | DecodeOk (Some r) =>
      match rsp_Errors r with
      | Some _ => Returns (None, Some (errorString "invalid request"))
      | None =>
        match rsp_Data r with
        | None =>
          Returns (None, Some (NewServerError "invalid server response"
                                 (Some resp) (Some r) None))
        | Some data =>
          let expandedMessages := expand msgs in
          if negb (length expandedMessages =? length data)%nat
          then Returns (None, Some (NewServerError
                 (mismatch_message (length expandedMessages) (length data))
                 (Some resp) (Some r) None))
          else match assign data expandedMessages with
               | Returns tickets => Returns (Some tickets, None)
               | Panics why => Panics why
               end
        end
      end
    end
  end.

(** [publish].  Marshalling a batch of messages and compressing it into a
    buffer do not fail, so the two early returns after them are left out;
    a failure to build the request is a failure of the action, which [send]
    reports. *)
Definition publish (w : World) (c : Client) (msgs : list Message)
    : Outcome Tickets * list Event :=
  match validate_messages msgs with
  | Some err => (Returns (None, Some err), [])
  | None =>
    if (maxNotificationsPerRequest <? length msgs)%nat
    then (Returns (None, Some (errorString
            ("too many notifications: " +:+ pretty (length msgs)
             +:+ " (maximum is " +:+ pretty maxNotificationsPerRequest
             +:+ ")"))), [])
    else
      let '((resp, err), tr) :=
        WithRetry (ctx_backoff w) (RetryConfig_ (cnf c))
                  (fun k => send w k (send_request c msgs)) in
      match err with
      | Some e => (Returns (None, Some e), tr)
      | None =>
        match resp with
        | None => (Panics "nil pointer dereference: resp.Body", tr)
        | Some rsp => (publish_reply msgs rsp, tr)
        end
      end
  end.

Definition Publish := publish.

Definition PublishSingle (w : World) (c : Client) (msg : Message)
    : Outcome Tickets * list Event :=
  match publish w c [msg] with
  | (Returns (_, Some err), tr) => (Returns (None, Some err), tr)
  | (Returns (responses, None), tr) => (Returns (responses, None), tr)
  | (Panics why, tr) => (Panics why, tr)
  end.

(** ** Receipts *)

Definition maxReceiptsPerRequest : nat := 1000.

Abbreviation Receipts :=
  (option (gmap string (option PushReceipt)) * option error)%type
  (only parsing).

Definition receipts_request (c : Client) (ticketIDs : list string) : Request :=
  {| Method := "POST";
     URL := Host (cnf c) +:+ ApiURL (cnf c) +:+ "/push/getReceipts";
     Header :=
       [("Content-Type", "application/json")]
       ++ (if bool_decide (AccessToken (cnf c) = "") then []
           else [("Authorization", "Bearer " +:+ AccessToken (cnf c))]);
     ReqBody := JSONReceiptIDs {| rq_IDs := ticketIDs |} |}.

Definition GetPushReceipts (w : World) (c : Client) (ticketIDs : list string)
    : Outcome Receipts * list Event :=
  if (length ticketIDs =? 0)%nat then (Returns (Some ∅, None), [])
  else if (maxReceiptsPerRequest <? length ticketIDs)%nat
  then (Returns (None, Some (errorString
          ("too many ticket IDs: " +:+ pretty (length ticketIDs)
           +:+ " (maximum is " +:+ pretty maxReceiptsPerRequest +:+ ")"))),
        [])
  else
    let req := receipts_request c ticketIDs in
    let '(resp, err) := fetch w req in
    (match err with
     | Some e => Returns (None, Some e)
     | None =>
       match resp with
       | None => Panics "nil pointer dereference: resp.Body"
       | Some rsp =>
         match checkStatus rsp with
         | Some e => Returns (None, Some e)
         | None =>
           match as_PushReceiptResponse (RespBody rsp) with
           | DecodeErr e => Returns (None, Some (foreignError e))
           | DecodeOk None =>
             Panics "nil pointer dereference: receiptResp.Errors"
           | DecodeOk (Some receiptResp) =>
             match rr_Errors receiptResp with
             | Some errs =>
               Returns (None, Some (NewServerError "error fetching receipts"
                                      (Some rsp) None (Some errs)))
             | None => Returns (rr_Data receiptResp, None)
             end
           end
         end
       end
     end, [EvGetReceipts req]).

(** ** The send-and-reconcile workflow *)

Record PushResult := {
  pr_TicketID : string;
  pr_Message : option Message;
  pr_PushTicket : option MessageResponse;
  pr_PushReceipt : option PushReceipt;
  pr_Error : option error;
}.

Definition IsSuccessful (r : PushResult) : bool :=
  match pr_Error r, pr_PushTicket r, pr_PushReceipt r with
  | None, Some t, Some rc => tk_IsOk t && rc_IsOk rc
  | _, _, _ => false
  end.

Definition ShouldRetryToken (r : PushResult) : bool :=
  match pr_PushReceipt r with
  | Some rc =>
    match rc_Details rc with
    | Some details =>
      let errorType := map_index details "error" in
      negb (bool_decide (errorType = ErrorMsgDeviceNotRegistered))
    | None => bool_decide (pr_Error r <> None)
    end
  | None => bool_decide (pr_Error r <> None)
  end.

(** The test of step 2: the ticket is sent on to the receipt fetch. *)
Definition has_ticket_id (response : MessageResponse) : bool :=
  tk_IsOk response && negb (bool_decide (tk_ID response = "")).

(** Step 2, the result built for one ticket. *)
Definition ticket_result (response : MessageResponse) : PushResult :=
  if has_ticket_id response
  then {| pr_TicketID := tk_ID response;
          pr_Message := tk_MessageItem response;
          pr_PushTicket := Some response;
          pr_PushReceipt := None;
          pr_Error := None |}
  else {| pr_TicketID := "";
          pr_Message := tk_MessageItem response;
          pr_PushTicket := Some response;
          pr_PushReceipt := None;
          pr_Error := Some (errorString
                        ("push ticket error: " +:+ tk_Message response)) |}.

(** Step 2, the identifiers collected along the way. *)
Definition collect_ticketIDs (responses : list MessageResponse) : list string :=
  map tk_ID (filter (fun r => has_ticket_id r = true) responses).

(** Step 5 for one result. *)
Definition match_receipt (receipts : option (gmap string (option PushReceipt)))
    (result : PushResult) : Outcome PushResult :=
  if bool_decide (pr_TicketID result = "") then Returns result
  else
    match receipts ≫= (fun m => m !! pr_TicketID result) with
    | None => Returns result
    | Some None => Panics "nil pointer dereference: receipt.Status"
    | Some (Some receipt) =>
      Returns
        {| pr_TicketID := pr_TicketID result;
           pr_Message := pr_Message result;
           pr_PushTicket := pr_PushTicket result;
           pr_PushReceipt := Some receipt;
           pr_Error :=
             if negb (rc_IsOk receipt)
             then Some (errorString
                          ("push receipt error: " +:+ rc_Message receipt))
             else pr_Error result |}
    end.

Fixpoint match_receipts (receipts : option (gmap string (option PushReceipt)))
    (results : list PushResult) : Outcome (list PushResult) :=
  match results with
  | [] => Returns []
  | result :: rest =>
    match match_receipt receipts result with
    | Panics why => Panics why
    | Returns result' =>
      match match_receipts receipts rest with
      | Panics why => Panics why
      | Returns rest' => Returns (result' :: rest')
      end
    end
  end.

Abbreviation Results := (option (list PushResult) * option error)%type
  (only parsing).

Definition SendPushNotificationsWithReceipts (w : World) (c : Client)
    (messages : list Message) (receiptDelay : Z)
    : Outcome Results * list Event :=
  match Publish w c messages with
  | (Panics why, tr) => (Panics why, tr)
  | (Returns (_, Some err), tr) =>
    (Returns (None, Some (wrapError "failed to send push notifications: " err)),
     tr)
  | (Returns (responses, None), tr) =>
    let responses := default [] responses in
    let ticketIDs := collect_ticketIDs responses in
    let results := map ticket_result responses in
    let receiptDelay :=
      if receiptDelay =? 0 then 15 * Minute else receiptDelay in
    if (length ticketIDs =? 0)%nat then (Returns (Some results, None), tr)
    else
      match ctx_delay w receiptDelay with
      | Some err =>
        (Returns (Some results, Some err), tr ++ [EvReceiptDelay receiptDelay])
      | None =>
        let '(fetched, tr') := GetPushReceipts w c ticketIDs in
        (match fetched with
         | Panics why => Panics why
         | Returns (_, Some err) =>
           Returns (Some results,
                    Some (wrapError "failed to fetch push receipts: " err))
         | Returns (receipts, None) =>
           match match_receipts receipts results with
           | Panics why => Panics why
           | Returns results' => Returns (Some results', None)
           end
         end, tr ++ EvReceiptDelay receiptDelay :: tr')
      end
  end.

(** ** Helpers for callers *)

(** [len(k) + len(v)] summed over a map; the order of the range does not
    matter to the sum. *)
Definition data_size (d : option (gmap string string)) : nat :=
  match d with
  | None => 0%nat
  | Some m =>
    map_fold (fun k v acc => (acc + (String.length k + String.length v))%nat)
             0%nat m
  end.

(** The loop of [ValidateMessage] over the recipients; it dereferences each
    token. *)
Fixpoint validate_tokens (to : list (option Token)) : Outcome (option error) :=
  match to with
  | [] => Returns None
  | None :: _ => Panics "nil pointer dereference: *token"
  | Some token :: rest =>
    if negb (IsPushTokenValid token)
    then Returns (Some (errorString ("invalid push token: " +:+ token)))
    else validate_tokens rest
  end.

Definition ValidateMessage (msg : Message) : Outcome (option error) :=
  if (length (msg_To msg) =? 0)%nat
  then Returns (Some (errorString "message must have at least one recipient"))
  else
    let estimatedSize :=
      (String.length (msg_Title msg) + String.length (msg_Body msg)
       + data_size (msg_Data msg))%nat in
    if (4000 <? estimatedSize)%nat
    then Returns (Some (errorString
           ("message payload too large (estimated " +:+ pretty estimatedSize
            +:+ " bytes, maximum ~4000)")))
    else validate_tokens (msg_To msg).

(** [FilterInvalidTokens] writes to the messages it is handed pointers to.
    The messages live in a store, by address; a pointer is nil or an
    address, and the same address may come more than once.  An address
    outside the store does not occur in Go and is modelled as a crash. *)
Definition set_To (msg : Message) (to : list (option Token)) : Message :=
  {| msg_To := to;
     msg_Title := msg_Title msg;
     msg_Body := msg_Body msg;
     msg_Data := msg_Data msg;
     msg_Sound := msg_Sound msg;
     msg_TTL := msg_TTL msg;
     msg_Expiration := msg_Expiration msg;
     msg_Priority := msg_Priority msg;
     msg_Badge := msg_Badge msg;
     msg_ChannelID := msg_ChannelID msg;
     msg_Subtitle := msg_Subtitle msg;
     msg_InterruptionLevel := msg_InterruptionLevel msg;
     msg_MutableContent := msg_MutableContent msg;
     msg_ContentAvailable := msg_ContentAvailable msg;
     msg_Icon := msg_Icon msg;
     msg_RichContent := msg_RichContent msg;
     msg_CategoryID := msg_CategoryID msg |}.

(** The inner loop over the tokens of one message, with its two variables;
    it dereferences each token. *)
Fixpoint filter_tokens (to validTokens : list (option Token))
    (removedCount : nat) : Outcome (list (option Token) * nat) :=
  match to with
  | [] => Returns (validTokens, removedCount)
  | None :: _ => Panics "nil pointer dereference: *token"
  | Some token :: rest =>
    if IsPushTokenValid token
    then filter_tokens rest (validTokens ++ [Some token]) removedCount
    else filter_tokens rest validTokens (S removedCount)
  end.

(** The outer loop; [msg.To] is assigned after the inner loop has run. *)
Fixpoint filter_messages (messages : list (option nat))
    (store : gmap nat Message) (removedCount : nat)
    : Outcome nat * gmap nat Message :=
  match messages with
  | [] => (Returns removedCount, store)
  | None :: _ => (Panics "nil pointer dereference: msg.To", store)
  | Some a :: rest =>
    match store !! a with
    | None => (Panics "invalid address", store)
    | Some msg =>
      match filter_tokens (msg_To msg) [] removedCount with
      | Panics why => (Panics why, store)
      | Returns (validTokens, removedCount') =>
        filter_messages rest (<[a := set_To msg validTokens]> store)
                        removedCount'
      end
    end
  end.

Definition FilterInvalidTokens (messages : list (option nat))
    (store : gmap nat Message) : Outcome nat * gmap nat Message :=
  filter_messages messages store 0.

End Client.

(** ** The classification of results, in the words of the specification *)

(** The receipt's structured detail error code, when the result has a
    receipt, the receipt a detail map and the map the key. *)
Definition detail_error_code (r : PushResult) : option string :=
  rc ← pr_PushReceipt r; details ← rc_Details rc; details !! "error".

(** The detail map of the receipt, when there is one. *)
Definition receipt_details (r : PushResult) : option (gmap string string) :=
  rc ← pr_PushReceipt r; rc_Details rc.

(** "Terminal: the receipt's structured detail error code is exactly
    device-not-registered." *)
Definition spec_terminal (r : PushResult) : Prop :=
  detail_error_code r = Some ErrorMsgDeviceNotRegistered.

(** "Retry-eligible: has an error AND (no receipt present, OR the receipt's
    structured detail error code is anything other than
    device-not-registered)." *)
Definition spec_retry_eligible (r : PushResult) : Prop :=
  pr_Error r <> None /\
  (pr_PushReceipt r = None \/
   detail_error_code r <> Some ErrorMsgDeviceNotRegistered).

(** ** The outcomes of the retried action *)

(** The outcomes after which [WithRetry] goes on to the next attempt: a
    transport error, or a response with one of the five listed codes. *)
Definition retryable (rt : RoundTrip) : bool :=
  match rt with
  | (_, Some _) => true
  | (Some rsp, None) => IsRetryableError (StatusCode rsp)
  | (None, None) => false
  end.

(** The same, in the words of the specification. *)
Definition spec_retryable (rt : RoundTrip) : Prop :=
  snd rt <> None \/
  exists rsp, fst rt = Some rsp /\ In (StatusCode rsp) [429; 500; 502; 503; 504].

(** The error [WithRetry] records for such an outcome: the transport error,
    or the marker that wraps the response. *)
Definition recorded_error (rt : RoundTrip) : option error :=
  match rt with
  | (_, Some e) => Some e
  | (Some rsp, None) =>
    Some (serverError {| se_Message := "retryable error";
                         se_Response := Some rsp;
                         se_ResponseData := None; se_Errors := None |})
  | (None, None) => None
  end.

(** The error in hand after [m] invocations that started at number [a0]. *)
Definition last_recorded (fn : nat -> RoundTrip) (lastErr : option error)
    (a0 m : nat) : option error :=
  match m with
  | O => lastErr
  | S j => recorded_error (fn (a0 + j)%nat)
  end.

(** The invocations of the action that a trace shows, in order. *)
Definition invocations (tr : list Event) : list nat :=
  omap (fun ev => match ev with EvAction k => Some k | _ => None end) tr.

(** Whether the wait before an attempt ends in a cancellation. *)
Definition cancelled_at `{F : Float64} (ctx : Z -> Z -> option error)
    (c : RetryConfig) (attempt : Z) : option error :=
  if 0 <? attempt then ctx attempt (ExponentialBackoff c attempt) else None.

(** How the loop of [WithRetry] ends after [m] invocations numbered from
    [a0], with [n] turns at its disposal: it stopped on an outcome it does
    not retry, or it ran out of turns, or a wait was cancelled. *)
Definition loop_end `{F : Float64} (ctx : Z -> Z -> option error)
    (c : RetryConfig) (fn : nat -> RoundTrip) (n a0 m : nat)
    (lastErr : option error) (r : RoundTrip) : Prop :=
  (exists k, (a0 + m = S k)%nat /\ (a0 <= k)%nat /\
             retryable (fn k) = false /\ r = fn k)
  \/ (m = n /\
      (forall k, (a0 <= k < a0 + m)%nat -> retryable (fn k) = true) /\
      r = (None, last_recorded fn lastErr a0 m))
  \/ ((m < n)%nat /\
      (forall k, (a0 <= k < a0 + m)%nat -> retryable (fn k) = true) /\
      exists err, cancelled_at ctx c (Z.of_nat (a0 + m)) = Some err /\
                  r = (None, Some err)).

(** The number of retries in force, and the number of invocations that a
    call of [WithRetry] makes. *)
Definition budget `{F : Float64} (retryConfig : option RetryConfig) : Z :=
  MaxRetries (default DefaultRetryConfig retryConfig).

Definition attempts_made `{F : Float64} (ctx : Z -> Z -> option error)
    (retryConfig : option RetryConfig) (fn : nat -> RoundTrip) : nat :=
  length (invocations (snd (WithRetry ctx retryConfig fn))).

(** A string without a blank, as the decimal numerals are. *)
Fixpoint no_blank (s : string) : Prop :=
  match s with
  | EmptyString => True
  | String ch s' => ch <> " "%char /\ no_blank s'
  end.

(** ** The recipients that [publish] turns down *)

(** A recipient that is a [nil] pointer or the empty string. *)
Definition nil_or_empty (recipient : option Token) : Prop :=
  recipient = None \/ recipient = Some "".

(** ** The tickets that go on to the receipt fetch *)

(** A ticket whose status is ok and whose identifier is not empty. *)
Definition eligible (t : MessageResponse) : Prop :=
  tk_Status t = "ok" /\ tk_ID t <> "".

(** The result of a ticket that does not go on: no identifier, no receipt,
    and the error made from the ticket's message. *)
Definition terminal_result (t : MessageResponse) : PushResult :=
  {| pr_TicketID := ""; pr_Message := tk_MessageItem t;
     pr_PushTicket := Some t; pr_PushReceipt := None;
     pr_Error := Some (errorString ("push ticket error: " +:+ tk_Message t)) |}.

(** The delay the workflow waits for: fifteen minutes when none is given. *)
Definition effective_delay (receiptDelay : Z) : Z :=
  if receiptDelay =? 0 then 15 * Minute else receiptDelay.

(** ** Sample data *)

Definition message_to (to : list (option Token)) (title body : string)
    : Message :=
  {| msg_To := to; msg_Title := title; msg_Body := body; msg_Data := None;
     msg_Sound := ""; msg_TTL := 0; msg_Expiration := 0; msg_Priority := "";
     msg_Badge := 0; msg_ChannelID := ""; msg_Subtitle := "";
     msg_InterruptionLevel := ""; msg_MutableContent := false;
     msg_ContentAvailable := false; msg_Icon := ""; msg_RichContent := None;
     msg_CategoryID := "" |}.

Definition ticket (id status message : string) : MessageResponse :=
  {| tk_MessageItem := None; tk_ID := id; tk_Status := status;
     tk_Message := message; tk_Details := None |}.

(** A body that is a publish reply; as a receipt reply it has neither
    member. *)
Definition reply_body (r : option Response) : Body :=
  {| as_Response := DecodeOk r;
     as_PushReceiptResponse :=
       DecodeOk (option_map (fun _ => {| rr_Data := None; rr_Errors := None |}) r) |}.

(** A body that is a receipt reply; as a publish reply it has no ticket
    array. *)
Definition receipts_body (r : option PushReceiptResponse) : Body :=
  {| as_Response :=
       DecodeOk (option_map (fun _ => {| rsp_Data := None; rsp_Errors := None |}) r);
     as_PushReceiptResponse := DecodeOk r |}.

Definition http_ok (b : Body) : HttpResponse :=
  {| StatusCode := 200; Status := "200 OK"; RespBody := b |}.

Definition http_status (code : Z) (status : string) : HttpResponse :=
  {| StatusCode := code; Status := status; RespBody := reply_body None |}.

(** A world whose context is never cancelled. *)
Definition quiet_world (s : nat -> RoundTrip) (f : RoundTrip) : World :=
  {| send := fun k _ => s k; fetch := fun _ => f;
     ctx_backoff := fun _ _ => None; ctx_delay := fun _ => None |}.

Definition sample_client : Client := NewClient [].

(** A result that waits for its receipt: ticket accepted, nothing fetched. *)
Definition pending_result : PushResult :=
  {| pr_TicketID := "t-1"; pr_Message := None;
     pr_PushTicket := Some (ticket "t-1" "ok" "");
     pr_PushReceipt := None; pr_Error := None |}.

(** A delivered result whose receipt carries an empty detail map. *)
Definition delivered_result : PushResult :=
  {| pr_TicketID := "t-1"; pr_Message := None;
     pr_PushTicket := Some (ticket "t-1" "ok" "");
     pr_PushReceipt :=
       Some {| rc_Status := "ok"; rc_Message := ""; rc_Details := Some ∅ |};
     pr_Error := None |}.

(** An action that fails twice with 503 and then answers 404. *)
Definition flaky_action (k : nat) : RoundTrip :=
  if (k <? 2)%nat then (Some (http_status 503 "503 Service Unavailable"), None)
  else (Some (http_status 404 "404 Not Found"), None).

(** An action that always answers 503. *)
Definition busy_action (k : nat) : RoundTrip :=
  (Some (http_status 503 "503 Service Unavailable"), None).

(** A context that is never cancelled, and one that is cancelled during
    the first wait. *)
Definition live_ctx (attempt backoff : Z) : option error := None.

Definition cancelled_ctx (attempt backoff : Z) : option error :=
  Some (foreignError "context canceled").

(** One message addressed to two tokens, and replies with two tickets,
    with one ticket, and with a ticket array next to an errors member. *)
Definition two_tokens_message : Message :=
  message_to [Some "ExponentPushToken[aaa]"; Some "ExponentPushToken[bbb]"]
             "Hello" "World".

Definition two_tickets : Response :=
  {| rsp_Data := Some [Some (ticket "id-1" "ok" ""); Some (ticket "id-2" "ok" "")];
     rsp_Errors := None |}.

Definition one_ticket : Response :=
  {| rsp_Data := Some [Some (ticket "id-1" "ok" "")]; rsp_Errors := None |}.

Definition tickets_and_errors : Response :=
  {| rsp_Data := Some [Some (ticket "id-1" "ok" "")];
     rsp_Errors := Some [{[ "code" := "VALIDATION_ERROR" ]}] |}.

(** A world that answers every publish request with the given reply; its
    receipt endpoint refuses connections. *)
Definition replying (r : option Response) : World :=
  quiet_world (fun _ => (Some (http_ok (reply_body r)), None))
              (None, Some (foreignError "connection refused")).

(** A message whose only recipient does not have the required prefix. *)
Definition malformed_message : Message :=
  message_to [Some "not-an-expo-token"] "Hello" "World".

(** A world whose two endpoints answer 200 with the JSON body [null]. *)
Definition null_world : World :=
  quiet_world (fun _ => (Some (http_ok (reply_body None)), None))
              (Some (http_ok (receipts_body None)), None).

(** A ticket that carries an identifier next to an error status, and a
    reply made of it. *)
Definition refused_ticket : MessageResponse :=
  ticket "id-9" "error" "rate limit exceeded".

Definition refused_reply : Response :=
  {| rsp_Data := Some [Some refused_ticket]; rsp_Errors := None |}.

Definition one_token_message : Message :=
  message_to [Some "ExponentPushToken[aaa]"] "Hello" "World".

(** A reply with one accepted and one refused ticket. *)
Definition mixed_reply : Response :=
  {| rsp_Data := Some [Some (ticket "id-1" "ok" "");
                       Some (ticket "" "error" "not a registered recipient")];
     rsp_Errors := None |}.

(** ** The trace of a retried action *)

(** Whether [WithRetry] closes the body of what an invocation returned: it
    does so for a response that came without error and with a retried
    status. *)
Definition body_closed (rt : RoundTrip) : bool :=
  match rt with
  | (Some rsp, None) => IsRetryableError (StatusCode rsp)
  | _ => false
  end.

(** What the turn of invocation [k] leaves in the trace when its wait is
    not cancelled. *)
Definition turn_events `{F : Float64} (c : RetryConfig) (fn : nat -> RoundTrip)
    (k : nat) : list Event :=
  (if 0 <? Z.of_nat k
   then [EvBackoff (Z.of_nat k) (ExponentialBackoff c (Z.of_nat k))] else [])
  ++ EvAction k :: (if body_closed (fn k) then [EvCloseBody k] else []).

(** ** Batches that pass the checks of [publish] *)

(** Every message has a recipient, and no recipient is nil or empty. *)
Definition valid_batch (msgs : list Message) : Prop :=
  Forall (fun m => msg_To m <> [] /\
                   Forall (fun r => ~ nil_or_empty r) (msg_To m)) msgs.

(** A client whose retry configuration allows no attempt at all. *)
Definition no_attempt_client : Client :=
  NewClient [Some (WithRetryConfig (Some
    {| MaxRetries := -1; InitialInterval := 1 * Second;
       MaxInterval := 30 * Second; Multiplier := float64_of_int 2 |}))].

(** A world whose publish endpoint answers as the given action does. *)
Definition answering (s : nat -> RoundTrip) : World :=
  quiet_world s (None, Some (foreignError "connection refused")).

(** ** Receipts and results *)

(** [receipts[id]] with its presence flag: [None] when the map is nil or
    has no such key, [Some None] when the key holds a nil receipt. *)
Definition lookup_receipt (receipts : option (gmap string (option PushReceipt)))
    (id : string) : option (option PushReceipt) :=
  receipts ≫= (fun m => m !! id).

(** A world whose publish endpoint answers 200 with the first reply and
    whose receipt endpoint answers 200 with the second. *)
Definition serving (r : Response) (rr : PushReceiptResponse) : World :=
  quiet_world (fun _ => (Some (http_ok (reply_body (Some r))), None))
              (Some (http_ok (receipts_body (Some rr))), None).

(** A receipt that reports a delivery, and one that reports a device that
    is no longer registered. *)
Definition delivered_receipt : PushReceipt :=
  {| rc_Status := "ok"; rc_Message := ""; rc_Details := None |}.

Definition unregistered_receipt : PushReceipt :=
  {| rc_Status := "error"; rc_Message := "not registered";
     rc_Details := Some {[ "error" := ErrorMsgDeviceNotRegistered ]} |}.

(** Receipt replies: one that reports the device of ["id-1"] as no longer
    registered, and one that holds a nil receipt under that identifier. *)
Definition unregistered_reply : PushReceiptResponse :=
  {| rr_Data := Some {[ "id-1" := Some unregistered_receipt ]};
     rr_Errors := None |}.

Definition nil_receipt_reply : PushReceiptResponse :=
  {| rr_Data := Some {[ "id-1" := None ]}; rr_Errors := None |}.

(** The tickets that [publish] returns for the two-token message when the
    reply is [mixed_reply]. *)
Definition mixed_tickets : list MessageResponse :=
  [set_MessageItem (ticket "id-1" "ok" "") two_tokens_message;
   set_MessageItem (ticket "" "error" "not a registered recipient")
                   two_tokens_message].

(** A batch of 91 messages with 11 recipients each, the reply that accepts
    all 1001 notifications, and the tickets that [publish] makes of it. *)
Definition crowd_message : Message :=
  message_to (replicate 11 (Some "ExponentPushToken[aaa]")) "Hello" "World".

Definition crowd_messages : list Message := replicate 91 crowd_message.

Definition crowd_reply : Response :=
  {| rsp_Data := Some (replicate 1001 (Some (ticket "id" "ok" "")));
     rsp_Errors := None |}.

Definition crowd_tickets : list MessageResponse :=
  replicate 1001 (set_MessageItem (ticket "id" "ok" "") crowd_message).

(** Whether an event belongs to the retry loop. *)
Definition retry_event (ev : Event) : Prop :=
  match ev with
  | EvBackoff _ _ | EvAction _ | EvCloseBody _ => True
  | EvReceiptDelay _ | EvGetReceipts _ => False
  end.

(** ** Tokens kept by the filter *)

(** A token that is there and has the prefix. *)
Definition valid_token (recipient : option Token) : bool :=
  match recipient with
  | Some token => IsPushTokenValid token
  | None => false
  end.

Definition kept_tokens (to : list (option Token)) : list (option Token) :=
  filter (fun r => valid_token r = true) to.

(** The number of tokens held by the messages of a store. *)
Definition token_count (store : gmap nat Message) : nat :=
  map_fold (fun _ msg acc => (acc + length (msg_To msg))%nat) 0%nat store.

(** A pointer that is the address of a message without nil token. *)
Definition filterable (store : gmap nat Message) (p : option nat) : Prop :=
  exists a msg, p = Some a /\ store !! a = Some msg /\
                Forall is_Some (msg_To msg).

(** The messages that a list of pointers stands for. *)
Definition points_to (store : gmap nat Message) (messages : list (option nat))
    (msgs : list Message) : Prop :=
  Forall2 (fun p msg => exists a, p = Some a /\ store !! a = Some msg)
          messages msgs.

(** The size that [ValidateMessage] estimates. *)
Definition estimated_size (msg : Message) : nat :=
  (String.length (msg_Title msg) + String.length (msg_Body msg)
   + data_size (msg_Data msg))%nat.

(** A store of two messages; the first holds a token without the prefix. *)
Definition sample_store : gmap nat Message :=
  {[ 0%nat := message_to [Some "ExponentPushToken[aaa]"; Some "bogus";
                          Some "ExponentPushToken[bbb]"] "Hello" "World";
     1%nat := message_to [Some "not-a-token"] "Hello" "World" ]}.

Definition filtered_store : gmap nat Message :=
  {[ 0%nat := message_to [Some "ExponentPushToken[aaa]";
                          Some "ExponentPushToken[bbb]"] "Hello" "World";
     1%nat := message_to [] "Hello" "World" ]}.

(** A store whose one message holds a nil token. *)
Definition nil_token_store : gmap nat Message :=
  {[ 0%nat := message_to [Some "ExponentPushToken[aaa]"; None]
                         "Hello" "World" ]}.

(** * Properties *)

(** ** Tokens *)

Lemma ParseToken_prefix (token : string) :
  String.prefix "ExponentPushToken" token = true ->
  ParseToken token = (Some token, None).
Proof. intros Hp. unfold ParseToken. now rewrite Hp. Qed.

Lemma ParseToken_no_prefix (token : string) :
  String.prefix "ExponentPushToken" token = false ->
  ParseToken token = (None, Some (errorString ErrMsgMalformedToken)).
Proof. intros Hp. unfold ParseToken. now rewrite Hp. Qed.

(** C10. For a string that does not start with ["ExponentPushToken"],
    [MustParseToken] yields the nil token (it has no error result and no
    way to panic), while [ParseToken] on the same string yields an error and
    no token. *)
Theorem MustParseToken_malformed_nil (token : string) :
  String.prefix "ExponentPushToken" token = false ->
  MustParseToken token = None /\
  fst (ParseToken token) = None /\
  snd (ParseToken token) = Some (errorString ErrMsgMalformedToken).
Proof.
  intros Hp. unfold MustParseToken.
  rewrite (ParseToken_no_prefix token Hp). auto.
Qed.

Lemma MustParseToken_malformed_nil_witness :
  String.prefix "ExponentPushToken" "ExpoPushToken[abc]" = false /\
  MustParseToken "ExpoPushToken[abc]" = None /\
  fst (ParseToken "ExpoPushToken[abc]") = None /\
  snd (ParseToken "ExpoPushToken[abc]")
    = Some (errorString ErrMsgMalformedToken).
Proof.
  split; [reflexivity |].
  apply (MustParseToken_malformed_nil "ExpoPushToken[abc]"). reflexivity.
Defined.

(** A well-formed token is never empty, so the recipient check of
    [publish] lets it through. *)
Lemma ParseToken_nonempty (token tkn : string) :
  fst (ParseToken token) = Some tkn -> tkn <> "".
Proof.
  unfold ParseToken.
  destruct (String.prefix "ExponentPushToken" token) eqn:Hp; simpl; [| easy].
  intros [= <-] ->. discriminate Hp.
Qed.

(** ** Classification of results *)

Lemma map_index_DeviceNotRegistered (d : gmap string string) :
  map_index d "error" = ErrorMsgDeviceNotRegistered <->
  d !! "error" = Some ErrorMsgDeviceNotRegistered.
Proof.
  unfold map_index. destruct (d !! "error") as [s|]; simpl.
  - split; [intros -> | intros [= ->]]; reflexivity.
  - split; discriminate.
Qed.

Lemma ShouldRetryToken_details (r : PushResult) (d : gmap string string) :
  receipt_details r = Some d ->
  ShouldRetryToken r
  = negb (bool_decide (map_index d "error" = ErrorMsgDeviceNotRegistered)).
Proof.
  unfold receipt_details, ShouldRetryToken.
  destruct (pr_PushReceipt r) as [rc|]; simpl; [| discriminate].
  intros ->. reflexivity.
Qed.

Lemma ShouldRetryToken_no_details (r : PushResult) :
  receipt_details r = None ->
  ShouldRetryToken r = bool_decide (pr_Error r <> None).
Proof.
  unfold receipt_details, ShouldRetryToken.
  destruct (pr_PushReceipt r) as [rc|]; simpl; [| reflexivity].
  intros ->. reflexivity.
Qed.

Lemma detail_error_code_details (r : PushResult) :
  detail_error_code r = receipt_details r ≫= (fun d => d !! "error").
Proof.
  unfold detail_error_code, receipt_details.
  destruct (pr_PushReceipt r) as [rc|]; reflexivity.
Qed.

Lemma ShouldRetryToken_false_iff (r : PushResult) :
  ShouldRetryToken r = false <->
  spec_terminal r \/ (receipt_details r = None /\ pr_Error r = None).
Proof.
  unfold spec_terminal. rewrite detail_error_code_details.
  destruct (receipt_details r) as [d|] eqn:Hd; simpl.
  - rewrite (ShouldRetryToken_details r d Hd).
    rewrite <- map_index_DeviceNotRegistered.
    destruct (bool_decide_reflect
                (map_index d "error" = ErrorMsgDeviceNotRegistered)) as [He|He];
      simpl; split; try discriminate; try tauto.
    intros [Habs | [[=] _]]. contradiction.
  - rewrite (ShouldRetryToken_no_details r Hd).
    destruct (bool_decide_reflect (pr_Error r <> None)) as [He|He];
      split; try discriminate; try tauto.
    + intros [[=] | [_ Hn]]. contradiction.
    + intros _. right. split; [reflexivity |].
      destruct (pr_Error r); [exfalso; apply He; discriminate | reflexivity].
Qed.

Lemma ShouldRetryToken_true_iff (r : PushResult) :
  ShouldRetryToken r = true <->
  (exists d, receipt_details r = Some d /\
             d !! "error" <> Some ErrorMsgDeviceNotRegistered) \/
  (receipt_details r = None /\ pr_Error r <> None).
Proof.
  destruct (receipt_details r) as [d|] eqn:Hd; simpl.
  - rewrite (ShouldRetryToken_details r d Hd).
    destruct (bool_decide_reflect
                (map_index d "error" = ErrorMsgDeviceNotRegistered)) as [He|He];
      simpl; split; try discriminate; try tauto.
    + intros [(d' & [= <-] & Hne) | [[=] _]].
      apply map_index_DeviceNotRegistered in He. contradiction.
    + intros _. left. exists d. split; [reflexivity |].
      now rewrite <- map_index_DeviceNotRegistered.
  - rewrite (ShouldRetryToken_no_details r Hd).
    destruct (bool_decide_reflect (pr_Error r <> None)) as [He|He];
      split; try discriminate; try tauto.
    intros [(d' & [=] & _) | [_ Hn]]. contradiction.
Qed.

(** C5, as the code has it.  [ShouldRetryToken] is false exactly when the
    receipt's detail error code is ["DeviceNotRegistered"], or the result
    has neither an error nor a receipt detail map; it is true exactly when
    the receipt carries a detail map whose error code is anything else
    (whether or not the result has an error), or the result has an error
    and no receipt detail map. *)
Theorem ShouldRetryToken_classification (r : PushResult) :
  (ShouldRetryToken r = false <->
     spec_terminal r \/ (receipt_details r = None /\ pr_Error r = None)) /\
  (ShouldRetryToken r = true <->
     (exists d, receipt_details r = Some d /\
                d !! "error" <> Some ErrorMsgDeviceNotRegistered) \/
     (receipt_details r = None /\ pr_Error r <> None)).
Proof.
  split; [apply ShouldRetryToken_false_iff | apply ShouldRetryToken_true_iff].
Qed.

(** C5, as stated, fails: a result that still waits for its receipt is not
    to be retried although no device-not-registered code is present, and a
    delivered result whose receipt has a detail map is to be retried although
    it has no error. *)
Lemma ShouldRetryToken_not_spec_classification :
  (ShouldRetryToken pending_result = false /\ ~ spec_terminal pending_result)
  /\
  (ShouldRetryToken delivered_result = true /\
   ~ spec_retry_eligible delivered_result).
Proof.
  split; split.
  - reflexivity.
  - unfold spec_terminal. simpl. discriminate.
  - reflexivity.
  - unfold spec_retry_eligible. simpl. intros [He _]. now apply He.
Qed.

(** What the two classes of the specification do imply. *)
Lemma spec_terminal_not_retried (r : PushResult) :
  spec_terminal r -> ShouldRetryToken r = false.
Proof.
  intros Ht. apply ShouldRetryToken_false_iff. now left.
Qed.

Lemma spec_retry_eligible_retried (r : PushResult) :
  spec_retry_eligible r -> ShouldRetryToken r = true.
Proof.
  intros [He Hr]. apply ShouldRetryToken_true_iff.
  destruct (receipt_details r) as [d|] eqn:Hd.
  - left. exists d. split; [reflexivity |].
    destruct Hr as [Hn | Hc].
    + unfold receipt_details in Hd. now rewrite Hn in Hd.
    + rewrite detail_error_code_details, Hd in Hc. exact Hc.
  - right. now split.
Qed.

(** ** Backoff *)

Section Backoff.
Context `{F : Float64}.


Lemma ExponentialBackoff_later (c : RetryConfig) (attempt : Z) :
  1 <= attempt ->
  ExponentialBackoff c attempt
  = Z.min (int64_of_float64
             (float64_mul (float64_of_int (InitialInterval c))
                (math_Pow (Multiplier c) (float64_of_int (attempt - 1)))))
          (MaxInterval c).
Proof.
  intros Ha. unfold ExponentialBackoff.
  destruct (Z.leb_spec attempt 0); [lia |].
  cbv zeta.
  destruct (Z.gtb_spec
    (int64_of_float64
       (float64_mul (float64_of_int (InitialInterval c))
          (math_Pow (Multiplier c) (float64_of_int (attempt - 1)))))
    (MaxInterval c)); lia.
Qed.



End Backoff.

(** With exact arithmetic the product is the rational
    [initial * multiplier ^ (attempt - 1)], truncated toward zero. *)
Lemma Qtrunc_inject_Z (z : Z) : Qtrunc (inject_Z z) = z.
Proof. unfold Qtrunc, inject_Z. simpl. apply Z.quot_1_r. Qed.

Lemma ExponentialBackoff_exact (c : @RetryConfig exact_float64) (attempt : Z) :
  1 <= attempt ->
  ExponentialBackoff c attempt
  = Z.min (Qtrunc (inject_Z (InitialInterval c)
                   * Qpower (Multiplier c) (attempt - 1))%Q)
          (MaxInterval c).
Proof.
  intros Ha. rewrite (ExponentialBackoff_later c attempt Ha).
  simpl. unfold exact_Pow. now rewrite Qtrunc_inject_Z.
Qed.


Example ExponentialBackoff_default_values :
  map (ExponentialBackoff DefaultRetryConfig) [-1; 0; 1; 2; 3; 4; 5; 6; 7]
  = [1 * Second; 1 * Second; 1 * Second; 2 * Second; 4 * Second; 8 * Second;
     16 * Second; 30 * Second; 30 * Second].
Proof. reflexivity. Qed.

(** The conversion to a duration drops the fraction: three nanoseconds
    times one and a half is four nanoseconds. *)
Example ExponentialBackoff_truncates :
  ExponentialBackoff
    {| MaxRetries := 3; InitialInterval := 3; MaxInterval := 100;
       Multiplier := (3 # 2)%Q |} 2 = 4.
Proof. reflexivity. Qed.

(** ** Retries *)

Lemma IsRetryableError_codes (statusCode : Z) :
  IsRetryableError statusCode = true <->
  In statusCode [429; 500; 502; 503; 504].
Proof.
  split.
  - unfold IsRetryableError. intros H.
    destruct statusCode as [|p|p]; try discriminate H.
    repeat (destruct p as [p|p|]; try discriminate H); simpl; tauto.
  - simpl. intros [<-|[<-|[<-|[<-|[<-|[]]]]]]; reflexivity.
Qed.

Lemma retryable_spec (rt : RoundTrip) :
  retryable rt = true <-> spec_retryable rt.
Proof.
  unfold spec_retryable. destruct rt as [[rsp|] [e|]]; simpl.
  - split; [left; discriminate | reflexivity].
  - rewrite IsRetryableError_codes. split.
    + intros Hin. right. exists rsp. now split.
    + intros [Hne | (rsp' & [= <-] & Hin)]; [contradiction | exact Hin].
  - split; [left; discriminate | reflexivity].
  - split; [discriminate |].
    intros [Hne | (rsp' & [=] & _)]. contradiction.
Qed.

Section RetryLoop.
Context `{F : Float64}.
Variable ctx : Z -> Z -> option error.
Variable retryConfig : RetryConfig.
Variable fn : nat -> RoundTrip.

(** One turn: a cancelled wait returns the context's error and invokes
    nothing; otherwise the action is invoked once, and its outcome decides
    between going on and returning it unchanged. *)
Lemma retry_turn_cancelled (attempt : Z) (err : error) :
  cancelled_at ctx retryConfig attempt = Some err ->
  retry_turn ctx retryConfig fn attempt
  = (Return (None, Some err),
     [EvBackoff attempt (ExponentialBackoff retryConfig attempt)]).
Proof.
  unfold cancelled_at, retry_turn.
  destruct (0 <? attempt); [| discriminate].
  cbv zeta. now intros ->.
Qed.

Lemma retry_turn_invoked (attempt : Z) :
  cancelled_at ctx retryConfig attempt = None ->
  invocations (snd (retry_turn ctx retryConfig fn attempt))
  = [Z.to_nat attempt] /\
  fst (retry_turn ctx retryConfig fn attempt)
  = if retryable (fn (Z.to_nat attempt))
    then Continue (recorded_error (fn (Z.to_nat attempt)))
    else Return (fn (Z.to_nat attempt)).
Proof.
  unfold cancelled_at, retry_turn. cbv zeta.
  destruct (0 <? attempt).
  - intros ->.
    destruct (fn (Z.to_nat attempt)) as [[rsp|] [e|]]; simpl;
      try (split; reflexivity).
    destruct (IsRetryableError (StatusCode rsp)); split; reflexivity.
  - intros _.
    destruct (fn (Z.to_nat attempt)) as [[rsp|] [e|]]; simpl;
      try (split; reflexivity).
    destruct (IsRetryableError (StatusCode rsp)); split; reflexivity.
Qed.

End RetryLoop.

Section RetryLoopSpec.
Context `{F : Float64}.
Variable ctx : Z -> Z -> option error.
Variable retryConfig : RetryConfig.
Variable fn : nat -> RoundTrip.

Lemma invocations_app (tr tr' : list Event) :
  invocations (tr ++ tr') = invocations tr ++ invocations tr'.
Proof. apply omap_app. Qed.

Lemma retry_loop_spec (n : nat) :
  forall (attempt : Z) (lastErr : option error),
  0 <= attempt ->
  let res := retry_loop ctx retryConfig fn n attempt lastErr in
  let m := length (invocations (snd res)) in
  let a0 := Z.to_nat attempt in
  invocations (snd res) = seq a0 m /\
  (m <= n)%nat /\
  (forall k, (a0 <= k < a0 + m)%nat ->
             cancelled_at ctx retryConfig (Z.of_nat k) = None) /\
  (forall k, (a0 <= k)%nat -> (S k < a0 + m)%nat -> retryable (fn k) = true) /\
  loop_end ctx retryConfig fn n a0 m lastErr (fst res).
Proof.
  induction n as [|n' IH]; intros attempt lastErr Ha; cbv zeta.
  - simpl. refine (conj _ (conj _ (conj _ (conj _ _)))); try lia.
    + reflexivity.
    + right. left. split; [reflexivity |]. split; [intros k Hk; lia | reflexivity].
  - simpl retry_loop.
    destruct (cancelled_at ctx retryConfig attempt) as [err|] eqn:Hc.
    + rewrite (retry_turn_cancelled ctx retryConfig fn attempt err Hc). simpl.
      refine (conj _ (conj _ (conj _ (conj _ _)))); try lia.
      * reflexivity.
      * right. right. split; [lia |]. split; [intros k Hk; lia |]. exists err.
        rewrite Nat.add_0_r, Z2Nat.id by exact Ha. now split.
    + destruct (retry_turn_invoked ctx retryConfig fn attempt Hc) as [Hinv Hturn].
      destruct (retry_turn ctx retryConfig fn attempt) as [turn tr] eqn:Ht.
      simpl in Hinv, Hturn.
      destruct (retryable (fn (Z.to_nat attempt))) eqn:Hr; subst turn.
      * specialize (IH (attempt + 1) (recorded_error (fn (Z.to_nat attempt)))
                       ltac:(lia)).
        cbv zeta in IH.
        destruct (retry_loop ctx retryConfig fn n' (attempt + 1)
                    (recorded_error (fn (Z.to_nat attempt)))) as [r tr'] eqn:Hl.
        simpl in IH |- *.
        replace (Z.to_nat (attempt + 1)) with (S (Z.to_nat attempt)) in IH
          by lia.
        destruct IH as (Hseq & Hle & Hlive & Hretry & Hend).
        rewrite invocations_app, Hinv, Hseq. simpl.
        rewrite length_seq.
        set (m' := length (invocations tr')) in *.
        refine (conj _ (conj _ (conj _ (conj _ _)))).
        -- reflexivity.
        -- lia.
        -- intros k Hk. destruct (decide (k = Z.to_nat attempt)) as [->|Hne].
           ++ rewrite Z2Nat.id by exact Ha. exact Hc.
           ++ apply Hlive. lia.
        -- intros k Hk1 Hk2.
           destruct (decide (k = Z.to_nat attempt)) as [->|Hne];
             [exact Hr | apply Hretry; lia].
        -- assert (Hall : (forall k, (S (Z.to_nat attempt) <= k
                                         < S (Z.to_nat attempt) + m')%nat ->
                                        retryable (fn k) = true) ->
                            forall k, (Z.to_nat attempt <= k
                                       < Z.to_nat attempt + S m')%nat ->
                                      retryable (fn k) = true).
           { intros Hrest k Hk.
             destruct (decide (k = Z.to_nat attempt)) as [->|Hne];
               [exact Hr | apply Hrest; lia]. }
           destruct Hend as [(k & Hk & Hak & Hnr & ->)
                            | [(Hm & Hrest & ->) | (Hm & Hrest & err & Hcan & ->)]].
           ++ left. exists k. repeat split; try lia. exact Hnr.
           ++ right. left. split; [lia |]. split; [exact (Hall Hrest) |].
              f_equal.
              unfold last_recorded. destruct m' as [|j]; simpl.
              ** now rewrite Nat.add_0_r.
              ** do 2 f_equal. lia.
           ++ right. right. split; [lia |]. split; [exact (Hall Hrest) |].
              exists err. split; [| reflexivity].
              rewrite <- Hcan. f_equal. lia.
      * simpl. rewrite Hinv. simpl.
        refine (conj _ (conj _ (conj _ (conj _ _)))); try lia.
        -- reflexivity.
        -- intros k Hk. replace k with (Z.to_nat attempt) by lia.
           rewrite Z2Nat.id by exact Ha. exact Hc.
        -- left. exists (Z.to_nat attempt). repeat split; try lia. exact Hr.
Qed.

End RetryLoopSpec.

Section RetryClaims.
Context `{F : Float64}.
Variable ctx : Z -> Z -> option error.
Variable retryConfig : option RetryConfig.
Variable fn : nat -> RoundTrip.

(** [WithRetry] is the loop started at attempt zero, with one turn more
    than the number of retries. *)
Lemma WithRetry_spec :
  invocations (snd (WithRetry ctx retryConfig fn))
  = seq 0 (attempts_made ctx retryConfig fn) /\
  (attempts_made ctx retryConfig fn <= Z.to_nat (budget retryConfig + 1))%nat /\
  (forall k, (k < attempts_made ctx retryConfig fn)%nat ->
     cancelled_at ctx (default DefaultRetryConfig retryConfig) (Z.of_nat k)
     = None) /\
  (forall k, (S k < attempts_made ctx retryConfig fn)%nat ->
     retryable (fn k) = true) /\
  loop_end ctx (default DefaultRetryConfig retryConfig) fn
           (Z.to_nat (budget retryConfig + 1)) 0
           (attempts_made ctx retryConfig fn) None
           (fst (WithRetry ctx retryConfig fn)).
Proof.
  destruct (retry_loop_spec ctx (default DefaultRetryConfig retryConfig) fn
              (Z.to_nat (budget retryConfig + 1)) 0 None ltac:(lia))
    as (Hseq & Hle & Hlive & Hretry & Hend).
  refine (conj Hseq (conj Hle (conj _ (conj _ Hend)))).
  - intros k Hk. apply Hlive. split; [apply Nat.le_0_l | exact Hk].
  - intros k Hk. apply Hretry; [apply Nat.le_0_l | exact Hk].
Qed.

(** The first attempt is made whenever the configuration allows one. *)
Lemma WithRetry_first_invocation :
  0 <= budget retryConfig -> (0 < attempts_made ctx retryConfig fn)%nat.
Proof.
  intros HM. unfold attempts_made, WithRetry. fold (budget retryConfig).
  destruct (Z.to_nat (budget retryConfig + 1)) as [|n'] eqn:Hn; [lia |].
  simpl retry_loop.
  destruct (retry_turn_invoked ctx (default DefaultRetryConfig retryConfig) fn 0
              eq_refl) as [Hinv _].
  destruct (retry_turn ctx (default DefaultRetryConfig retryConfig) fn 0)
    as [[r|e] tr]; simpl in Hinv.
  - simpl. rewrite Hinv. simpl. lia.
  - destruct (retry_loop ctx (default DefaultRetryConfig retryConfig) fn n'
                (0 + 1) e) as [r tr'].
    simpl. rewrite invocations_app, Hinv. simpl. lia.
Qed.

(** A call that made fewer invocations than it could, all of them with a
    retried outcome, was cancelled during the next wait and returns the
    context's error. *)
Lemma WithRetry_cancelled :
  (attempts_made ctx retryConfig fn < Z.to_nat (budget retryConfig + 1))%nat ->
  (forall k, (k < attempts_made ctx retryConfig fn)%nat ->
     retryable (fn k) = true) ->
  exists err,
    cancelled_at ctx (default DefaultRetryConfig retryConfig)
                 (Z.of_nat (attempts_made ctx retryConfig fn)) = Some err /\
    fst (WithRetry ctx retryConfig fn) = (None, Some err).
Proof.
  intros Hn Hall.
  destruct WithRetry_spec as (_ & _ & _ & _ & Hend).
  destruct Hend as [(k & Hk & _ & Hnr & _) | [(Hm & _) | (_ & _ & Hc)]].
  - rewrite Hall in Hnr by lia. discriminate.
  - lia.
  - exact Hc.
Qed.

Lemma WithRetry_again (k : nat) :
  (k < attempts_made ctx retryConfig fn)%nat ->
  ((S k < attempts_made ctx retryConfig fn)%nat <->
   retryable (fn k) = true /\ Z.of_nat (S k) <= budget retryConfig /\
   cancelled_at ctx (default DefaultRetryConfig retryConfig) (Z.of_nat (S k))
   = None).
Proof.
  intros Hk.
  destruct WithRetry_spec as (_ & Hle & Hlive & Hretry & Hend).
  split.
  - intros HS. split; [now apply Hretry |]. split; [lia | now apply Hlive].
  - intros (Hr & HM & Hgo).
    destruct (decide (S k < attempts_made ctx retryConfig fn)%nat)
      as [|Hlast]; [assumption | exfalso].
    assert (Hn : attempts_made ctx retryConfig fn = S k) by lia.
    destruct Hend as [(k' & Hk' & _ & Hnr & _)
                     | [(Hm & _) | (_ & _ & err & Hc & _)]].
    + replace k' with k in Hnr by lia. rewrite Hr in Hnr. discriminate.
    + lia.
    + simpl in Hc. rewrite Hn, Hgo in Hc. discriminate.
Qed.

Lemma WithRetry_stops (k : nat) :
  (k < attempts_made ctx retryConfig fn)%nat ->
  retryable (fn k) = false ->
  fst (WithRetry ctx retryConfig fn) = fn k /\
  attempts_made ctx retryConfig fn = S k.
Proof.
  intros Hk Hnr.
  destruct WithRetry_spec as (_ & _ & _ & Hretry & Hend).
  assert (Hn : attempts_made ctx retryConfig fn = S k).
  { destruct (decide (S k < attempts_made ctx retryConfig fn)%nat)
      as [HS|]; [| lia].
    rewrite (Hretry k HS) in Hnr. discriminate. }
  split; [| exact Hn].
  destruct Hend as [(k' & Hk' & _ & _ & ->)
                   | [(_ & Hall & _) | (_ & Hall & _)]].
  - f_equal. lia.
  - rewrite Hall in Hnr by lia. discriminate.
  - rewrite Hall in Hnr by lia. discriminate.
Qed.

Lemma WithRetry_exhausted :
  attempts_made ctx retryConfig fn = Z.to_nat (budget retryConfig + 1) ->
  (forall k, (k < attempts_made ctx retryConfig fn)%nat ->
     retryable (fn k) = true) ->
  fst (WithRetry ctx retryConfig fn)
  = (None, last_recorded fn None 0 (attempts_made ctx retryConfig fn)).
Proof.
  intros Hn Hall.
  destruct WithRetry_spec as (_ & _ & _ & _ & Hend).
  destruct Hend as [(k & Hk & _ & Hnr & _)
                   | [(_ & _ & ->) | (Hlt & _)]].
  - rewrite Hall in Hnr by lia. discriminate.
  - reflexivity.
  - lia.
Qed.

End RetryClaims.

(** C2, as the code has it.  With [M] the configured number of retries,
    [WithRetry] invokes the action at most [M + 1] times, one invocation
    after the other.  After an invocation it invokes the action again
    exactly when that invocation returned a transport error or a response
    with status 429, 500, 502, 503 or 504, fewer than [M + 1] invocations
    were made, and the context is not cancelled during the wait that
    follows.  On the first invocation with any other outcome it returns what
    the action returned, response and nil error, and stops.  When all
    [M + 1] invocations ended in a retried outcome it returns no response
    and the error recorded last; when a wait is cancelled it returns no
    response and the error of the context. *)
Theorem WithRetry_invocations `{F : Float64} (ctx : Z -> Z -> option error)
    (retryConfig : option RetryConfig) (fn : nat -> RoundTrip) :
  let M := budget retryConfig in
  let res := WithRetry ctx retryConfig fn in
  let n := attempts_made ctx retryConfig fn in
  let wait k := cancelled_at ctx (default DefaultRetryConfig retryConfig)
                             (Z.of_nat k) in
  invocations (snd res) = seq 0 n /\
  (n <= Z.to_nat (M + 1))%nat /\
  (0 <= M -> (0 < n)%nat) /\
  (forall k, (k < n)%nat ->
     ((S k < n)%nat <->
      spec_retryable (fn k) /\ Z.of_nat (S k) <= M /\ wait (S k) = None)) /\
  (forall k, (k < n)%nat -> ~ spec_retryable (fn k) ->
     fst res = fn k /\ n = S k) /\
  (n = Z.to_nat (M + 1) ->
   (forall k, (k < n)%nat -> spec_retryable (fn k)) ->
   fst res = (None, last_recorded fn None 0 n)) /\
  ((n < Z.to_nat (M + 1))%nat ->
   (forall k, (k < n)%nat -> spec_retryable (fn k)) ->
   exists err, wait n = Some err /\ fst res = (None, Some err)).
Proof.
  intros M res n wait.
  refine (conj _ (conj _ (conj _ (conj _ (conj _ (conj _ _)))))).
  - apply (WithRetry_spec ctx retryConfig fn).
  - apply (WithRetry_spec ctx retryConfig fn).
  - apply WithRetry_first_invocation.
  - intros k Hk. rewrite <- retryable_spec.
    now apply WithRetry_again.
  - intros k Hk Hnr. apply WithRetry_stops; [exact Hk |].
    destruct (retryable (fn k)) eqn:Hr; [| reflexivity].
    exfalso. apply Hnr. now apply retryable_spec.
  - intros Hn Hall. apply WithRetry_exhausted; [exact Hn |].
    intros k Hk. apply retryable_spec. now apply Hall.
  - intros Hn Hall. apply WithRetry_cancelled; [exact Hn |].
    intros k Hk. apply retryable_spec. now apply Hall.
Qed.

Lemma WithRetry_invocations_witness :
  (attempts_made live_ctx None flaky_action <= Z.to_nat (3 + 1))%nat /\
  fst (WithRetry live_ctx None flaky_action) = flaky_action 2.
Proof.
  pose proof (WithRetry_invocations live_ctx None flaky_action) as H.
  cbv zeta in H. destruct H as (_ & Hle & _ & _ & Hstop & _).
  split; [exact Hle |].
  apply (Hstop 2%nat).
  - vm_compute. lia.
  - intros [Herr | (rsp & Hrsp & Hin)].
    + now apply Herr.
    + injection Hrsp as <-. simpl in Hin.
      repeat (destruct Hin as [Hin | Hin]; [discriminate Hin |]). exact Hin.
Defined.

(** C2, as stated, fails: the first invocation is answered with 503 and
    three retries are left, yet the action is not invoked again, because the
    context is cancelled during the wait. *)
Lemma WithRetry_cancelled_no_retry :
  spec_retryable (busy_action 0) /\
  budget None = 3 /\
  invocations (snd (WithRetry cancelled_ctx None busy_action)) = [0%nat] /\
  fst (WithRetry cancelled_ctx None busy_action)
  = (None, Some (foreignError "context canceled")).
Proof.
  split; [| repeat split].
  right. eexists. split; [reflexivity |]. simpl. tauto.
Qed.

(** Two transient failures, then an answer that is passed on as it is. *)
Example WithRetry_flaky :
  WithRetry live_ctx None flaky_action
  = ((Some (http_status 404 "404 Not Found"), None),
     [EvAction 0; EvCloseBody 0; EvBackoff 1 (1 * Second);
      EvAction 1; EvCloseBody 1; EvBackoff 2 (2 * Second);
      EvAction 2]).
Proof. reflexivity. Qed.

(** Four attempts, all refused: the marker of the last one comes back. *)
Example WithRetry_busy :
  fst (WithRetry live_ctx None busy_action)
  = (None, recorded_error (busy_action 3)) /\
  invocations (snd (WithRetry live_ctx None busy_action)) = [0; 1; 2; 3]%nat.
Proof. split; reflexivity. Qed.

(** A cancellation during the first wait ends the call after one
    invocation, with the context's error. *)
Example WithRetry_busy_cancelled :
  WithRetry cancelled_ctx None busy_action
  = ((None, Some (foreignError "context canceled")),
     [EvAction 0; EvCloseBody 0; EvBackoff 1 (1 * Second)]).
Proof. reflexivity. Qed.

(** ** Publishing *)

Section Publish.
Context `{F : Float64}.

Lemma expand_cons (m : Message) (msgs : list Message) :
  expand (m :: msgs) = replicate (length (msg_To m)) m ++ expand msgs.
Proof.
  unfold expand. simpl. f_equal.
  induction (msg_To m) as [|t to IH]; simpl; [reflexivity | now rewrite IH].
Qed.

Lemma expand_app (pre post : list Message) :
  expand (pre ++ post) = expand pre ++ expand post.
Proof. unfold expand. apply flat_map_app. Qed.

(** The expansion has [r1 + ... + rN] entries. *)
Lemma expand_length (msgs : list Message) :
  length (expand msgs) = sum_list (map (fun m => length (msg_To m)) msgs).
Proof.
  induction msgs as [|m msgs IH]; [reflexivity |].
  rewrite expand_cons, length_app, length_replicate, IH. reflexivity.
Qed.

(** The entries that one message contributes sit together, after those of
    the messages before it, and all are that message. *)
Lemma expand_lookup (pre post : list Message) (m : Message) (j : nat) :
  (j < length (msg_To m))%nat ->
  expand (pre ++ m :: post) !! (length (expand pre) + j)%nat = Some m.
Proof.
  intros Hj. rewrite expand_app, lookup_app_r by lia.
  replace (length (expand pre) + j - length (expand pre))%nat with j by lia.
  rewrite expand_cons, lookup_app_l by (rewrite length_replicate; lia).
  now apply lookup_replicate_2.
Qed.

(** The assignment loop: what it returns, when it returns. *)
Lemma assign_returns (data : list (option MessageResponse)) :
  forall (ems : list Message) (tickets : list MessageResponse),
  assign data ems = Returns tickets ->
  length tickets = length data /\
  forall i t, tickets !! i = Some t ->
    exists t0 m, data !! i = Some (Some t0) /\ ems !! i = Some m /\
                 t = set_MessageItem t0 m.
Proof.
  induction data as [|[t0|] data IH]; intros ems tickets; simpl.
  - intros [= <-]. split; [reflexivity |]. intros i t Hi. discriminate Hi.
  - destruct ems as [|m ms]; [discriminate |].
    destruct (assign data ms) as [ts|why] eqn:Hrec; [| discriminate].
    intros [= <-]. destruct (IH ms ts Hrec) as [Hlen Hall].
    split; [simpl; now rewrite Hlen |].
    intros [|i] t Hi; simpl in Hi.
    + injection Hi as <-. exists t0, m. auto.
    + apply Hall. exact Hi.
  - discriminate.
Qed.

(** The loop returns when every entry is a ticket and the expansion is as
    long as the array. *)
Lemma assign_total (data : list (option MessageResponse)) :
  forall ems : list Message,
  Forall is_Some data -> length data = length ems ->
  exists tickets, assign data ems = Returns tickets.
Proof.
  induction data as [|d data IH]; intros ems Hall Hlen; simpl.
  - now exists [].
  - apply Forall_cons in Hall as [[t0 ->] Hall].
    destruct ems as [|m ms]; [discriminate Hlen |].
    destruct (IH ms Hall) as [ts ->]; [simpl in Hlen; lia |].
    now exists (set_MessageItem t0 m :: ts).
Qed.

(** It panics on the first [nil] entry. *)
Lemma assign_nil_entry (data : list (option MessageResponse))
    (ems : list Message) :
  length data = length ems -> ~ Forall is_Some data ->
  exists why, assign data ems = Panics why.
Proof.
  revert ems. induction data as [|[t0|] data IH]; intros ems Hlen Hnot; simpl.
  - exfalso. apply Hnot. constructor.
  - destruct ems as [|m ms]; [discriminate Hlen |].
    destruct (IH ms) as [why ->]; [simpl in Hlen; lia | | now exists why].
    intros Hall. apply Hnot. constructor; [now exists t0 | exact Hall].
  - now eexists.
Qed.

Variable w : World.
Variable c : Client.
Variable msgs : list Message.

(** A batch that fails validation is answered on the spot. *)
Lemma publish_invalid (err : error) :
  validate_messages msgs = Some err ->
  publish w c msgs = (Returns (None, Some err), []).
Proof. intros Hv. unfold publish. now rewrite Hv. Qed.

(** A valid batch within the limit is answered from the reply that the
    retry loop hands over. *)
Lemma publish_reply_of (rsp : HttpResponse) (tr : list Event) :
  validate_messages msgs = None ->
  (length msgs <= maxNotificationsPerRequest)%nat ->
  WithRetry (ctx_backoff w) (RetryConfig_ (cnf c))
            (fun k => send w k (send_request c msgs)) = ((Some rsp, None), tr) ->
  publish w c msgs = (publish_reply msgs rsp, tr).
Proof.
  intros Hv Hlen Hr. unfold publish. rewrite Hv.
  destruct (Nat.ltb_spec maxNotificationsPerRequest (length msgs)); [lia |].
  now rewrite Hr.
Qed.

(** What a successful publish went through. *)
Lemma publish_success (tickets : list MessageResponse) (tr : list Event) :
  publish w c msgs = (Returns (Some tickets, None), tr) ->
  validate_messages msgs = None /\
  exists rsp r data,
    WithRetry (ctx_backoff w) (RetryConfig_ (cnf c))
              (fun k => send w k (send_request c msgs)) = ((Some rsp, None), tr) /\
    as_Response (RespBody rsp) = DecodeOk (Some r) /\
    rsp_Errors r = None /\ rsp_Data r = Some data /\
    length (expand msgs) = length data /\
    assign data (expand msgs) = Returns tickets.
Proof.
  unfold publish.
  destruct (validate_messages msgs) as [err|]; [intros [=] |].
  destruct (maxNotificationsPerRequest <? length msgs)%nat; [intros [=] |].
  destruct (WithRetry _ _ _) as [[resp err] tr0].
  destruct err as [e|]; [intros [=] |].
  destruct resp as [rsp|]; [| intros [=]].
  unfold publish_reply.
  destruct (checkStatus rsp); [intros [=] |].
  destruct (as_Response (RespBody rsp)) as [e|[r|]] eqn:Hdec;
    [intros [=] | | intros [=]].
  destruct (rsp_Errors r) eqn:Herrs; [intros [=] |].
  destruct (rsp_Data r) as [data|] eqn:Hdata; [| intros [=]].
  destruct (Nat.eqb_spec (length (expand msgs)) (length data)) as [Hlen|];
    simpl; [| intros [=]].
  destruct (assign data (expand msgs)) as [ts|why] eqn:Hassign;
    intros [= <- <-].
  split; [reflexivity |]. exists rsp, r, data.
  repeat split; assumption || reflexivity.
Qed.

End Publish.

(** *** Validation *)

Lemma validate_recipients_error (to : list (option Token)) (err : error) :
  validate_recipients to = Some err -> err = errorString "invalid push token".
Proof.
  induction to as [|[s|] to IH]; simpl.
  - discriminate.
  - destruct (bool_decide (s = "")); [now intros [= <-] | exact IH].
  - now intros [= <-].
Qed.

Lemma validate_recipients_rejects (to : list (option Token)) :
  (exists recipient, recipient ∈ to /\ nil_or_empty recipient) ->
  validate_recipients to = Some (errorString "invalid push token").
Proof.
  intros (recipient & Hin & Hbad).
  induction to as [|[s|] to IH]; simpl.
  - inversion Hin.
  - destruct (bool_decide_reflect (s = "")) as [|Hne]; [reflexivity |].
    apply IH. apply elem_of_cons in Hin as [-> | Hin]; [| exact Hin].
    destruct Hbad as [[=] | [= ->]]. contradiction.
  - reflexivity.
Qed.

Lemma validate_recipients_accepts (to : list (option Token)) :
  validate_recipients to = None ->
  forall recipient, recipient ∈ to -> ~ nil_or_empty recipient.
Proof.
  intros Hv recipient Hin Hbad.
  rewrite validate_recipients_rejects in Hv; [discriminate |].
  now exists recipient.
Qed.

Lemma validate_messages_error (msgs : list Message) (err : error) :
  validate_messages msgs = Some err ->
  err = errorString "invalid push token" \/ err = errorString "no recipients".
Proof.
  induction msgs as [|m msgs IH]; simpl; [discriminate |].
  destruct (length (msg_To m) =? 0)%nat; [intros [= <-]; now right |].
  destruct (validate_recipients (msg_To m)) as [e|] eqn:Hr; [| exact IH].
  intros [= <-]. left. now apply validate_recipients_error in Hr.
Qed.

Lemma validate_messages_rejects (msgs : list Message) :
  (exists m recipient,
     m ∈ msgs /\ recipient ∈ msg_To m /\ nil_or_empty recipient) ->
  exists err, validate_messages msgs = Some err.
Proof.
  intros (m & recipient & Hm & Hin & Hbad).
  induction msgs as [|m' msgs IH]; simpl; [inversion Hm |].
  destruct (length (msg_To m') =? 0)%nat; [now eexists |].
  destruct (validate_recipients (msg_To m')) as [e|] eqn:Hr; [now eexists |].
  apply IH. apply elem_of_cons in Hm as [-> | Hm]; [| exact Hm].
  exfalso. now apply (validate_recipients_accepts _ Hr recipient Hin).
Qed.

(** The first offending message decides which of the two errors it is. *)
Lemma validate_messages_invalid_token (pre post : list Message) (m : Message) :
  Forall (fun m' => msg_To m' <> []) pre ->
  (exists recipient, recipient ∈ msg_To m /\ nil_or_empty recipient) ->
  validate_messages (pre ++ m :: post)
  = Some (errorString "invalid push token").
Proof.
  intros Hpre Hbad. induction Hpre as [|m' pre Hne Hpre IH]; simpl.
  - destruct (msg_To m) as [|t to] eqn:Hto.
    + destruct Hbad as (recipient & Hin & _). inversion Hin.
    + simpl length. simpl Nat.eqb. cbv iota.
      now rewrite (validate_recipients_rejects (t :: to) Hbad).
  - destruct (msg_To m') as [|t to] eqn:Hto; [contradiction |].
    simpl length. simpl Nat.eqb. cbv iota.
    destruct (validate_recipients (t :: to)) as [e|] eqn:Hr; [| exact IH].
    now apply validate_recipients_error in Hr as ->.
Qed.

Lemma validate_messages_no_recipients (pre post : list Message) (m : Message) :
  validate_messages pre = None -> msg_To m = [] ->
  validate_messages (pre ++ m :: post) = Some (errorString "no recipients").
Proof.
  intros Hpre Hto. induction pre as [|m' pre IH]; simpl in *.
  - now rewrite Hto.
  - destruct (length (msg_To m') =? 0)%nat; [discriminate |].
    destruct (validate_recipients (msg_To m')); [discriminate | now apply IH].
Qed.

(** *** The length contract *)

(** C1, as the code has it.  Take a batch that validation accepts, with
    recipient counts [r1 .. rN], and a decoded reply.  The expansion has
    [r1 + ... + rN] entries.  If the ticket array of the reply has another
    length, [publish] returns an error and no tickets, never a part of
    them; when the reply is of the data shape (no errors member, a ticket
    array) this error is the server-contract error whose message reports both
    counts.  If the array of such a reply has the length of the expansion,
    its entries being tickets, [publish] returns one ticket per entry of the
    expansion, in the order of the expansion. *)
Theorem publish_ticket_count `{F : Float64} (w : World) (c : Client)
    (msgs : list Message) (rsp : HttpResponse) (r : Response)
    (tr : list Event) :
  validate_messages msgs = None ->
  (length msgs <= maxNotificationsPerRequest)%nat ->
  WithRetry (ctx_backoff w) (RetryConfig_ (cnf c))
            (fun k => send w k (send_request c msgs)) = ((Some rsp, None), tr) ->
  checkStatus rsp = None ->
  as_Response (RespBody rsp) = DecodeOk (Some r) ->
  length (expand msgs) = sum_list (map (fun m => length (msg_To m)) msgs) /\
  (length (default [] (rsp_Data r)) <> length (expand msgs) ->
   exists err, publish w c msgs = (Returns (None, Some err), tr)) /\
  (forall data, rsp_Errors r = None -> rsp_Data r = Some data ->
   (length data <> length (expand msgs) ->
    publish w c msgs
    = (Returns (None,
                Some (NewServerError
                        (mismatch_message (length (expand msgs)) (length data))
                        (Some rsp) (Some r) None)), tr)) /\
   (length data = length (expand msgs) -> Forall is_Some data ->
    exists tickets,
      publish w c msgs = (Returns (Some tickets, None), tr) /\
      length tickets = length (expand msgs) /\
      forall i t, tickets !! i = Some t ->
        exists t0 m, data !! i = Some (Some t0) /\ expand msgs !! i = Some m /\
                     t = set_MessageItem t0 m)).
Proof.
  intros Hv Hsize Hretry Hstatus Hdec.
  rewrite (publish_reply_of w c msgs rsp tr Hv Hsize Hretry).
  unfold publish_reply. rewrite Hstatus, Hdec.
  split; [apply expand_length |]. split.
  - intros Hne. destruct (rsp_Errors r); [now eexists |].
    destruct (rsp_Data r) as [data|]; [| now eexists].
    simpl in Hne.
    destruct (Nat.eqb_spec (length (expand msgs)) (length data));
      [congruence | now eexists].
  - intros data Herrs Hdata. rewrite Herrs, Hdata. split.
    + intros Hne.
      destruct (Nat.eqb_spec (length (expand msgs)) (length data));
        [congruence | reflexivity].
    + intros Heq Hall.
      destruct (Nat.eqb_spec (length (expand msgs)) (length data));
        [| congruence]. simpl.
      destruct (assign_total data (expand msgs) Hall Heq) as [tickets Ha].
      rewrite Ha. exists tickets. split; [reflexivity |].
      destruct (assign_returns data (expand msgs) tickets Ha) as [Hlen Hpos].
      split; [congruence | exact Hpos].
Qed.

Lemma publish_ticket_count_witness :
  publish (replying (Some one_ticket)) sample_client [two_tokens_message]
  = (Returns (None,
       Some (NewServerError
         "mismatched response length. Expected 2 receipts but only received 1"
         (Some (http_ok (reply_body (Some one_ticket))))
         (Some one_ticket) None)), [EvAction 0]).
Proof.
  refine (proj1 (proj2 (proj2 (publish_ticket_count
    (replying (Some one_ticket)) sample_client [two_tokens_message]
    (http_ok (reply_body (Some one_ticket))) one_ticket [EvAction 0]
    _ _ _ _ _)) [Some (ticket "id-1" "ok" "")] eq_refl eq_refl) _);
    try reflexivity.
  - vm_compute. lia.
  - vm_compute. lia.
Defined.

(** The message of the mismatch names both counts: it determines them. *)
Lemma pretty_N_go_no_blank (x : N) :
  forall s, no_blank s -> no_blank (pretty_N_go x s).
Proof.
  induction (N.lt_wf_0 x) as [x _ IH]. intros s Hs.
  destruct (decide (x = 0)%N) as [-> | Hx].
  - now rewrite pretty_N_go_0.
  - rewrite pretty_N_go_step by lia. apply IH.
    + apply N.div_lt; lia.
    + split; [| exact Hs].
      unfold pretty_N_char. repeat case_match; discriminate.
Qed.

Lemma pretty_nat_no_blank (n : nat) : no_blank (pretty n).
Proof.
  unfold pretty, pretty_nat, pretty, pretty_N.
  destruct (decide (N.of_nat n = 0%N)).
  - simpl. split; [discriminate | exact I].
  - now apply pretty_N_go_no_blank.
Qed.

Lemma no_blank_app_inj (u u' x x' : string) :
  no_blank u -> no_blank u' ->
  u +:+ String " " x = u' +:+ String " " x' -> u = u' /\ x = x'.
Proof.
  revert u'. induction u as [|ch u IH]; intros [|ch' u'] Hu Hu'; simpl.
  - now intros [= ->].
  - intros [= <- _]. now destruct Hu' as [Hch' _].
  - intros [= -> _]. now destruct Hu as [Hch _].
  - intros [= <- Heq]. destruct Hu as [_ Hu], Hu' as [_ Hu'].
    destruct (IH u' Hu Hu' Heq) as [-> ->]. now split.
Qed.

Lemma mismatch_message_inj (expected received expected' received' : nat) :
  mismatch_message expected received = mismatch_message expected' received' ->
  expected = expected' /\ received = received'.
Proof.
  unfold mismatch_message. intros Heq.
  apply (inj (String.app _)) in Heq.
  apply (no_blank_app_inj (pretty expected) (pretty expected')) in Heq
    as [He Hr]; try apply pretty_nat_no_blank.
  apply (inj pretty) in He.
  apply (inj (String.app "receipts but only received ")) in Hr.
  apply (inj pretty) in Hr. now split.
Qed.

(** The earlier guards of [publish] come first: a reply with an errors
    member is an invalid request whatever its ticket array, and a reply
    without a ticket array is an invalid server response. *)
Lemma publish_reply_errors_member `{F : Float64} (msgs : list Message)
    (rsp : HttpResponse) (r : Response) (errs : list (gmap string string)) :
  checkStatus rsp = None ->
  as_Response (RespBody rsp) = DecodeOk (Some r) ->
  rsp_Errors r = Some errs ->
  publish_reply msgs rsp = Returns (None, Some (errorString "invalid request")).
Proof. intros Hs Hd He. unfold publish_reply. now rewrite Hs, Hd, He. Qed.

Lemma publish_reply_no_data `{F : Float64} (msgs : list Message)
    (rsp : HttpResponse) (r : Response) :
  checkStatus rsp = None ->
  as_Response (RespBody rsp) = DecodeOk (Some r) ->
  rsp_Errors r = None -> rsp_Data r = None ->
  publish_reply msgs rsp
  = Returns (None, Some (NewServerError "invalid server response"
                           (Some rsp) (Some r) None)).
Proof.
  intros Hs Hd He Hn. unfold publish_reply. now rewrite Hs, Hd, He, Hn.
Qed.

(** C1, as stated, fails: when the reply carries an errors member next
    to its ticket array, the error is the invalid-request error, which
    reports no counts, and an array of the right length is not returned. *)
Lemma publish_errors_member_first :
  rsp_Data tickets_and_errors = Some [Some (ticket "id-1" "ok" "")] /\
  length (expand [two_tokens_message]) = 2%nat /\
  publish (replying (Some tickets_and_errors)) sample_client
          [two_tokens_message]
  = (Returns (None, Some (errorString "invalid request")), [EvAction 0]) /\
  length (expand [one_token_message]) = 1%nat /\
  publish (replying (Some tickets_and_errors)) sample_client
          [one_token_message]
  = (Returns (None, Some (errorString "invalid request")), [EvAction 0]).
Proof. repeat split. Qed.

(** *** Pairing by position *)

(** C4. On a successful publish the ticket at index [i] carries the
    message that produced the [i]-th entry of the expansion: the tickets of
    one message sit together, in the order of the batch, after those of the
    messages before it.  One message addressed to two tokens comes back as
    two tickets that both carry that message. *)
Theorem publish_pairs_by_position `{F : Float64} (w : World) (c : Client)
    (msgs : list Message) (tickets : list MessageResponse) (tr : list Event) :
  publish w c msgs = (Returns (Some tickets, None), tr) ->
  length tickets = length (expand msgs) /\
  (forall i t, tickets !! i = Some t ->
     exists m, expand msgs !! i = Some m /\ tk_MessageItem t = Some m) /\
  (forall pre m post j,
     msgs = pre ++ m :: post -> (j < length (msg_To m))%nat ->
     exists t, tickets !! (length (expand pre) + j)%nat = Some t /\
               tk_MessageItem t = Some m) /\
  (forall m a b, msgs = [m] -> msg_To m = [a; b] ->
     exists t1 t2, tickets = [t1; t2] /\
                   tk_MessageItem t1 = Some m /\ tk_MessageItem t2 = Some m).
Proof.
  intros Hp.
  destruct (publish_success w c msgs tickets tr Hp)
    as (_ & rsp & r & data & _ & _ & _ & _ & Hlen & Ha).
  destruct (assign_returns data (expand msgs) tickets Ha) as [Hlt Hpos].
  assert (Hitem : forall i t, tickets !! i = Some t ->
            exists m, expand msgs !! i = Some m /\ tk_MessageItem t = Some m).
  { intros i t Hi. destruct (Hpos i t Hi) as (t0 & m & _ & Hm & ->).
    exists m. now split. }
  assert (Hgroup : forall pre m post j,
            msgs = pre ++ m :: post -> (j < length (msg_To m))%nat ->
            exists t, tickets !! (length (expand pre) + j)%nat = Some t /\
                      tk_MessageItem t = Some m).
  { intros pre m post j -> Hj.
    pose proof (expand_lookup pre post m j Hj) as Hm.
    destruct (lookup_lt_is_Some_2 tickets (length (expand pre) + j)%nat)
      as [t Ht].
    { rewrite Hlt, <- Hlen. now apply lookup_lt_Some in Hm. }
    exists t. split; [exact Ht |].
    destruct (Hitem _ t Ht) as (m' & Hm' & ->). congruence. }
  refine (conj _ (conj Hitem (conj Hgroup _))); [congruence |].
  intros m a b -> Hto.
  assert (Hlen2 : length tickets = 2%nat).
  { rewrite Hlt, <- Hlen, expand_length. simpl. now rewrite Hto. }
  destruct tickets as [|t1 [|t2 [|t3 ts]]]; try discriminate Hlen2.
  exists t1, t2. split; [reflexivity |].
  destruct (Hgroup [] m [] 0%nat eq_refl) as (t & Ht & Hm1);
    [rewrite Hto; simpl; lia |].
  destruct (Hgroup [] m [] 1%nat eq_refl) as (t' & Ht' & Hm2);
    [rewrite Hto; simpl; lia |].
  simpl in Ht, Ht'. injection Ht as <-. injection Ht' as <-. now split.
Qed.

Lemma publish_pairs_by_position_witness :
  publish (replying (Some two_tickets)) sample_client [two_tokens_message]
  = (Returns (Some [set_MessageItem (ticket "id-1" "ok" "") two_tokens_message;
                    set_MessageItem (ticket "id-2" "ok" "") two_tokens_message],
              None), [EvAction 0]) /\
  exists t1 t2,
    [set_MessageItem (ticket "id-1" "ok" "") two_tokens_message;
     set_MessageItem (ticket "id-2" "ok" "") two_tokens_message] = [t1; t2] /\
    tk_MessageItem t1 = Some two_tokens_message /\
    tk_MessageItem t2 = Some two_tokens_message.
Proof.
  split; [reflexivity |].
  apply (proj2 (proj2 (proj2 (publish_pairs_by_position
    (replying (Some two_tickets)) sample_client [two_tokens_message]
    _ [EvAction 0] eq_refl)))
    two_tokens_message (Some "ExponentPushToken[aaa]")
    (Some "ExponentPushToken[bbb]") eq_refl eq_refl).
Defined.

(** *** Recipient tokens *)

(** C6, as the code has it.  A batch that holds a message with a nil or
    empty recipient token is turned down with a validation error before any
    request is sent: the invalid-token error when no message before the
    offending one lacks recipients, the no-recipients error when the first
    message to fail is one without recipients.  ([publish] does not look
    at the prefix of a token.) *)
Theorem publish_rejects_empty_token `{F : Float64} (w : World) (c : Client)
    (msgs : list Message) :
  (exists m recipient,
     m ∈ msgs /\ recipient ∈ msg_To m /\ nil_or_empty recipient) ->
  exists err,
    publish w c msgs = (Returns (None, Some err), []) /\
    (err = errorString "invalid push token" \/
     err = errorString "no recipients") /\
    (forall pre m post,
       msgs = pre ++ m :: post ->
       (exists recipient, recipient ∈ msg_To m /\ nil_or_empty recipient) ->
       Forall (fun m' => msg_To m' <> []) pre ->
       err = errorString "invalid push token") /\
    (forall pre m post,
       msgs = pre ++ m :: post ->
       validate_messages pre = None -> msg_To m = [] ->
       err = errorString "no recipients").
Proof.
  intros Hbad.
  destruct (validate_messages_rejects msgs Hbad) as [err Hv].
  exists err. split; [now apply publish_invalid |].
  split; [now apply validate_messages_error in Hv |]. split.
  - intros pre m post -> Hm Hpre.
    rewrite (validate_messages_invalid_token pre post m Hpre Hm) in Hv.
    now injection Hv as <-.
  - intros pre m post -> Hpre Hto.
    rewrite (validate_messages_no_recipients pre post m Hpre Hto) in Hv.
    now injection Hv as <-.
Qed.

Lemma publish_rejects_empty_token_witness :
  publish (replying (Some one_ticket)) sample_client
          [two_tokens_message; message_to [Some ""] "Hello" "World"]
  = (Returns (None, Some (errorString "invalid push token")), []).
Proof.
  assert (Hbad : exists recipient,
            recipient ∈ msg_To (message_to [Some ""] "Hello" "World") /\
            nil_or_empty recipient).
  { exists (Some ""). split; [apply elem_of_cons; now left | now right]. }
  destruct (publish_rejects_empty_token
              (replying (Some one_ticket)) sample_client
              [two_tokens_message; message_to [Some ""] "Hello" "World"])
    as (err & Hp & _ & Htoken & _).
  - destruct Hbad as (recipient & Hin & Hne).
    exists (message_to [Some ""] "Hello" "World"), recipient.
    split; [| now split].
    apply elem_of_cons. right. apply elem_of_cons. now left.
  - rewrite Hp.
    rewrite (Htoken [two_tokens_message]
               (message_to [Some ""] "Hello" "World") [] eq_refl Hbad);
      [reflexivity |].
    constructor; [discriminate | constructor].
Defined.

(** C6, as stated, fails: a token without the required prefix passes the
    checks of [publish], the request is sent, and the ticket comes back. *)
Lemma publish_accepts_malformed_token :
  IsPushTokenValid "not-an-expo-token" = false /\
  msg_To malformed_message = [Some "not-an-expo-token"] /\
  publish (replying (Some one_ticket)) sample_client [malformed_message]
  = (Returns (Some [set_MessageItem (ticket "id-1" "ok" "") malformed_message],
              None), [EvAction 0]).
Proof. repeat split. Qed.

(** An earlier message without recipients takes precedence. *)
Example publish_no_recipients_first :
  publish (replying (Some one_ticket)) sample_client
          [message_to [] "Hello" "World"; message_to [None] "Hello" "World"]
  = (Returns (None, Some (errorString "no recipients")), []).
Proof. reflexivity. Qed.

(** A token that [MustParseToken] could not parse is [nil], and [publish]
    turns it down. *)
Example publish_rejects_unparsed_token :
  publish (replying (Some one_ticket)) sample_client
          [message_to [MustParseToken "not-an-expo-token"] "Hello" "World"]
  = (Returns (None, Some (errorString "invalid push token")), []).
Proof. reflexivity. Qed.

(** The prefix is looked at by [ValidateMessage], which callers may run
    before they publish. *)
Lemma validate_tokens_malformed (to : list (option Token)) (token : string) :
  Forall is_Some to -> Some token ∈ to ->
  IsPushTokenValid token = false ->
  exists bad, validate_tokens to
              = Returns (Some (errorString ("invalid push token: " +:+ bad))) /\
              IsPushTokenValid bad = false.
Proof.
  intros Hall Hin Hbad. induction to as [|[t|] to IH]; simpl.
  - inversion Hin.
  - destruct (IsPushTokenValid t) eqn:Ht; simpl.
    + apply IH.
      * now apply Forall_cons in Hall as [_ Hall].
      * apply elem_of_cons in Hin as [[= ->] | Hin]; [congruence | exact Hin].
    + now exists t.
  - apply Forall_cons in Hall as [[x [=]] _].
Qed.

Example ValidateMessage_malformed :
  ValidateMessage malformed_message
  = Returns (Some (errorString "invalid push token: not-an-expo-token")).
Proof. reflexivity. Qed.

(** *** Aborts and crashes *)

(** Whenever [publish] returns without tickets it returns an error. *)
Lemma publish_abort_has_error `{F : Float64} (w : World) (c : Client)
    (msgs : list Message) (err : option error) (tr : list Event) :
  publish w c msgs = (Returns (None, err), tr) -> err <> None.
Proof.
  unfold publish.
  destruct (validate_messages msgs); [now intros [= <-] |].
  destruct (maxNotificationsPerRequest <? length msgs)%nat;
    [now intros [= <-] |].
  destruct (WithRetry _ _ _) as [[resp e] tr0].
  destruct e; [now intros [= <-] |].
  destruct resp as [rsp|]; [| intros [=]].
  unfold publish_reply.
  destruct (checkStatus rsp); [now intros [= <-] |].
  destruct (as_Response (RespBody rsp)) as [e|[r|]];
    [now intros [= <-] | | intros [=]].
  destruct (rsp_Errors r); [now intros [= <-] |].
  destruct (rsp_Data r) as [data|]; [| now intros [= <-]].
  destruct (negb _); [now intros [= <-] |].
  destruct (assign data (expand msgs)); intros [=].
Qed.

(** A body that decodes to [nil] makes [publish] dereference it. *)
Lemma publish_null_reply `{F : Float64} (w : World) (c : Client)
    (msgs : list Message) (rsp : HttpResponse) (tr : list Event) :
  validate_messages msgs = None ->
  (length msgs <= maxNotificationsPerRequest)%nat ->
  WithRetry (ctx_backoff w) (RetryConfig_ (cnf c))
            (fun k => send w k (send_request c msgs)) = ((Some rsp, None), tr) ->
  checkStatus rsp = None ->
  as_Response (RespBody rsp) = DecodeOk None ->
  publish w c msgs = (Panics "nil pointer dereference: r.Errors", tr).
Proof.
  intros Hv Hsize Hretry Hs Hd.
  rewrite (publish_reply_of w c msgs rsp tr Hv Hsize Hretry).
  unfold publish_reply. now rewrite Hs, Hd.
Qed.

(** C9 does not hold of the code: on a 200 reply whose body is the JSON
    value [null], [publish] and [GetPushReceipts] do not return an error;
    they dereference the nil pointer that the decoder left. *)
Theorem null_body_panics :
  publish null_world sample_client [two_tokens_message]
  = (Panics "nil pointer dereference: r.Errors", [EvAction 0]) /\
  GetPushReceipts null_world sample_client ["id-1"]
  = (Panics "nil pointer dereference: receiptResp.Errors",
     [EvGetReceipts (receipts_request sample_client ["id-1"])]).
Proof. split; reflexivity. Qed.

(** A [null] entry in the ticket array has the same effect. *)
Example publish_null_ticket :
  publish (replying (Some {| rsp_Data := Some [Some (ticket "id-1" "ok" ""); None];
                             rsp_Errors := None |}))
          sample_client [two_tokens_message]
  = (Panics "nil pointer dereference: r.Data[i]", [EvAction 0]).
Proof. reflexivity. Qed.

(** An object with neither member is an error for [publish] and an empty
    result for [GetPushReceipts]. *)
Example publish_empty_object :
  publish (replying (Some {| rsp_Data := None; rsp_Errors := None |}))
          sample_client [two_tokens_message]
  = (Returns (None,
       Some (NewServerError "invalid server response"
               (Some (http_ok (reply_body
                  (Some {| rsp_Data := None; rsp_Errors := None |}))))
               (Some {| rsp_Data := None; rsp_Errors := None |}) None)),
     [EvAction 0]).
Proof. reflexivity. Qed.

Example GetPushReceipts_empty_object :
  fst (GetPushReceipts
         (quiet_world (fun _ => (None, None))
            (Some (http_ok (receipts_body
               (Some {| rr_Data := None; rr_Errors := None |}))), None))
         sample_client ["id-1"])
  = Returns (None, None).
Proof. reflexivity. Qed.

(** ** The send-and-reconcile workflow *)

Lemma has_ticket_id_eligible (t : MessageResponse) :
  has_ticket_id t = true <-> eligible t.
Proof.
  unfold has_ticket_id, tk_IsOk, eligible.
  destruct (bool_decide_reflect (tk_Status t = "ok"));
    destruct (bool_decide_reflect (tk_ID t = "")); simpl;
    split; try discriminate; try tauto.
Qed.

Lemma ticket_result_terminal (t : MessageResponse) :
  ~ eligible t -> ticket_result t = terminal_result t.
Proof.
  intros Hne. unfold ticket_result.
  destruct (has_ticket_id t) eqn:Hid; [| reflexivity].
  exfalso. now apply Hne, has_ticket_id_eligible.
Qed.

Lemma ticket_result_eligible (t : MessageResponse) :
  eligible t ->
  ticket_result t
  = {| pr_TicketID := tk_ID t; pr_Message := tk_MessageItem t;
       pr_PushTicket := Some t; pr_PushReceipt := None; pr_Error := None |}.
Proof.
  intros He. unfold ticket_result.
  now rewrite (proj2 (has_ticket_id_eligible t) He).
Qed.

Lemma ticket_result_no_receipt (t : MessageResponse) :
  pr_PushReceipt (ticket_result t) = None /\
  pr_PushTicket (ticket_result t) = Some t.
Proof. unfold ticket_result. now destruct (has_ticket_id t). Qed.

(** The identifiers collected are those of the eligible tickets. *)
Lemma collect_ticketIDs_elem (responses : list MessageResponse) (id : string) :
  id ∈ collect_ticketIDs responses <->
  exists t, t ∈ responses /\ eligible t /\ tk_ID t = id.
Proof.
  unfold collect_ticketIDs. rewrite list_elem_of_fmap. split.
  - intros (t & -> & Ht). apply list_elem_of_filter in Ht as [Hid Hin].
    exists t. split; [exact Hin |]. split; [| reflexivity].
    now apply has_ticket_id_eligible.
  - intros (t & Hin & He & <-). exists t. split; [reflexivity |].
    apply list_elem_of_filter. split; [| exact Hin].
    now apply has_ticket_id_eligible.
Qed.

Lemma collect_ticketIDs_nil (responses : list MessageResponse) :
  (forall t, t ∈ responses -> ~ eligible t) ->
  collect_ticketIDs responses = [].
Proof.
  intros Hnone. destruct (collect_ticketIDs responses) as [|id ids] eqn:Hc;
    [reflexivity | exfalso].
  assert (Hin : id ∈ collect_ticketIDs responses)
    by (rewrite Hc; apply elem_of_cons; now left).
  apply collect_ticketIDs_elem in Hin as (t & Hin & He & _).
  exact (Hnone t Hin He).
Qed.

(** Step 5 leaves a result without identifier as it is. *)
Lemma match_receipt_terminal
    (receipts : option (gmap string (option PushReceipt))) (res : PushResult) :
  pr_TicketID res = "" -> match_receipt receipts res = Returns res.
Proof. intros Hid. unfold match_receipt. now rewrite Hid. Qed.

Lemma match_receipts_returns
    (receipts : option (gmap string (option PushReceipt)))
    (results : list PushResult) :
  forall results', match_receipts receipts results = Returns results' ->
  length results' = length results /\
  forall i res, results !! i = Some res -> pr_TicketID res = "" ->
                results' !! i = Some res.
Proof.
  induction results as [|res0 results IH]; intros results'; simpl.
  - intros [= <-]. split; [reflexivity |]. intros i res Hi. discriminate Hi.
  - destruct (match_receipt receipts res0) as [res0'|why] eqn:H0;
      [| discriminate].
    destruct (match_receipts receipts results) as [rest'|why] eqn:Hrest;
      [| discriminate].
    intros [= <-]. destruct (IH rest' eq_refl) as [Hlen Hkeep].
    split; [simpl; now rewrite Hlen |].
    intros [|i] res Hi Hid; simpl in Hi |- *.
    + injection Hi as ->.
      rewrite (match_receipt_terminal receipts res Hid) in H0.
      now injection H0 as <-.
    + now apply Hkeep.
Qed.

(** The receipt fetch shows in the trace as one request, or not at all. *)
Lemma GetPushReceipts_trace `{F : Float64} (w : World) (c : Client)
    (ticketIDs : list string) :
  snd (GetPushReceipts w c ticketIDs) = [] \/
  snd (GetPushReceipts w c ticketIDs)
  = [EvGetReceipts (receipts_request c ticketIDs)].
Proof.
  unfold GetPushReceipts.
  destruct (length ticketIDs =? 0)%nat; [now left |].
  destruct (maxReceiptsPerRequest <? length ticketIDs)%nat; [now left |].
  destruct (fetch w (receipts_request c ticketIDs)) as [resp err]. now right.
Qed.

Section Workflow.
Context `{F : Float64}.
Variable w : World.
Variable c : Client.
Variable messages : list Message.
Variable receiptDelay : Z.
Variable responses : list MessageResponse.
Variable tr : list Event.
Hypothesis published :
  Publish w c messages = (Returns (Some responses, None), tr).

(** The paths of the workflow after a successful publish. *)
Lemma workflow_nothing_to_fetch :
  collect_ticketIDs responses = [] ->
  SendPushNotificationsWithReceipts w c messages receiptDelay
  = (Returns (Some (map ticket_result responses), None), tr).
Proof.
  intros Hc. unfold SendPushNotificationsWithReceipts.
  rewrite published. simpl. now rewrite Hc.
Qed.

Lemma workflow_cancelled (err : error) :
  collect_ticketIDs responses <> [] ->
  ctx_delay w (effective_delay receiptDelay) = Some err ->
  SendPushNotificationsWithReceipts w c messages receiptDelay
  = (Returns (Some (map ticket_result responses), Some err),
     tr ++ [EvReceiptDelay (effective_delay receiptDelay)]).
Proof.
  intros Hc Hctx. unfold SendPushNotificationsWithReceipts.
  rewrite published. simpl. fold (effective_delay receiptDelay).
  destruct (collect_ticketIDs responses) as [|id ids]; [contradiction |].
  simpl. now rewrite Hctx.
Qed.

Lemma workflow_fetch
    (fetched : Outcome (option (gmap string (option PushReceipt))
                        * option error))
    (tr' : list Event) :
  collect_ticketIDs responses <> [] ->
  ctx_delay w (effective_delay receiptDelay) = None ->
  GetPushReceipts w c (collect_ticketIDs responses) = (fetched, tr') ->
  SendPushNotificationsWithReceipts w c messages receiptDelay
  = (match fetched with
     | Panics why => Panics why
     | Returns (_, Some err) =>
       Returns (Some (map ticket_result responses),
                Some (wrapError "failed to fetch push receipts: " err))
     | Returns (receipts, None) =>
       match match_receipts receipts (map ticket_result responses) with
       | Panics why => Panics why
       | Returns results' => Returns (Some results', None)
       end
     end,
     tr ++ EvReceiptDelay (effective_delay receiptDelay) :: tr').
Proof.
  intros Hc Hctx Hf. unfold SendPushNotificationsWithReceipts.
  rewrite published. simpl. fold (effective_delay receiptDelay).
  destruct (collect_ticketIDs responses) as [|id ids] eqn:Hids;
    [contradiction |].
  simpl. rewrite Hctx, Hf. reflexivity.
Qed.

(** Whatever list of results the workflow returns, it has one entry per
    ticket, and the entry of a ticket that is not eligible is the one built
    from the ticket, its error included. *)
Lemma workflow_terminal_entries (results : list PushResult)
    (err : option error) :
  fst (SendPushNotificationsWithReceipts w c messages receiptDelay)
  = Returns (Some results, err) ->
  length results = length responses /\
  forall i t, responses !! i = Some t -> ~ eligible t ->
              results !! i = Some (terminal_result t).
Proof.
  assert (Hbuilt : forall i t, responses !! i = Some t -> ~ eligible t ->
            map ticket_result responses !! i = Some (terminal_result t)).
  { intros i t Hi Hne. rewrite list_lookup_fmap, Hi. simpl.
    now rewrite ticket_result_terminal. }
  destruct (collect_ticketIDs responses) as [|id ids] eqn:Hids.
  - rewrite (workflow_nothing_to_fetch Hids). simpl. intros [= <- <-].
    split; [apply length_map | exact Hbuilt].
  - assert (Hne : collect_ticketIDs responses <> []) by (rewrite Hids; discriminate).
    destruct (ctx_delay w (effective_delay receiptDelay)) as [e|] eqn:Hctx.
    + rewrite (workflow_cancelled e Hne Hctx). simpl. intros [= <- <-].
      split; [apply length_map | exact Hbuilt].
    + destruct (GetPushReceipts w c (collect_ticketIDs responses))
        as [fetched tr'] eqn:Hf.
      rewrite (workflow_fetch fetched tr' Hne Hctx Hf). simpl.
      destruct fetched as [[receipts [e|]]|why]; [| | discriminate].
      * intros [= <- <-]. split; [apply length_map | exact Hbuilt].
      * destruct (match_receipts receipts (map ticket_result responses))
          as [results'|why] eqn:Hm; [| discriminate].
        intros [= <- <-].
        destruct (match_receipts_returns receipts _ results' Hm) as [Hlen Hkeep].
        split; [now rewrite Hlen, length_map |].
        intros i t Hi Hnel. apply Hkeep; [now apply Hbuilt | reflexivity].
Qed.

(** What the workflow adds to the trace of [publish]: nothing, a wait, or a
    wait and the one fetch for the collected identifiers. *)
Lemma workflow_trace :
  exists rest,
    snd (SendPushNotificationsWithReceipts w c messages receiptDelay)
    = tr ++ rest /\
    (rest = [] \/
     rest = [EvReceiptDelay (effective_delay receiptDelay)] \/
     rest = [EvReceiptDelay (effective_delay receiptDelay);
             EvGetReceipts (receipts_request c (collect_ticketIDs responses))]).
Proof.
  destruct (collect_ticketIDs responses) as [|id ids] eqn:Hids.
  - rewrite (workflow_nothing_to_fetch Hids). exists [].
    split; [now rewrite app_nil_r | now left].
  - assert (Hne : collect_ticketIDs responses <> []) by (rewrite Hids; discriminate).
    rewrite <- Hids.
    destruct (ctx_delay w (effective_delay receiptDelay)) as [e|] eqn:Hctx.
    + rewrite (workflow_cancelled e Hne Hctx). eexists.
      split; [reflexivity | right; now left].
    + destruct (GetPushReceipts w c (collect_ticketIDs responses))
        as [fetched tr'] eqn:Hf.
      rewrite (workflow_fetch fetched tr' Hne Hctx Hf). eexists.
      split; [reflexivity |].
      destruct (GetPushReceipts_trace w c (collect_ticketIDs responses))
        as [Ht | Ht]; rewrite Hf in Ht; simpl in Ht; subst tr'.
      * right. now left.
      * right. now right.
Qed.

End Workflow.

(** C7, as the code has it.  After a successful publish the tickets that
    go on to the receipt fetch are exactly those with status ok and a
    non-empty identifier; the one fetch, if any, asks for their identifiers.
    Every other ticket is terminal: in whatever list the call returns, its
    entry holds the ticket and the error made from the ticket's message, and
    no receipt.  When no ticket goes on, the call returns these entries at
    once, without a wait or a fetch. *)
Theorem reconcile_partition `{F : Float64} (w : World) (c : Client)
    (messages : list Message) (receiptDelay : Z)
    (responses : list MessageResponse) (tr : list Event) :
  Publish w c messages = (Returns (Some responses, None), tr) ->
  let out := SendPushNotificationsWithReceipts w c messages receiptDelay in
  (forall id, id ∈ collect_ticketIDs responses <->
              exists t, t ∈ responses /\ eligible t /\ tk_ID t = id) /\
  (exists rest,
     snd out = tr ++ rest /\
     (rest = [] \/
      rest = [EvReceiptDelay (effective_delay receiptDelay)] \/
      rest = [EvReceiptDelay (effective_delay receiptDelay);
              EvGetReceipts
                (receipts_request c (collect_ticketIDs responses))])) /\
  (forall results err,
     fst out = Returns (Some results, err) ->
     length results = length responses /\
     forall i t, responses !! i = Some t -> ~ eligible t ->
                 results !! i = Some (terminal_result t)) /\
  ((forall t, t ∈ responses -> ~ eligible t) ->
   out = (Returns (Some (map terminal_result responses), None), tr)).
Proof.
  intros Hp out.
  refine (conj (collect_ticketIDs_elem responses) (conj _ (conj _ _))).
  - exact (workflow_trace w c messages receiptDelay responses tr Hp).
  - exact (workflow_terminal_entries w c messages receiptDelay responses tr Hp).
  - intros Hnone. unfold out.
    rewrite (workflow_nothing_to_fetch w c messages receiptDelay responses tr
               Hp (collect_ticketIDs_nil responses Hnone)).
    do 4 f_equal. apply map_ext_in. intros t Hin.
    apply ticket_result_terminal, Hnone. now apply list_elem_of_In.
Qed.

Lemma reconcile_partition_witness :
  SendPushNotificationsWithReceipts
    (replying (Some refused_reply)) sample_client [one_token_message] 0
  = (Returns (Some (map terminal_result
                      [set_MessageItem refused_ticket one_token_message]),
              None), [EvAction 0]).
Proof.
  refine (proj2 (proj2 (proj2 (reconcile_partition
    (replying (Some refused_reply)) sample_client [one_token_message] 0
    [set_MessageItem refused_ticket one_token_message] [EvAction 0]
    eq_refl))) _).
  intros t Ht [Hok _]. apply list_elem_of_singleton in Ht as ->.
  discriminate Hok.
Defined.

(** C7, as stated, fails: a ticket that carries an identifier next to an
    error status does not go on to the fetch; it is terminal. *)
Lemma identified_ticket_not_fetched :
  tk_ID refused_ticket <> "" /\
  SendPushNotificationsWithReceipts
    (replying (Some refused_reply)) sample_client [one_token_message] 0
  = (Returns
       (Some [{| pr_TicketID := "";
                 pr_Message := Some one_token_message;
                 pr_PushTicket :=
                   Some (set_MessageItem refused_ticket one_token_message);
                 pr_PushReceipt := None;
                 pr_Error := Some (errorString
                   "push ticket error: rate limit exceeded") |}],
        None), [EvAction 0]).
Proof. split; [discriminate | reflexivity]. Qed.

(** C8. If the receipt fetch fails, the call returns the list built from
    the tickets, one entry per ticket and none with a receipt: the terminal
    entries with their errors, as on every other path, and the entries of
    the tickets sent to the fetch.  With it comes the error of the fetch,
    wrapped. *)
Theorem fetch_failure_returns_partial `{F : Float64} (w : World) (c : Client)
    (messages : list Message) (receiptDelay : Z)
    (responses : list MessageResponse) (tr tr' : list Event)
    (receipts : option (gmap string (option PushReceipt))) (err : error) :
  Publish w c messages = (Returns (Some responses, None), tr) ->
  ctx_delay w (effective_delay receiptDelay) = None ->
  GetPushReceipts w c (collect_ticketIDs responses)
  = (Returns (receipts, Some err), tr') ->
  SendPushNotificationsWithReceipts w c messages receiptDelay
  = (Returns (Some (map ticket_result responses),
              Some (wrapError "failed to fetch push receipts: " err)),
     tr ++ EvReceiptDelay (effective_delay receiptDelay) :: tr') /\
  length (map ticket_result responses) = length responses /\
  (forall i t, responses !! i = Some t ->
     exists res,
       map ticket_result responses !! i = Some res /\
       pr_PushTicket res = Some t /\ pr_PushReceipt res = None /\
       (~ eligible t -> res = terminal_result t) /\
       (eligible t -> pr_TicketID res = tk_ID t /\ pr_Error res = None)).
Proof.
  intros Hp Hctx Hf.
  assert (Hne : collect_ticketIDs responses <> []).
  { intros Hnil. rewrite Hnil in Hf. discriminate Hf. }
  split; [| split].
  - now rewrite (workflow_fetch w c messages receiptDelay responses tr Hp
                   _ tr' Hne Hctx Hf).
  - apply length_map.
  - intros i t Hi. exists (ticket_result t).
    rewrite list_lookup_fmap, Hi.
    destruct (ticket_result_no_receipt t) as [Hrc Htk].
    repeat split; try assumption.
    + now apply ticket_result_terminal.
    + now rewrite ticket_result_eligible.
    + now rewrite ticket_result_eligible.
Qed.

Lemma fetch_failure_returns_partial_witness :
  SendPushNotificationsWithReceipts
    (replying (Some mixed_reply)) sample_client [two_tokens_message] 0
  = (Returns
       (Some (map ticket_result
          [set_MessageItem (ticket "id-1" "ok" "") two_tokens_message;
           set_MessageItem (ticket "" "error" "not a registered recipient")
                           two_tokens_message]),
        Some (wrapError "failed to fetch push receipts: "
                        (foreignError "connection refused"))),
     [EvAction 0] ++ EvReceiptDelay (effective_delay 0)
       :: [EvGetReceipts (receipts_request sample_client ["id-1"])]).
Proof.
  exact (proj1 (fetch_failure_returns_partial
    (replying (Some mixed_reply)) sample_client [two_tokens_message] 0
    [set_MessageItem (ticket "id-1" "ok" "") two_tokens_message;
     set_MessageItem (ticket "" "error" "not a registered recipient")
                     two_tokens_message]
    [EvAction 0] [EvGetReceipts (receipts_request sample_client ["id-1"])]
    None (foreignError "connection refused") eq_refl eq_refl eq_refl)).
Defined.

(** The same batch when the receipts arrive: the accepted ticket gets its
    receipt, the refused one stays as it was. *)
Example workflow_receipt_attached :
  fst (SendPushNotificationsWithReceipts
         (quiet_world
            (fun _ => (Some (http_ok (reply_body (Some mixed_reply))), None))
            (Some (http_ok (receipts_body (Some
               {| rr_Data := Some {[ "id-1" :=
                    Some {| rc_Status := "error";
                            rc_Message := "not registered";
                            rc_Details := Some {[ "error" :=
                              "DeviceNotRegistered" ]} |} ]};
                  rr_Errors := None |}))), None))
         sample_client [two_tokens_message] 0)
  = Returns
      (Some [{| pr_TicketID := "id-1";
                pr_Message := Some two_tokens_message;
                pr_PushTicket := Some (set_MessageItem (ticket "id-1" "ok" "")
                                                       two_tokens_message);
                pr_PushReceipt :=
                  Some {| rc_Status := "error"; rc_Message := "not registered";
                          rc_Details := Some {[ "error" :=
                            "DeviceNotRegistered" ]} |};
                pr_Error := Some (errorString
                                    "push receipt error: not registered") |};
             terminal_result
               (set_MessageItem (ticket "" "error" "not a registered recipient")
                                two_tokens_message)],
       None).
Proof. vm_compute. reflexivity. Qed.

(** * Further properties of the code *)

(** ** Tokens *)

Lemma prefix_app_iff (p s : string) :
  String.prefix p s = true <-> exists rest, s = p +:+ rest.
Proof.
  revert s. induction p as [|a p IH]; intros s.
  - split; [intros _; now exists s | intros _; now destruct s].
  - destruct s as [|b s]; simpl.
    + split; [discriminate | intros [rest [=]]].
    + destruct (ascii_dec a b) as [<- | Hne].
      * rewrite IH. split; intros [rest Hr]; exists rest.
        -- simpl. now rewrite Hr.
        -- simpl in Hr. now injection Hr.
      * split; [discriminate |].
        intros [rest Hr]. simpl in Hr. injection Hr as Hab _.
        symmetry in Hab. contradiction.
Qed.

(** X1. A string is a valid push token exactly when it is
    ["ExponentPushToken"] followed by anything, nothing included; parsing a
    valid string yields that same string as the token, so parsing the token
    again changes nothing. *)
Theorem token_valid_iff_prefix (token : string) :
  (IsPushTokenValid token = true <->
   exists rest, token = "ExponentPushToken" +:+ rest) /\
  (forall tkn, MustParseToken token = Some tkn <->
               tkn = token /\ IsPushTokenValid token = true) /\
  (forall tkn, MustParseToken token = Some tkn ->
               ParseToken tkn = (Some tkn, None)).
Proof.
  assert (Hvalid : IsPushTokenValid token
                   = String.prefix "ExponentPushToken" token).
  { unfold IsPushTokenValid, ParseToken.
    now destruct (String.prefix "ExponentPushToken" token). }
  assert (Hmust : forall tkn, MustParseToken token = Some tkn <->
                              tkn = token /\ IsPushTokenValid token = true).
  { intros tkn. rewrite Hvalid. unfold MustParseToken, ParseToken.
    destruct (String.prefix "ExponentPushToken" token); simpl.
    - split; [intros [= <-]; now split | intros [-> _]; reflexivity].
    - split; [discriminate | intros [_ [=]]]. }
  split; [rewrite Hvalid; apply prefix_app_iff |].
  split; [exact Hmust |].
  intros tkn Hp. apply Hmust in Hp as [-> Hv].
  rewrite Hvalid in Hv. now apply ParseToken_prefix.
Qed.

(** ** Configuration *)

Section Options.
Context `{F : Float64}.

Lemma withDefaults_filled (c : Config) :
  Host (withDefaults c) <> "" /\ ApiURL (withDefaults c) <> "" /\
  RetryConfig_ (withDefaults c) <> None.
Proof.
  unfold withDefaults. simpl. split; [| split].
  - destruct (bool_decide_reflect (Host c = "")); [discriminate | assumption].
  - destruct (bool_decide_reflect (ApiURL c = "")); [discriminate | assumption].
  - destruct (RetryConfig_ c); discriminate.
Qed.

(** X2. Whatever options it is given, [NewClient] yields a configuration
    with a host, an API path and a retry configuration; a [nil] option is
    skipped; the option given last decides, except that an empty host or a
    [nil] retry configuration brings the default back. *)
Theorem NewClient_defaults (opts : list (option (Config -> Config))) :
  Host (cnf (NewClient opts)) <> "" /\
  ApiURL (cnf (NewClient opts)) <> "" /\
  RetryConfig_ (cnf (NewClient opts)) <> None /\
  (forall pre post, opts = pre ++ None :: post ->
     NewClient opts = NewClient (pre ++ post)) /\
  (forall pre host, opts = pre ++ [Some (WithHost host)] ->
     Host (cnf (NewClient opts))
     = if bool_decide (host = "") then "https://exp.host" else host) /\
  (forall pre retryConfig, opts = pre ++ [Some (WithRetryConfig retryConfig)] ->
     RetryConfig_ (cnf (NewClient opts))
     = Some (default DefaultRetryConfig retryConfig)).
Proof.
  unfold NewClient. simpl.
  destruct (withDefaults_filled
    (fold_left (fun c opt => match opt with Some f => f c | None => c end) opts
       {| Host := ""; ApiURL := ""; AccessToken := ""; EnableGzip := false;
          RetryConfig_ := None |})) as (Hh & Ha & Hr).
  refine (conj Hh (conj Ha (conj Hr (conj _ (conj _ _))))).
  - intros pre post ->. now rewrite !fold_left_app.
  - intros pre host ->. now rewrite fold_left_app.
  - intros pre retryConfig ->. rewrite fold_left_app. simpl.
    now destruct retryConfig.
Qed.

End Options.

(** ** The trace and the result of [WithRetry] *)

Section RetryTrace.
Context `{F : Float64}.
Variable ctx : Z -> Z -> option error.
Variable retryConfig : RetryConfig.
Variable fn : nat -> RoundTrip.

Lemma retry_turn_trace (attempt : Z) :
  0 <= attempt ->
  cancelled_at ctx retryConfig attempt = None ->
  snd (retry_turn ctx retryConfig fn attempt)
  = turn_events retryConfig fn (Z.to_nat attempt).
Proof.
  intros Ha. unfold cancelled_at, retry_turn, turn_events. cbv zeta.
  rewrite Z2Nat.id by exact Ha.
  destruct (0 <? attempt).
  - intros ->.
    destruct (fn (Z.to_nat attempt)) as [[rsp|] [e|]]; simpl;
      try reflexivity.
    now destruct (IsRetryableError (StatusCode rsp)).
  - intros _.
    destruct (fn (Z.to_nat attempt)) as [[rsp|] [e|]]; simpl;
      try reflexivity.
    now destruct (IsRetryableError (StatusCode rsp)).
Qed.

(** The trace of the loop: the turns of its invocations, in order, and
    after them the wait that was cancelled, if one was. *)
Lemma retry_loop_trace (n : nat) :
  forall (attempt : Z) (lastErr : option error),
  0 <= attempt ->
  let res := retry_loop ctx retryConfig fn n attempt lastErr in
  let m := length (invocations (snd res)) in
  let a0 := Z.to_nat attempt in
  exists tail,
    snd res = flat_map (turn_events retryConfig fn) (seq a0 m) ++ tail /\
    (tail = [] \/
     (m < n)%nat /\
     cancelled_at ctx retryConfig (Z.of_nat (a0 + m)) <> None /\
     tail = [EvBackoff (Z.of_nat (a0 + m))
               (ExponentialBackoff retryConfig (Z.of_nat (a0 + m)))]).
Proof.
  induction n as [|n' IH]; intros attempt lastErr Ha; cbv zeta.
  - exists []. split; [reflexivity | now left].
  - simpl retry_loop.
    destruct (cancelled_at ctx retryConfig attempt) as [err|] eqn:Hc.
    + rewrite (retry_turn_cancelled ctx retryConfig fn attempt err Hc). simpl.
      eexists. split; [reflexivity |]. right.
      rewrite Nat.add_0_r, Z2Nat.id by exact Ha.
      split; [lia |]. split; [now rewrite Hc | reflexivity].
    + pose proof (retry_turn_trace attempt Ha Hc) as Htr.
      destruct (retry_turn_invoked ctx retryConfig fn attempt Hc) as [Hinv Hturn].
      destruct (retry_turn ctx retryConfig fn attempt) as [turn tr] eqn:Ht.
      simpl in Htr, Hinv, Hturn. subst tr.
      destruct (retryable (fn (Z.to_nat attempt))); subst turn.
      * specialize (IH (attempt + 1) (recorded_error (fn (Z.to_nat attempt)))
                       ltac:(lia)).
        cbv zeta in IH.
        destruct (retry_loop ctx retryConfig fn n' (attempt + 1)
                    (recorded_error (fn (Z.to_nat attempt)))) as [r tr'].
        simpl in IH |- *.
        replace (Z.to_nat (attempt + 1)) with (S (Z.to_nat attempt)) in IH
          by lia.
        destruct IH as (tail & Heq & Htail).
        rewrite invocations_app, Hinv. simpl.
        exists tail. split.
        -- rewrite <- app_assoc. f_equal. exact Heq.
        -- destruct Htail as [-> | (Hm & Hcan & ->)]; [now left | right].
           replace (Z.to_nat attempt + S (length (invocations tr')))%nat
             with (S (Z.to_nat attempt) + length (invocations tr'))%nat by lia.
           split; [lia |]. now split.
      * simpl. rewrite Hinv. simpl. exists [].
        split; [now rewrite !app_nil_r | now left].
Qed.

End RetryTrace.

Lemma recorded_error_retryable (rt : RoundTrip) :
  retryable rt = true -> recorded_error rt <> None.
Proof. destruct rt as [[rsp|] [e|]]; simpl; discriminate. Qed.

Lemma elem_of_turn_events `{F : Float64} (c : RetryConfig)
    (fn : nat -> RoundTrip) (ks : list nat) (ev : Event) :
  ev ∈ flat_map (turn_events c fn) ks <->
  exists k, k ∈ ks /\
    (ev = EvAction k \/
     (0 < Z.of_nat k /\
      ev = EvBackoff (Z.of_nat k) (ExponentialBackoff c (Z.of_nat k))) \/
     (body_closed (fn k) = true /\ ev = EvCloseBody k)).
Proof.
  rewrite list_elem_of_In, in_flat_map. split.
  - intros (k & Hk & Hev). exists k. split; [now apply list_elem_of_In |].
    apply list_elem_of_In in Hev. unfold turn_events in Hev.
    apply elem_of_app in Hev as [Hev | Hev].
    + destruct (Z.ltb_spec 0 (Z.of_nat k)); [| inversion Hev].
      apply list_elem_of_singleton in Hev. right. left. now split.
    + apply elem_of_cons in Hev as [-> | Hev]; [now left |].
      destruct (body_closed (fn k)); [| inversion Hev].
      apply list_elem_of_singleton in Hev. right. right. now split.
  - intros (k & Hk & Hev). exists k. split; [now apply list_elem_of_In |].
    apply list_elem_of_In. unfold turn_events. apply elem_of_app.
    destruct Hev as [-> | [[Hpos ->] | [Hcl ->]]].
    + right. apply elem_of_cons. now left.
    + left. destruct (Z.ltb_spec 0 (Z.of_nat k)); [| lia].
      now apply list_elem_of_singleton.
    + right. apply elem_of_cons. right. rewrite Hcl.
      now apply list_elem_of_singleton.
Qed.

Section RetryResult.
Context `{F : Float64}.
Variable ctx : Z -> Z -> option error.
Variable retryConfig : option RetryConfig.
Variable fn : nat -> RoundTrip.

Lemma WithRetry_trace :
  exists tail,
    snd (WithRetry ctx retryConfig fn)
    = flat_map (turn_events (default DefaultRetryConfig retryConfig) fn)
               (seq 0 (attempts_made ctx retryConfig fn)) ++ tail /\
    (tail = [] \/
     (attempts_made ctx retryConfig fn < Z.to_nat (budget retryConfig + 1))%nat
     /\ tail = [EvBackoff (Z.of_nat (attempts_made ctx retryConfig fn))
                  (ExponentialBackoff (default DefaultRetryConfig retryConfig)
                     (Z.of_nat (attempts_made ctx retryConfig fn)))]).
Proof.
  destruct (retry_loop_trace ctx (default DefaultRetryConfig retryConfig) fn
              (Z.to_nat (budget retryConfig + 1)) 0 None ltac:(lia))
    as (tail & Heq & Htail).
  exists tail. split; [exact Heq |].
  destruct Htail as [-> | (Hm & _ & ->)]; [now left | right]. now split.
Qed.

Lemma WithRetry_returned_response (rsp : HttpResponse) :
  fst (fst (WithRetry ctx retryConfig fn)) = Some rsp ->
  snd (fst (WithRetry ctx retryConfig fn)) = None /\
  IsRetryableError (StatusCode rsp) = false /\
  exists k, attempts_made ctx retryConfig fn = S k /\ fn k = (Some rsp, None).
Proof.
  intros Hrsp.
  destruct (WithRetry_spec ctx retryConfig fn) as (_ & _ & _ & _ & Hend).
  destruct Hend as [(k & Hk & _ & Hnr & Hres)
                   | [(_ & _ & Hres) | (_ & _ & err & _ & Hres)]];
    rewrite Hres in Hrsp |- *; simpl in Hrsp; try discriminate Hrsp.
  destruct (fn k) as [[rsp'|] [e|]] eqn:Hfn; simpl in Hnr, Hrsp;
    try discriminate.
  injection Hrsp as ->. split; [reflexivity |]. split; [exact Hnr |].
  exists k. split; [lia | exact Hfn].
Qed.

End RetryResult.

(** X3. [WithRetry] never returns a response together with an error.  A
    response it returns is the one its last invocation returned, without
    error and with a status outside the retried set.  It returns neither
    response nor error only when it made no invocation or its last
    invocation returned neither. *)
Theorem WithRetry_result_shape `{F : Float64} (ctx : Z -> Z -> option error)
    (retryConfig : option RetryConfig) (fn : nat -> RoundTrip) :
  (forall rsp, fst (fst (WithRetry ctx retryConfig fn)) = Some rsp ->
     snd (fst (WithRetry ctx retryConfig fn)) = None /\
     IsRetryableError (StatusCode rsp) = false /\
     exists k, attempts_made ctx retryConfig fn = S k /\
               fn k = (Some rsp, None)) /\
  (fst (WithRetry ctx retryConfig fn) = (None, None) ->
   attempts_made ctx retryConfig fn = 0%nat \/
   exists k, attempts_made ctx retryConfig fn = S k /\ fn k = (None, None)).
Proof.
  split; [apply WithRetry_returned_response |].
  intros Hres.
  destruct (WithRetry_spec ctx retryConfig fn) as (_ & _ & _ & _ & Hend).
  rewrite Hres in Hend.
  destruct Hend as [(k & Hk & _ & _ & Hfn)
                   | [(_ & Hall & Hlast) | (_ & _ & err & _ & [=])]].
  - right. exists k. split; [lia | now symmetry].
  - destruct (attempts_made ctx retryConfig fn) as [|j] eqn:Hn; [now left |].
    exfalso. simpl in Hlast. injection Hlast as Hlast.
    symmetry in Hlast. revert Hlast.
    apply recorded_error_retryable, Hall. lia.
Qed.


(** X5. [WithRetry] closes the body of a response exactly when it is going
    to retry because of that response's status: never the body of a
    response that came with a transport error, and never the body of the
    response it returns. *)
Theorem WithRetry_closes_retried_bodies `{F : Float64}
    (ctx : Z -> Z -> option error) (retryConfig : option RetryConfig)
    (fn : nat -> RoundTrip) :
  (forall k, EvCloseBody k ∈ snd (WithRetry ctx retryConfig fn) <->
     (k < attempts_made ctx retryConfig fn)%nat /\
     exists rsp, fn k = (Some rsp, None) /\
                 IsRetryableError (StatusCode rsp) = true) /\
  (forall rsp k, fst (fst (WithRetry ctx retryConfig fn)) = Some rsp ->
     attempts_made ctx retryConfig fn = S k ->
     EvCloseBody k ∉ snd (WithRetry ctx retryConfig fn)).
Proof.
  assert (Hclosed : forall k,
            EvCloseBody k ∈ snd (WithRetry ctx retryConfig fn) <->
            (k < attempts_made ctx retryConfig fn)%nat /\
            body_closed (fn k) = true).
  { intros k.
    destruct (WithRetry_trace ctx retryConfig fn) as (tail & Heq & Htail).
    rewrite Heq, elem_of_app, elem_of_turn_events. split.
    - intros [(k' & Hk' & Hev) | Hin].
      + apply elem_of_seq in Hk'.
        destruct Hev as [[=] | [[_ [=]] | [Hcl [= ->]]]]. split; [lia | exact Hcl].
      + destruct Htail as [-> | (_ & ->)]; [inversion Hin |].
        apply list_elem_of_singleton in Hin. discriminate Hin.
    - intros [Hk Hcl]. left. exists k.
      split; [apply elem_of_seq; lia |]. right. right. now split. }
  split.
  - intros k. rewrite Hclosed. unfold body_closed.
    destruct (fn k) as [[rsp|] [e|]]; split; intros [Hk H]; split;
      try assumption; try discriminate;
      try (destruct H as (rsp' & [=] & _); fail).
    + now exists rsp.
    + destruct H as (rsp' & [= <-] & Hr). exact Hr.
  - intros rsp k Hrsp Hn Hin. apply Hclosed in Hin as [_ Hcl].
    destruct (WithRetry_returned_response ctx retryConfig fn rsp Hrsp)
      as (_ & Hnr & k' & Hn' & Hfn).
    replace k' with k in Hfn by lia. rewrite Hfn in Hcl. simpl in Hcl.
    congruence.
Qed.

(** ** Requests and answers of [publish] *)

Lemma validate_recipients_valid (to : list (option Token)) :
  validate_recipients to = None <-> Forall (fun r => ~ nil_or_empty r) to.
Proof.
  split.
  - intros Hv. apply Forall_forall. intros r Hin.
    now apply (validate_recipients_accepts to Hv).
  - intros Hall. destruct (validate_recipients to) as [err|] eqn:Hv;
      [exfalso | reflexivity].
    induction to as [|[s|] to IH]; simpl in Hv; [discriminate | |].
    + apply Forall_cons in Hall as [Hs Hall].
      destruct (bool_decide_reflect (s = "")) as [-> | _].
      * apply Hs. now right.
      * now apply IH.
    + apply Forall_cons in Hall as [Hs _]. apply Hs. now left.
Qed.

Lemma validate_messages_valid (msgs : list Message) :
  validate_messages msgs = None <-> valid_batch msgs.
Proof.
  unfold valid_batch. induction msgs as [|m msgs IH]; simpl.
  - split; [constructor | reflexivity].
  - rewrite Forall_cons, <- IH, <- validate_recipients_valid.
    destruct (msg_To m) as [|r to] eqn:Hto.
    + simpl. split; [discriminate | intros [[Hne _] _]; contradiction].
    + simpl length. simpl Nat.eqb. cbv iota.
      destruct (validate_recipients (r :: to)) as [err|].
      * split; [discriminate | intros [[_ [=]] _]].
      * split; [intros Hv; repeat split; [discriminate | exact Hv]
               | intros [_ Hv]; exact Hv].
Qed.

Section PublishRequests.
Context `{F : Float64}.
Variable w : World.
Variable c : Client.
Variable msgs : list Message.

Lemma publish_trace :
  validate_messages msgs = None ->
  (length msgs <= maxNotificationsPerRequest)%nat ->
  snd (publish w c msgs)
  = snd (WithRetry (ctx_backoff w) (RetryConfig_ (cnf c))
                   (fun k => send w k (send_request c msgs))).
Proof.
  intros Hv Hlen. unfold publish. rewrite Hv.
  destruct (Nat.ltb_spec maxNotificationsPerRequest (length msgs)); [lia |].
  destruct (WithRetry _ _ _) as [[resp err] tr]. simpl.
  destruct err; [reflexivity |]. now destruct resp.
Qed.

Lemma publish_too_many :
  validate_messages msgs = None ->
  (maxNotificationsPerRequest < length msgs)%nat ->
  publish w c msgs
  = (Returns (None, Some (errorString
       ("too many notifications: " +:+ pretty (length msgs)
        +:+ " (maximum is " +:+ pretty maxNotificationsPerRequest +:+ ")"))),
     []).
Proof.
  intros Hv Hlen. unfold publish. rewrite Hv.
  now destruct (Nat.ltb_spec maxNotificationsPerRequest (length msgs)); [| lia].
Qed.

(** With no turn to take, [WithRetry] returns neither response nor error. *)
Lemma WithRetry_no_turn (ctx : Z -> Z -> option error)
    (retryConfig : option RetryConfig) (fn : nat -> RoundTrip) :
  budget retryConfig < 0 ->
  WithRetry ctx retryConfig fn = ((None, None), []).
Proof.
  intros HM. unfold WithRetry. fold (budget retryConfig).
  now replace (Z.to_nat (budget retryConfig + 1)) with 0%nat by lia.
Qed.

(** An answer that is not retried ends the call after one invocation. *)
Lemma WithRetry_first_answer (ctx : Z -> Z -> option error)
    (retryConfig : option RetryConfig) (fn : nat -> RoundTrip) :
  0 <= budget retryConfig -> retryable (fn 0%nat) = false ->
  WithRetry ctx retryConfig fn = (fn 0%nat, [EvAction 0]).
Proof.
  intros HM Hnr. unfold WithRetry. fold (budget retryConfig).
  destruct (Z.to_nat (budget retryConfig + 1)) as [|n'] eqn:Hn; [lia |].
  simpl. unfold retry_turn. simpl. change (Z.to_nat 0) with 0%nat.
  destruct (fn 0%nat) as [[rsp|] [e|]]; simpl in Hnr |- *;
    try discriminate; try reflexivity.
  now rewrite Hnr.
Qed.

(** When no wait is cancelled and every answer is retried, all turns are
    taken. *)
Lemma WithRetry_all_retried (ctx : Z -> Z -> option error)
    (retryConfig : option RetryConfig) (fn : nat -> RoundTrip) :
  (forall attempt backoff, ctx attempt backoff = None) ->
  (forall k, (k < Z.to_nat (budget retryConfig + 1))%nat ->
             retryable (fn k) = true) ->
  attempts_made ctx retryConfig fn = Z.to_nat (budget retryConfig + 1).
Proof.
  intros Hlive Hall.
  destruct (WithRetry_spec ctx retryConfig fn) as (_ & Hle & _).
  assert (Hreach : forall k, (k < Z.to_nat (budget retryConfig + 1))%nat ->
                             (k < attempts_made ctx retryConfig fn)%nat).
  { induction k as [|k IH]; intros Hk.
    - apply WithRetry_first_invocation. lia.
    - apply WithRetry_again; [apply IH; lia |].
      split; [apply Hall; lia |]. split; [lia |].
      unfold cancelled_at. now destruct (0 <? Z.of_nat (S k)). }
  destruct (Z.to_nat (budget retryConfig + 1)) as [|j] eqn:Hn; [lia |].
  specialize (Hreach j ltac:(lia)). lia.
Qed.

End PublishRequests.

(** X6. [publish] sends a request exactly when every message has a
    recipient, no recipient is nil or empty, the batch has at most 100
    messages and the retry configuration allows an attempt; the first thing
    it then does is the first invocation.  A batch that passes the checks
    on its messages but holds more than 100 of them is turned down with the
    too-many-notifications error, which names both numbers. *)
Theorem publish_sends_request_iff `{F : Float64} (w : World) (c : Client)
    (msgs : list Message) :
  (snd (publish w c msgs) <> [] <->
   valid_batch msgs /\ (length msgs <= 100)%nat /\
   0 <= budget (RetryConfig_ (cnf c))) /\
  (snd (publish w c msgs) <> [] ->
   exists rest, snd (publish w c msgs) = EvAction 0 :: rest) /\
  (valid_batch msgs -> (100 < length msgs)%nat ->
   publish w c msgs
   = (Returns (None, Some (errorString
        ("too many notifications: " +:+ pretty (length msgs)
         +:+ " (maximum is 100)"))), [])).
Proof.
  assert (Hcases :
    snd (publish w c msgs) = [] /\
      ~ (valid_batch msgs /\ (length msgs <= 100)%nat /\
         0 <= budget (RetryConfig_ (cnf c)))
    \/ (valid_batch msgs /\ (length msgs <= 100)%nat /\
        0 <= budget (RetryConfig_ (cnf c))) /\
       exists rest, snd (publish w c msgs) = EvAction 0 :: rest).
  { destruct (validate_messages msgs) as [err|] eqn:Hv.
    - left. rewrite (publish_invalid w c msgs err Hv).
      split; [reflexivity |]. intros [Hvalid _].
      apply validate_messages_valid in Hvalid. congruence.
    - pose proof (proj1 (validate_messages_valid msgs) Hv) as Hvalid.
      destruct (Nat.ltb_spec maxNotificationsPerRequest (length msgs))
        as [Hbig | Hsmall].
      + left. rewrite (publish_too_many w c msgs Hv Hbig).
        split; [reflexivity |]. unfold maxNotificationsPerRequest in Hbig. lia.
      + rewrite (publish_trace w c msgs Hv Hsmall).
        destruct (Z.lt_ge_cases (budget (RetryConfig_ (cnf c))) 0) as [Hneg | Hpos].
        * left. rewrite WithRetry_no_turn by exact Hneg.
          split; [reflexivity | lia].
        * right. split; [now repeat split |].
          destruct (WithRetry_trace (ctx_backoff w) (RetryConfig_ (cnf c))
                      (fun k => send w k (send_request c msgs)))
            as (tail & -> & _).
          pose proof (WithRetry_first_invocation (ctx_backoff w)
                        (RetryConfig_ (cnf c))
                        (fun k => send w k (send_request c msgs)) Hpos) as Hn.
          destruct (attempts_made _ _ _) as [|n]; [lia |].
          simpl. eexists. reflexivity. }
  split; [| split].
  - destruct Hcases as [[-> Hnot] | [Hyes [rest ->]]].
    + split; [intros Hne; now contradiction Hne | intros Hyes; contradiction].
    + split; [intros _; exact Hyes | discriminate].
  - destruct Hcases as [[-> _] | [_ Hrest]];
      [intros Hne; now contradiction Hne | intros _; exact Hrest].
  - intros Hvalid Hbig. apply publish_too_many.
    + now apply validate_messages_valid.
    + exact Hbig.
Qed.

(** X7. A retry configuration with a negative number of retries makes
    [publish] crash on any batch that passes its checks: the loop takes no
    turn, [WithRetry] hands back neither response nor error, and [publish]
    reaches for the body of the missing response; no request is sent. *)
Theorem publish_negative_retries_panics `{F : Float64} (w : World)
    (c : Client) (msgs : list Message) :
  valid_batch msgs -> (length msgs <= 100)%nat ->
  budget (RetryConfig_ (cnf c)) < 0 ->
  publish w c msgs = (Panics "nil pointer dereference: resp.Body", []).
Proof.
  intros Hvalid Hlen Hneg. unfold publish.
  rewrite (proj2 (validate_messages_valid msgs) Hvalid).
  destruct (Nat.ltb_spec maxNotificationsPerRequest (length msgs));
    [unfold maxNotificationsPerRequest in *; lia |].
  now rewrite WithRetry_no_turn by exact Hneg.
Qed.

Lemma publish_negative_retries_panics_witness :
  budget (RetryConfig_ (cnf no_attempt_client)) < 0 /\
  publish (replying (Some two_tickets)) no_attempt_client [two_tokens_message]
  = (Panics "nil pointer dereference: resp.Body", []).
Proof.
  split; [vm_compute; reflexivity |].
  apply (publish_negative_retries_panics
           (replying (Some two_tickets)) no_attempt_client
           [two_tokens_message]).
  - apply validate_messages_valid. reflexivity.
  - simpl. lia.
  - vm_compute. reflexivity.
Defined.

(** X8. When every attempt of a batch is answered with a transport error
    or a retried status and no wait is cancelled, [publish] sends one
    request more than the number of retries and then returns no tickets and
    the error recorded for the last answer: the transport error, or the
    "retryable error" marker that carries the last response. *)
Theorem publish_retries_exhausted `{F : Float64} (w : World) (c : Client)
    (msgs : list Message) :
  valid_batch msgs -> (length msgs <= 100)%nat ->
  0 <= budget (RetryConfig_ (cnf c)) ->
  (forall attempt backoff, ctx_backoff w attempt backoff = None) ->
  (forall k, Z.of_nat k <= budget (RetryConfig_ (cnf c)) ->
             retryable (send w k (send_request c msgs)) = true) ->
  fst (publish w c msgs)
  = Returns (None, recorded_error
                     (send w (Z.to_nat (budget (RetryConfig_ (cnf c))))
                           (send_request c msgs))) /\
  recorded_error (send w (Z.to_nat (budget (RetryConfig_ (cnf c))))
                       (send_request c msgs)) <> None /\
  invocations (snd (publish w c msgs))
  = seq 0 (Z.to_nat (budget (RetryConfig_ (cnf c)) + 1)).
Proof.
  intros Hvalid Hlen HM Hlive Hall.
  pose proof (proj2 (validate_messages_valid msgs) Hvalid) as Hv.
  assert (Hall' : forall k,
            (k < Z.to_nat (budget (RetryConfig_ (cnf c)) + 1))%nat ->
            retryable (send w k (send_request c msgs)) = true)
    by (intros k Hk; apply Hall; lia).
  pose proof (WithRetry_all_retried (ctx_backoff w) (RetryConfig_ (cnf c))
                (fun k => send w k (send_request c msgs)) Hlive Hall') as Hn.
  pose proof (WithRetry_exhausted (ctx_backoff w) (RetryConfig_ (cnf c))
                (fun k => send w k (send_request c msgs)) Hn) as Hres.
  rewrite Hn in Hres. specialize (Hres Hall').
  destruct (WithRetry_spec (ctx_backoff w) (RetryConfig_ (cnf c))
              (fun k => send w k (send_request c msgs))) as (Hseq & _).
  rewrite Hn in Hseq.
  assert (Hlast : last_recorded (fun k => send w k (send_request c msgs)) None 0
                    (Z.to_nat (budget (RetryConfig_ (cnf c)) + 1))
                  = recorded_error
                      (send w (Z.to_nat (budget (RetryConfig_ (cnf c))))
                            (send_request c msgs))).
  { replace (Z.to_nat (budget (RetryConfig_ (cnf c)) + 1))
      with (S (Z.to_nat (budget (RetryConfig_ (cnf c))))) by lia.
    reflexivity. }
  rewrite Hlast in Hres.
  assert (Hsome : recorded_error
                    (send w (Z.to_nat (budget (RetryConfig_ (cnf c))))
                          (send_request c msgs)) <> None).
  { apply recorded_error_retryable, Hall. lia. }
  split; [| split; [exact Hsome |]].
  - unfold publish. rewrite Hv.
    destruct (Nat.ltb_spec maxNotificationsPerRequest (length msgs));
      [unfold maxNotificationsPerRequest in *; lia |].
    destruct (WithRetry _ _ _) as [[resp err] tr]. simpl in Hres.
    injection Hres as -> ->.
    destruct (recorded_error _); [reflexivity | contradiction].
  - rewrite (publish_trace w c msgs Hv) by
      (unfold maxNotificationsPerRequest; lia).
    exact Hseq.
Qed.

Lemma publish_retries_exhausted_witness :
  fst (publish (answering busy_action) sample_client [two_tokens_message])
  = Returns (None, recorded_error (busy_action 3)) /\
  invocations (snd (publish (answering busy_action) sample_client
                            [two_tokens_message]))
  = [0; 1; 2; 3]%nat.
Proof.
  destruct (publish_retries_exhausted (answering busy_action) sample_client
              [two_tokens_message]) as (Hres & _ & Hinv).
  - apply validate_messages_valid. reflexivity.
  - simpl. lia.
  - vm_compute. discriminate.
  - reflexivity.
  - reflexivity.
  - split; [exact Hres | exact Hinv].
Defined.

(** X9. When the first answer to a batch is a response whose status is
    neither 2xx nor one of the retried ones, [publish] makes that one
    request and returns no tickets and the invalid-response error, which
    names the status code and text. *)
Theorem publish_status_error `{F : Float64} (w : World) (c : Client)
    (msgs : list Message) (rsp : HttpResponse) :
  valid_batch msgs -> (length msgs <= 100)%nat ->
  0 <= budget (RetryConfig_ (cnf c)) ->
  send w 0%nat (send_request c msgs) = (Some rsp, None) ->
  IsRetryableError (StatusCode rsp) = false ->
  ~ (200 <= StatusCode rsp <= 299) ->
  publish w c msgs
  = (Returns (None, Some (errorString
       ("invalid response (" +:+ pretty (StatusCode rsp) +:+ " "
        +:+ Status rsp +:+ ")"))), [EvAction 0]).
Proof.
  intros Hvalid Hlen HM Hsend Hnr Hstatus. unfold publish.
  rewrite (proj2 (validate_messages_valid msgs) Hvalid).
  destruct (Nat.ltb_spec maxNotificationsPerRequest (length msgs));
    [unfold maxNotificationsPerRequest in *; lia |].
  rewrite WithRetry_first_answer; [| exact HM | now rewrite Hsend].
  rewrite Hsend. unfold publish_reply, checkStatus.
  destruct (Z.leb_spec 200 (StatusCode rsp));
    destruct (Z.leb_spec (StatusCode rsp) 299); simpl;
    try reflexivity. lia.
Qed.

Lemma publish_status_error_witness :
  publish (answering (fun _ => (Some (http_status 404 "404 Not Found"), None)))
          sample_client [two_tokens_message]
  = (Returns (None, Some (errorString "invalid response (404 404 Not Found)")),
     [EvAction 0]).
Proof.
  apply (publish_status_error
           (answering (fun _ => (Some (http_status 404 "404 Not Found"), None)))
           sample_client [two_tokens_message]
           (http_status 404 "404 Not Found")).
  - apply validate_messages_valid. reflexivity.
  - simpl. lia.
  - vm_compute. discriminate.
  - reflexivity.
  - reflexivity.
  - simpl. lia.
Defined.

(** X10. [publish] returns tickets or an error, never both and never
    neither; [PublishSingle] is [publish] on the batch of its one message,
    and when it succeeds it returns as many tickets as the message has
    recipients. *)
Theorem publish_tickets_or_error `{F : Float64} (w : World) (c : Client) :
  (forall msgs tickets err tr,
     publish w c msgs = (Returns (tickets, err), tr) ->
     (tickets = None /\ err <> None) \/ (tickets <> None /\ err = None)) /\
  (forall msg, PublishSingle w c msg = publish w c [msg]) /\
  (forall msg tickets tr,
     PublishSingle w c msg = (Returns (Some tickets, None), tr) ->
     length tickets = length (msg_To msg)).
Proof.
  assert (Hexcl : forall msgs tickets err tr,
            publish w c msgs = (Returns (tickets, err), tr) ->
            (tickets = None /\ err <> None) \/ (tickets <> None /\ err = None)).
  { intros msgs tickets err tr. unfold publish.
    destruct (validate_messages msgs);
      [intros [= <- <- _]; left; now split |].
    destruct (maxNotificationsPerRequest <? length msgs)%nat;
      [intros [= <- <- _]; left; now split |].
    destruct (WithRetry _ _ _) as [[resp e] tr0].
    destruct e; [intros [= <- <- _]; left; now split |].
    destruct resp as [rsp|]; [| intros [=]].
    unfold publish_reply.
    destruct (checkStatus rsp); [intros [= <- <- _]; left; now split |].
    destruct (as_Response (RespBody rsp)) as [e|[r|]];
      [intros [= <- <- _]; left; now split | | intros [=]].
    destruct (rsp_Errors r); [intros [= <- <- _]; left; now split |].
    destruct (rsp_Data r) as [data|];
      [| intros [= <- <- _]; left; now split].
    destruct (negb _); [intros [= <- <- _]; left; now split |].
    destruct (assign data (expand msgs)); intros [= <- <- _].
    right. now split. }
  assert (Hsingle : forall msg, PublishSingle w c msg = publish w c [msg]).
  { intros msg. unfold PublishSingle.
    destruct (publish w c [msg]) as [[[tickets err]|why] tr] eqn:Hp;
      [| reflexivity].
    destruct (Hexcl _ _ _ _ Hp) as [[-> Herr] | [_ ->]]; [| reflexivity].
    now destruct err. }
  split; [exact Hexcl |]. split; [exact Hsingle |].
  intros msg tickets tr. rewrite Hsingle. intros Hp.
  destruct (publish_success w c [msg] tickets tr Hp)
    as (_ & rsp & r & data & _ & _ & _ & _ & Hlen & Ha).
  destruct (assign_returns data (expand [msg]) tickets Ha) as [Hlt _].
  rewrite Hlt, <- Hlen, expand_length. simpl. lia.
Qed.

(** ** Requests of [GetPushReceipts] *)

Lemma success_status_not_retried (statusCode : Z) :
  IsRetryableError statusCode = true -> ~ (200 <= statusCode <= 299).
Proof.
  intros Hr. apply IsRetryableError_codes in Hr. simpl in Hr.
  destruct Hr as [<-|[<-|[<-|[<-|[<-|[]]]]]]; lia.
Qed.

(** X11. [GetPushReceipts] sends its one request exactly when it is given
    between 1 and 1000 identifiers, and never more than one.  For no
    identifier it returns an empty map and no error; for more than 1000 it
    returns no map and the too-many-ticket-IDs error, which names both
    numbers. *)
Theorem GetPushReceipts_requests `{F : Float64} (w : World) (c : Client)
    (ticketIDs : list string) :
  (snd (GetPushReceipts w c ticketIDs)
   = [EvGetReceipts (receipts_request c ticketIDs)] <->
   (1 <= length ticketIDs <= 1000)%nat) /\
  (snd (GetPushReceipts w c ticketIDs) = [] <->
   ticketIDs = [] \/ (1000 < length ticketIDs)%nat) /\
  (ticketIDs = [] ->
   GetPushReceipts w c ticketIDs = (Returns (Some ∅, None), [])) /\
  ((1000 < length ticketIDs)%nat ->
   GetPushReceipts w c ticketIDs
   = (Returns (None, Some (errorString
        ("too many ticket IDs: " +:+ pretty (length ticketIDs)
         +:+ " (maximum is 1000)"))), [])).
Proof.
  unfold GetPushReceipts, maxReceiptsPerRequest.
  destruct ticketIDs as [|id ids].
  - simpl. repeat split; try discriminate; try (intros; lia); auto.
  - simpl length. simpl Nat.eqb. cbv iota.
    destruct (Nat.ltb_spec 1000 (S (length ids))) as [Hbig | Hsmall].
    + repeat split; try discriminate; try (intros; lia); auto.
    + destruct (fetch w (receipts_request c (id :: ids))) as [resp err]. simpl.
      repeat split; try discriminate; try (intros; lia).
      intros [[=] | Hbig]. lia.
Qed.

(** X12. [GetPushReceipts] does not retry: a response with one of the
    statuses that [publish] retries is answered, after the one request,
    with the invalid-response error. *)
Theorem GetPushReceipts_no_retry `{F : Float64} (w : World) (c : Client)
    (ticketIDs : list string) (rsp : HttpResponse) :
  (1 <= length ticketIDs <= 1000)%nat ->
  fetch w (receipts_request c ticketIDs) = (Some rsp, None) ->
  IsRetryableError (StatusCode rsp) = true ->
  GetPushReceipts w c ticketIDs
  = (Returns (None, Some (errorString
       ("invalid response (" +:+ pretty (StatusCode rsp) +:+ " "
        +:+ Status rsp +:+ ")"))),
     [EvGetReceipts (receipts_request c ticketIDs)]).
Proof.
  intros Hlen Hfetch Hr. unfold GetPushReceipts, maxReceiptsPerRequest.
  destruct (Nat.eqb_spec (length ticketIDs) 0); [lia |].
  destruct (Nat.ltb_spec 1000 (length ticketIDs)); [lia |].
  rewrite Hfetch. unfold checkStatus.
  pose proof (success_status_not_retried _ Hr) as Hns.
  destruct (Z.leb_spec 200 (StatusCode rsp));
    destruct (Z.leb_spec (StatusCode rsp) 299); simpl;
    try reflexivity. lia.
Qed.

Lemma GetPushReceipts_no_retry_witness :
  GetPushReceipts
    (quiet_world (fun _ => (None, None))
       (Some (http_status 503 "503 Service Unavailable"), None))
    sample_client ["id-1"]
  = (Returns (None, Some (errorString
       "invalid response (503 503 Service Unavailable)")),
     [EvGetReceipts (receipts_request sample_client ["id-1"])]).
Proof.
  apply (GetPushReceipts_no_retry
           (quiet_world (fun _ => (None, None))
              (Some (http_status 503 "503 Service Unavailable"), None))
           sample_client ["id-1"]
           (http_status 503 "503 Service Unavailable")).
  - simpl. lia.
  - reflexivity.
  - reflexivity.
Defined.

(** ** Receipts in the workflow *)

Lemma match_receipt_missing
    (receipts : option (gmap string (option PushReceipt))) (res : PushResult) :
  lookup_receipt receipts (pr_TicketID res) = None ->
  match_receipt receipts res = Returns res.
Proof.
  unfold lookup_receipt, match_receipt. intros ->.
  now destruct (bool_decide (pr_TicketID res = "")).
Qed.

Lemma match_receipt_present
    (receipts : option (gmap string (option PushReceipt))) (res : PushResult)
    (receipt : PushReceipt) :
  pr_TicketID res <> "" ->
  lookup_receipt receipts (pr_TicketID res) = Some (Some receipt) ->
  match_receipt receipts res
  = Returns
      {| pr_TicketID := pr_TicketID res; pr_Message := pr_Message res;
         pr_PushTicket := pr_PushTicket res; pr_PushReceipt := Some receipt;
         pr_Error :=
           if negb (rc_IsOk receipt)
           then Some (errorString
                        ("push receipt error: " +:+ rc_Message receipt))
           else pr_Error res |}.
Proof.
  unfold lookup_receipt, match_receipt. intros Hid ->.
  now destruct (bool_decide_reflect (pr_TicketID res = "")).
Qed.

Lemma match_receipt_nil
    (receipts : option (gmap string (option PushReceipt))) (res : PushResult) :
  pr_TicketID res <> "" ->
  lookup_receipt receipts (pr_TicketID res) = Some None ->
  match_receipt receipts res = Panics "nil pointer dereference: receipt.Status".
Proof.
  unfold lookup_receipt, match_receipt. intros Hid ->.
  now destruct (bool_decide_reflect (pr_TicketID res = "")).
Qed.

(** Step 5 keeps the identifier, the message and the ticket of a result. *)
Lemma match_receipt_keeps
    (receipts : option (gmap string (option PushReceipt)))
    (res res' : PushResult) :
  match_receipt receipts res = Returns res' ->
  pr_TicketID res' = pr_TicketID res /\ pr_Message res' = pr_Message res /\
  pr_PushTicket res' = pr_PushTicket res.
Proof.
  unfold match_receipt.
  destruct (bool_decide (pr_TicketID res = "")); [now intros [= <-] |].
  destruct (receipts ≫= _) as [[receipt|]|]; [| discriminate | now intros [= <-]].
  now intros [= <-].
Qed.

Lemma match_receipts_positions
    (receipts : option (gmap string (option PushReceipt)))
    (results : list PushResult) :
  forall results', match_receipts receipts results = Returns results' ->
  length results' = length results /\
  forall i res, results !! i = Some res ->
    exists res', results' !! i = Some res' /\
                 match_receipt receipts res = Returns res'.
Proof.
  induction results as [|res0 results IH]; intros results'; simpl.
  - intros [= <-]. split; [reflexivity |]. intros i res Hi. discriminate Hi.
  - destruct (match_receipt receipts res0) as [res0'|why] eqn:H0;
      [| discriminate].
    destruct (match_receipts receipts results) as [rest'|why] eqn:Hrest;
      [| discriminate].
    intros [= <-]. destruct (IH rest' eq_refl) as [Hlen Hpos].
    split; [simpl; now rewrite Hlen |].
    intros [|i] res Hi; simpl in Hi |- *.
    + injection Hi as <-. now exists res0'.
    + now apply Hpos.
Qed.

Lemma match_receipts_total
    (receipts : option (gmap string (option PushReceipt)))
    (results : list PushResult) :
  Forall (fun res => pr_TicketID res <> "" ->
                     lookup_receipt receipts (pr_TicketID res) <> Some None)
         results ->
  exists results', match_receipts receipts results = Returns results'.
Proof.
  induction 1 as [|res results Hres _ IH]; simpl; [now eexists |].
  destruct IH as [rest' ->].
  assert (Hone : exists res', match_receipt receipts res = Returns res').
  { unfold match_receipt, lookup_receipt in *.
    destruct (bool_decide_reflect (pr_TicketID res = "")) as [|Hid];
      [now eexists |].
    specialize (Hres Hid).
    destruct (receipts ≫= _) as [[receipt|]|];
      [now eexists | contradiction | now eexists]. }
  destruct Hone as [res' ->]. now eexists.
Qed.

Lemma match_receipts_nil_receipt
    (receipts : option (gmap string (option PushReceipt)))
    (results : list PushResult) (res : PushResult) :
  res ∈ results -> pr_TicketID res <> "" ->
  lookup_receipt receipts (pr_TicketID res) = Some None ->
  exists why, match_receipts receipts results = Panics why.
Proof.
  intros Hin Hid Hnil. induction results as [|res0 results IH]; simpl.
  - inversion Hin.
  - apply elem_of_cons in Hin as [<- | Hin].
    + rewrite (match_receipt_nil receipts res Hid Hnil). now eexists.
    + destruct (match_receipt receipts res0); [| now eexists].
      destruct (IH Hin) as [why ->]. now eexists.
Qed.

Section WorkflowReceipts.
Context `{F : Float64}.
Variable w : World.
Variable c : Client.
Variable messages : list Message.
Variable receiptDelay : Z.
Variable responses : list MessageResponse.
Variable tr tr' : list Event.
Variable receipts : option (gmap string (option PushReceipt)).
Hypothesis published :
  Publish w c messages = (Returns (Some responses, None), tr).
Hypothesis some_eligible : collect_ticketIDs responses <> [].
Hypothesis not_cancelled :
  ctx_delay w (effective_delay receiptDelay) = None.
Hypothesis fetched :
  GetPushReceipts w c (collect_ticketIDs responses)
  = (Returns (receipts, None), tr').

Lemma workflow_matching :
  SendPushNotificationsWithReceipts w c messages receiptDelay
  = (match match_receipts receipts (map ticket_result responses) with
     | Panics why => Panics why
     | Returns results' => Returns (Some results', None)
     end,
     tr ++ EvReceiptDelay (effective_delay receiptDelay) :: tr').
Proof.
  exact (workflow_fetch w c messages receiptDelay responses tr published
           _ tr' some_eligible not_cancelled fetched).
Qed.

End WorkflowReceipts.

(** X13. When the tickets were published, the wait was not cancelled and
    the receipts were fetched (no requested identifier holding a nil
    receipt), the workflow returns one result per ticket, in order, and no
    error.  A ticket that did not go on keeps its terminal entry.  A ticket
    that went on gets the receipt stored under its identifier, and the
    receipt error exactly when that receipt's status is not ok; when no
    receipt is stored under its identifier it stays without receipt and
    without error. *)
Theorem workflow_receipts_attached `{F : Float64} (w : World) (c : Client)
    (messages : list Message) (receiptDelay : Z)
    (responses : list MessageResponse) (tr tr' : list Event)
    (receipts : option (gmap string (option PushReceipt))) :
  Publish w c messages = (Returns (Some responses, None), tr) ->
  collect_ticketIDs responses <> [] ->
  ctx_delay w (effective_delay receiptDelay) = None ->
  GetPushReceipts w c (collect_ticketIDs responses)
  = (Returns (receipts, None), tr') ->
  (forall t, t ∈ responses -> eligible t ->
             lookup_receipt receipts (tk_ID t) <> Some None) ->
  exists results,
    SendPushNotificationsWithReceipts w c messages receiptDelay
    = (Returns (Some results, None),
       tr ++ EvReceiptDelay (effective_delay receiptDelay) :: tr') /\
    length results = length responses /\
    forall i t, responses !! i = Some t ->
      exists res,
        results !! i = Some res /\
        pr_PushTicket res = Some t /\ pr_Message res = tk_MessageItem t /\
        (~ eligible t -> res = terminal_result t) /\
        (eligible t ->
         pr_TicketID res = tk_ID t /\
         match lookup_receipt receipts (tk_ID t) with
         | Some (Some receipt) =>
           pr_PushReceipt res = Some receipt /\
           pr_Error res
           = if rc_IsOk receipt then None
             else Some (errorString
                          ("push receipt error: " +:+ rc_Message receipt))
         | _ => pr_PushReceipt res = None /\ pr_Error res = None
         end).
Proof.
  intros Hp Hne Hctx Hf Hnonnil.
  rewrite (workflow_matching w c messages receiptDelay responses tr tr'
             receipts Hp Hne Hctx Hf).
  destruct (match_receipts_total receipts (map ticket_result responses))
    as [results Hm].
  { apply Forall_forall. intros res Hin.
    apply list_elem_of_fmap in Hin as (t & -> & Hin).
    unfold ticket_result. destruct (has_ticket_id t) eqn:Hid; simpl.
    - intros _. apply Hnonnil; [exact Hin | now apply has_ticket_id_eligible].
    - intros Hempty. now contradiction Hempty. }
  rewrite Hm. exists results. split; [reflexivity |].
  destruct (match_receipts_positions receipts _ results Hm) as [Hlen Hpos].
  split; [now rewrite Hlen, length_map |].
  intros i t Hi.
  destruct (Hpos i (ticket_result t)) as (res & Hres & Hone).
  { now rewrite list_lookup_fmap, Hi. }
  exists res. split; [exact Hres |].
  destruct (match_receipt_keeps receipts _ res Hone) as (Hid & Hmsg & Htk).
  destruct (ticket_result_no_receipt t) as [Hrc0 Htk0].
  split; [congruence |].
  split; [rewrite Hmsg; unfold ticket_result; now destruct (has_ticket_id t) |].
  split.
  - intros Hnel. rewrite (ticket_result_terminal t Hnel) in Hone.
    rewrite match_receipt_terminal in Hone by reflexivity. congruence.
  - intros Hel. rewrite (ticket_result_eligible t Hel) in Hone, Hid.
    simpl in Hid. split; [exact Hid |].
    destruct Hel as [_ Hidne].
    destruct (lookup_receipt receipts (tk_ID t)) as [[receipt|]|] eqn:Hl.
    + rewrite (match_receipt_present receipts _ receipt) in Hone
        by (simpl; assumption).
      injection Hone as <-. simpl. split; [reflexivity |].
      now destruct (rc_IsOk receipt).
    + rewrite match_receipt_nil in Hone by (simpl; assumption). discriminate.
    + rewrite match_receipt_missing in Hone by (simpl; assumption).
      injection Hone as <-. now split.
Qed.

Lemma workflow_receipts_attached_witness :
  exists results,
    SendPushNotificationsWithReceipts
      (serving mixed_reply unregistered_reply) sample_client
      [two_tokens_message] 0
    = (Returns (Some results, None),
       [EvAction 0] ++ EvReceiptDelay (effective_delay 0)
         :: [EvGetReceipts (receipts_request sample_client ["id-1"])]) /\
    length results = 2%nat.
Proof.
  destruct (workflow_receipts_attached
              (serving mixed_reply unregistered_reply) sample_client
              [two_tokens_message] 0 mixed_tickets [EvAction 0]
              [EvGetReceipts (receipts_request sample_client ["id-1"])]
              (rr_Data unregistered_reply))
    as (results & Hw & Hlen & _).
  - reflexivity.
  - discriminate.
  - reflexivity.
  - reflexivity.
  - intros t Hin [Hok _].
    apply elem_of_cons in Hin as [-> | Hin]; [discriminate |].
    apply list_elem_of_singleton in Hin as ->. discriminate Hok.
  - exists results. split; [exact Hw | exact Hlen].
Defined.

(** X14. When the fetched receipts hold a nil receipt under the identifier
    of a ticket that went on to the fetch, the workflow crashes while it
    matches receipts to results: it reads the status of the nil receipt. *)
Theorem workflow_nil_receipt_panics `{F : Float64} (w : World) (c : Client)
    (messages : list Message) (receiptDelay : Z)
    (responses : list MessageResponse) (tr tr' : list Event)
    (receipts : option (gmap string (option PushReceipt))) :
  Publish w c messages = (Returns (Some responses, None), tr) ->
  ctx_delay w (effective_delay receiptDelay) = None ->
  GetPushReceipts w c (collect_ticketIDs responses)
  = (Returns (receipts, None), tr') ->
  (exists t, t ∈ responses /\ eligible t /\
             lookup_receipt receipts (tk_ID t) = Some None) ->
  exists why,
    SendPushNotificationsWithReceipts w c messages receiptDelay
    = (Panics why, tr ++ EvReceiptDelay (effective_delay receiptDelay) :: tr').
Proof.
  intros Hp Hctx Hf (t & Hin & Hel & Hnil).
  assert (Hne : collect_ticketIDs responses <> []).
  { intros Hempty.
    assert (Hid : tk_ID t ∈ collect_ticketIDs responses)
      by (apply collect_ticketIDs_elem; now exists t).
    rewrite Hempty in Hid. inversion Hid. }
  rewrite (workflow_matching w c messages receiptDelay responses tr tr'
             receipts Hp Hne Hctx Hf).
  destruct (match_receipts_nil_receipt receipts (map ticket_result responses)
              (ticket_result t)) as [why ->].
  - apply list_elem_of_fmap. now exists t.
  - rewrite (ticket_result_eligible t Hel). simpl. now destruct Hel.
  - rewrite (ticket_result_eligible t Hel). simpl. exact Hnil.
  - now exists why.
Qed.

Lemma workflow_nil_receipt_panics_witness :
  exists why,
    SendPushNotificationsWithReceipts
      (serving mixed_reply nil_receipt_reply) sample_client
      [two_tokens_message] 0
    = (Panics why,
       [EvAction 0] ++ EvReceiptDelay (effective_delay 0)
         :: [EvGetReceipts (receipts_request sample_client ["id-1"])]).
Proof.
  apply (workflow_nil_receipt_panics
           (serving mixed_reply nil_receipt_reply) sample_client
           [two_tokens_message] 0 mixed_tickets [EvAction 0]
           [EvGetReceipts (receipts_request sample_client ["id-1"])]
           (rr_Data nil_receipt_reply)); try reflexivity.
  exists (set_MessageItem (ticket "id-1" "ok" "") two_tokens_message).
  split; [apply elem_of_cons; now left |].
  split; [split; [reflexivity | discriminate] | reflexivity].
Defined.

(** Whatever list of results the workflow returns is the list built from
    the tickets, or that list after the receipts were matched. *)
Lemma workflow_results_from `{F : Float64} (w : World) (c : Client)
    (messages : list Message) (receiptDelay : Z)
    (responses : list MessageResponse) (tr : list Event)
    (results : list PushResult) (err : option error) :
  Publish w c messages = (Returns (Some responses, None), tr) ->
  fst (SendPushNotificationsWithReceipts w c messages receiptDelay)
  = Returns (Some results, err) ->
  results = map ticket_result responses \/
  exists receipts,
    match_receipts receipts (map ticket_result responses) = Returns results.
Proof.
  intros Hp.
  destruct (collect_ticketIDs responses) as [|id ids] eqn:Hids.
  - rewrite (workflow_nothing_to_fetch w c messages receiptDelay responses tr
               Hp Hids). simpl. intros [= <- _]. now left.
  - assert (Hne : collect_ticketIDs responses <> [])
      by (rewrite Hids; discriminate).
    destruct (ctx_delay w (effective_delay receiptDelay)) as [e|] eqn:Hctx.
    + rewrite (workflow_cancelled w c messages receiptDelay responses tr Hp
                 e Hne Hctx). simpl. intros [= <- _]. now left.
    + destruct (GetPushReceipts w c (collect_ticketIDs responses))
        as [fetched tr'] eqn:Hf.
      rewrite (workflow_fetch w c messages receiptDelay responses tr Hp
                 fetched tr' Hne Hctx Hf). simpl.
      destruct fetched as [[receipts [e|]]|why]; [| | discriminate].
      * intros [= <- _]. now left.
      * destruct (match_receipts receipts (map ticket_result responses))
          as [results'|why] eqn:Hm; [| discriminate].
        intros [= <- _]. right. now exists receipts.
Qed.

(** X15. Every list of results that the workflow returns, on whatever
    path, follows the tickets position by position: the entry at index [i]
    holds the ticket at index [i], the message that produced entry [i] of
    the expansion, and the ticket's identifier when the ticket went on to
    the fetch (the empty identifier otherwise). *)
Theorem workflow_results_positional `{F : Float64} (w : World) (c : Client)
    (messages : list Message) (receiptDelay : Z)
    (responses : list MessageResponse) (tr : list Event)
    (results : list PushResult) (err : option error) :
  Publish w c messages = (Returns (Some responses, None), tr) ->
  fst (SendPushNotificationsWithReceipts w c messages receiptDelay)
  = Returns (Some results, err) ->
  length results = length (expand messages) /\
  forall i t, responses !! i = Some t ->
    exists res m,
      results !! i = Some res /\ pr_PushTicket res = Some t /\
      expand messages !! i = Some m /\ pr_Message res = Some m /\
      pr_TicketID res = if has_ticket_id t then tk_ID t else "".
Proof.
  intros Hp Hres.
  destruct (publish_success w c messages responses tr Hp)
    as (_ & rsp & r & data & _ & _ & _ & _ & Hlen & Ha).
  destruct (assign_returns data (expand messages) responses Ha) as [Hlt Hpos].
  assert (Hbuilt : forall i t, responses !! i = Some t ->
            exists m, expand messages !! i = Some m /\
                      pr_PushTicket (ticket_result t) = Some t /\
                      pr_Message (ticket_result t) = Some m /\
                      pr_TicketID (ticket_result t)
                      = if has_ticket_id t then tk_ID t else "").
  { intros i t Hi. destruct (Hpos i t Hi) as (t0 & m & _ & Hm & ->).
    exists m. split; [exact Hm |]. unfold ticket_result.
    now destruct (has_ticket_id (set_MessageItem t0 m)). }
  destruct (workflow_results_from w c messages receiptDelay responses tr
              results err Hp Hres) as [-> | (receipts & Hm)].
  - split; [rewrite length_map; congruence |].
    intros i t Hi. destruct (Hbuilt i t Hi) as (m & Hm & Htk & Hmsg & Hid).
    exists (ticket_result t), m.
    rewrite list_lookup_fmap, Hi. now repeat split.
  - destruct (match_receipts_positions receipts _ results Hm) as [Hl Hp'].
    split; [rewrite Hl, length_map; congruence |].
    intros i t Hi. destruct (Hbuilt i t Hi) as (m & Hm' & Htk & Hmsg & Hid).
    destruct (Hp' i (ticket_result t)) as (res & Hri & Hone).
    { now rewrite list_lookup_fmap, Hi. }
    destruct (match_receipt_keeps receipts _ res Hone) as (Hid' & Hmsg' & Htk').
    exists res, m. repeat split; congruence.
Qed.

Lemma workflow_results_positional_witness :
  length (map ticket_result mixed_tickets)
  = length (expand [two_tokens_message]).
Proof.
  exact (proj1 (workflow_results_positional
    (replying (Some mixed_reply)) sample_client [two_tokens_message] 0
    mixed_tickets [EvAction 0] (map ticket_result mixed_tickets)
    (Some (wrapError "failed to fetch push receipts: "
                     (foreignError "connection refused")))
    eq_refl eq_refl)).
Defined.

(** The trace of [publish] holds events of the retry loop only. *)
Lemma publish_trace_retry_events `{F : Float64} (w : World) (c : Client)
    (msgs : list Message) (ev : Event) :
  ev ∈ snd (publish w c msgs) -> retry_event ev.
Proof.
  destruct (validate_messages msgs) as [e|] eqn:Hv.
  - unfold publish. rewrite Hv. simpl. intros Hin. inversion Hin.
  - destruct (Nat.ltb_spec maxNotificationsPerRequest (length msgs))
      as [Hlt | Hle].
    + rewrite (publish_too_many w c msgs Hv Hlt). simpl.
      intros Hin. inversion Hin.
    + rewrite (publish_trace w c msgs Hv Hle).
      destruct (WithRetry_trace (ctx_backoff w) (RetryConfig_ (cnf c))
                  (fun k => send w k (send_request c msgs)))
        as (tail & -> & Htail).
      intros Hin. apply elem_of_app in Hin as [Hin | Hin].
      * apply elem_of_turn_events in Hin
          as (k & _ & [-> | [[_ ->] | [_ ->]]]); exact I.
      * destruct Htail as [-> | [_ ->]]; [inversion Hin |].
        apply list_elem_of_singleton in Hin as ->. exact I.
Qed.

(** When [publish] did not return tickets without an error, the workflow
    adds nothing to its trace. *)
Lemma workflow_publish_failed `{F : Float64} (w : World) (c : Client)
    (messages : list Message) (receiptDelay : Z) :
  (forall responses tr,
     Publish w c messages <> (Returns (Some responses, None), tr)) ->
  snd (SendPushNotificationsWithReceipts w c messages receiptDelay)
  = snd (Publish w c messages).
Proof.
  intros Hfail. unfold SendPushNotificationsWithReceipts.
  destruct (Publish w c messages) as [[[responses [err|]]|why] tr] eqn:Hp;
    try reflexivity.
  destruct responses as [responses|].
  - now destruct (Hfail responses tr).
  - now destruct (publish_abort_has_error w c messages None tr Hp).
Qed.

(** [GetPushReceipts] leaves a request in its trace only for 1 to 1000
    identifiers. *)
Lemma GetPushReceipts_sent `{F : Float64} (w : World) (c : Client)
    (ticketIDs : list string) (ev : Event) :
  ev ∈ snd (GetPushReceipts w c ticketIDs) ->
  (1 <= length ticketIDs <= maxReceiptsPerRequest)%nat /\
  snd (GetPushReceipts w c ticketIDs)
  = [EvGetReceipts (receipts_request c ticketIDs)].
Proof.
  unfold GetPushReceipts.
  destruct (Nat.eqb_spec (length ticketIDs) 0);
    [intros Hin; inversion Hin |].
  destruct (Nat.ltb_spec maxReceiptsPerRequest (length ticketIDs));
    [intros Hin; inversion Hin |].
  destruct (fetch w (receipts_request c ticketIDs)) as [resp err].
  intros _. split; [lia | reflexivity].
Qed.

Lemma GetPushReceipts_in_range `{F : Float64} (w : World) (c : Client)
    (ticketIDs : list string) :
  (1 <= length ticketIDs <= maxReceiptsPerRequest)%nat ->
  snd (GetPushReceipts w c ticketIDs)
  = [EvGetReceipts (receipts_request c ticketIDs)].
Proof.
  intros Hlen. unfold GetPushReceipts.
  destruct (Nat.eqb_spec (length ticketIDs) 0); [lia |].
  destruct (Nat.ltb_spec maxReceiptsPerRequest (length ticketIDs)); [lia |].
  now destruct (fetch w (receipts_request c ticketIDs)) as [resp err].
Qed.

Lemma GetPushReceipts_too_many `{F : Float64} (w : World) (c : Client)
    (ticketIDs : list string) :
  (maxReceiptsPerRequest < length ticketIDs)%nat ->
  GetPushReceipts w c ticketIDs
  = (Returns (None, Some (errorString
       ("too many ticket IDs: " +:+ pretty (length ticketIDs)
        +:+ " (maximum is " +:+ pretty maxReceiptsPerRequest +:+ ")"))), []).
Proof.
  intros Hlen. unfold GetPushReceipts.
  destruct (Nat.eqb_spec (length ticketIDs) 0); [lia |].
  now destruct (Nat.ltb_spec maxReceiptsPerRequest (length ticketIDs));
    [| lia].
Qed.

(** X16. The workflow asks for receipts exactly when [publish] returned
    tickets without an error, between 1 and 1000 of them have status ok and
    an identifier, and the wait was not cancelled.  The request then is the
    one for the collected identifiers and is the last thing the workflow
    does, right after the wait. *)
Theorem workflow_fetch_iff `{F : Float64} (w : World) (c : Client)
    (messages : list Message) (receiptDelay : Z) :
  ((exists req,
      EvGetReceipts req
      ∈ snd (SendPushNotificationsWithReceipts w c messages receiptDelay)) <->
   exists responses tr,
     Publish w c messages = (Returns (Some responses, None), tr) /\
     (1 <= length (collect_ticketIDs responses) <= 1000)%nat /\
     ctx_delay w (effective_delay receiptDelay) = None) /\
  (forall responses tr req,
     Publish w c messages = (Returns (Some responses, None), tr) ->
     EvGetReceipts req
     ∈ snd (SendPushNotificationsWithReceipts w c messages receiptDelay) ->
     req = receipts_request c (collect_ticketIDs responses) /\
     snd (SendPushNotificationsWithReceipts w c messages receiptDelay)
     = tr ++ [EvReceiptDelay (effective_delay receiptDelay);
              EvGetReceipts req]).
Proof.
  assert (Hfwd : forall responses tr req,
    Publish w c messages = (Returns (Some responses, None), tr) ->
    EvGetReceipts req
    ∈ snd (SendPushNotificationsWithReceipts w c messages receiptDelay) ->
    (1 <= length (collect_ticketIDs responses) <= 1000)%nat /\
    ctx_delay w (effective_delay receiptDelay) = None /\
    req = receipts_request c (collect_ticketIDs responses) /\
    snd (SendPushNotificationsWithReceipts w c messages receiptDelay)
    = tr ++ [EvReceiptDelay (effective_delay receiptDelay);
             EvGetReceipts req]).
  { intros responses tr req Hp.
    assert (Hnot : EvGetReceipts req ∉ tr).
    { intros Hin.
      apply (publish_trace_retry_events w c messages (EvGetReceipts req)).
      unfold Publish in Hp. now rewrite Hp. }
    destruct (collect_ticketIDs responses) as [|id ids] eqn:Hids.
    - rewrite (workflow_nothing_to_fetch w c messages receiptDelay responses
                 tr Hp Hids). simpl. intros Hin. now destruct Hnot.
    - assert (Hne : collect_ticketIDs responses <> [])
        by (rewrite Hids; discriminate).
      rewrite <- Hids.
      destruct (ctx_delay w (effective_delay receiptDelay)) as [e|] eqn:Hctx.
      + rewrite (workflow_cancelled w c messages receiptDelay responses tr Hp
                   e Hne Hctx). simpl. intros Hin.
        apply elem_of_app in Hin as [Hin | Hin]; [now destruct Hnot |].
        apply list_elem_of_singleton in Hin. discriminate Hin.
      + destruct (GetPushReceipts w c (collect_ticketIDs responses))
          as [fetched tr'] eqn:Hf.
        rewrite (workflow_fetch w c messages receiptDelay responses tr Hp
                   fetched tr' Hne Hctx Hf). simpl. intros Hin.
        apply elem_of_app in Hin as [Hin | Hin]; [now destruct Hnot |].
        apply elem_of_cons in Hin as [Hin | Hin]; [discriminate Hin |].
        destruct (GetPushReceipts_sent w c (collect_ticketIDs responses)
                    (EvGetReceipts req)) as [Hlen Htr].
        { now rewrite Hf. }
        rewrite Hf in Htr. simpl in Htr. subst tr'.
        apply list_elem_of_singleton in Hin. injection Hin as ->.
        unfold maxReceiptsPerRequest in Hlen. now repeat split. }
  split; [split |].
  - intros [req Hin].
    destruct (Publish w c messages) as [[[[responses|] [err|]]|why] tr] eqn:Hp.
    1, 3, 4, 5:
      exfalso;
      rewrite workflow_publish_failed in Hin by (rewrite Hp; congruence);
      rewrite Hp in Hin;
      apply (publish_trace_retry_events w c messages (EvGetReceipts req));
      unfold Publish in Hp; now rewrite Hp.
    destruct (Hfwd responses tr req eq_refl Hin) as (Hlen & Hctx & _).
    now exists responses, tr.
  - intros (responses & tr & Hp & Hlen & Hctx).
    exists (receipts_request c (collect_ticketIDs responses)).
    assert (Hne : collect_ticketIDs responses <> []).
    { intros Hempty. rewrite Hempty in Hlen. simpl in Hlen. lia. }
    destruct (GetPushReceipts w c (collect_ticketIDs responses))
      as [fetched tr'] eqn:Hf.
    rewrite (workflow_fetch w c messages receiptDelay responses tr Hp
               fetched tr' Hne Hctx Hf). simpl.
    pose proof (GetPushReceipts_in_range w c (collect_ticketIDs responses)
                  Hlen) as Htr.
    rewrite Hf in Htr. simpl in Htr. subst tr'.
    apply elem_of_app. right. apply elem_of_cons. right.
    now apply list_elem_of_singleton.
  - intros responses tr req Hp Hin.
    destruct (Hfwd responses tr req Hp Hin) as (_ & _ & Hreq & Htr).
    now split.
Qed.

(** X17. With more than 1000 tickets that go on to the fetch, the workflow
    still waits, then fails without a request: it returns the results as
    built from the tickets and the too-many-ticket-IDs error, wrapped. *)
Theorem workflow_too_many_tickets `{F : Float64} (w : World) (c : Client)
    (messages : list Message) (receiptDelay : Z)
    (responses : list MessageResponse) (tr : list Event) :
  Publish w c messages = (Returns (Some responses, None), tr) ->
  (1000 < length (collect_ticketIDs responses))%nat ->
  ctx_delay w (effective_delay receiptDelay) = None ->
  SendPushNotificationsWithReceipts w c messages receiptDelay
  = (Returns (Some (map ticket_result responses),
       Some (wrapError "failed to fetch push receipts: "
               (errorString
                  ("too many ticket IDs: "
                   +:+ pretty (length (collect_ticketIDs responses))
                   +:+ " (maximum is 1000)")))),
     tr ++ [EvReceiptDelay (effective_delay receiptDelay)]).
Proof.
  intros Hp Hlen Hctx.
  assert (Hne : collect_ticketIDs responses <> []).
  { intros Hempty. rewrite Hempty in Hlen. simpl in Hlen. lia. }
  rewrite (workflow_fetch w c messages receiptDelay responses tr Hp _ _ Hne
             Hctx (GetPushReceipts_too_many w c _ Hlen)).
  reflexivity.
Qed.

Lemma workflow_too_many_tickets_witness :
  SendPushNotificationsWithReceipts
    (serving crowd_reply unregistered_reply) sample_client crowd_messages 0
  = (Returns (Some (map ticket_result crowd_tickets),
       Some (wrapError "failed to fetch push receipts: "
               (errorString
                  ("too many ticket IDs: "
                   +:+ pretty (length (collect_ticketIDs crowd_tickets))
                   +:+ " (maximum is 1000)")))),
     [EvAction 0] ++ [EvReceiptDelay (effective_delay 0)]).
Proof.
  apply (workflow_too_many_tickets
           (serving crowd_reply unregistered_reply) sample_client
           crowd_messages 0 crowd_tickets [EvAction 0]).
  - vm_compute. reflexivity.
  - vm_compute. lia.
  - reflexivity.
Defined.

(** [publish] returned tickets without an error, or it did not. *)
Lemma Publish_returned_or_not `{F : Float64} (w : World) (c : Client)
    (messages : list Message) :
  (exists responses tr,
     Publish w c messages = (Returns (Some responses, None), tr)) \/
  (forall responses tr,
     Publish w c messages <> (Returns (Some responses, None), tr)).
Proof.
  destruct (Publish w c messages) as [[[[responses|] [err|]]|why] tr];
    try (right; congruence).
  left. now exists responses, tr.
Qed.

Lemma collect_ticketIDs_some (responses : list MessageResponse) :
  collect_ticketIDs responses <> [] <->
  exists t, t ∈ responses /\ eligible t.
Proof.
  split.
  - destruct (collect_ticketIDs responses) as [|id ids] eqn:Hids;
      [now intros [] | intros _].
    destruct (proj1 (collect_ticketIDs_elem responses id))
      as (t & Hin & Hel & _).
    { rewrite Hids. apply elem_of_cons. now left. }
    now exists t.
  - intros (t & Hin & Hel) Hempty.
    assert (Hid : tk_ID t ∈ collect_ticketIDs responses)
      by (apply collect_ticketIDs_elem; now exists t).
    rewrite Hempty in Hid. inversion Hid.
Qed.

(** After a successful publish, the wait is in the trace exactly when some
    identifier was collected. *)
Lemma workflow_wait_event `{F : Float64} (w : World) (c : Client)
    (messages : list Message) (receiptDelay : Z)
    (responses : list MessageResponse) (tr : list Event) (d : Z) :
  Publish w c messages = (Returns (Some responses, None), tr) ->
  EvReceiptDelay d
  ∈ snd (SendPushNotificationsWithReceipts w c messages receiptDelay) <->
  d = effective_delay receiptDelay /\ collect_ticketIDs responses <> [].
Proof.
  intros Hp.
  assert (Hnot : EvReceiptDelay d ∉ tr).
  { intros Hin.
    apply (publish_trace_retry_events w c messages (EvReceiptDelay d)).
    unfold Publish in Hp. now rewrite Hp. }
  assert (Hin_wait : forall rest,
            (forall ev, ev ∈ rest -> exists req, ev = EvGetReceipts req) ->
            EvReceiptDelay d
            ∈ tr ++ EvReceiptDelay (effective_delay receiptDelay) :: rest <->
            d = effective_delay receiptDelay).
  { intros rest Hrest. split.
    - intros Hin. apply elem_of_app in Hin as [Hin | Hin];
        [now destruct Hnot |].
      apply elem_of_cons in Hin as [Hin | Hin]; [now injection Hin |].
      destruct (Hrest _ Hin) as [req Hreq]. discriminate Hreq.
    - intros ->. apply elem_of_app. right. apply elem_of_cons. now left. }
  destruct (collect_ticketIDs responses) as [|id ids] eqn:Hids.
  - rewrite (workflow_nothing_to_fetch w c messages receiptDelay responses
               tr Hp Hids). simpl.
    split; [intros Hin; now destruct Hnot | now intros [_ []]].
  - assert (Hne : collect_ticketIDs responses <> [])
      by (rewrite Hids; discriminate).
    destruct (ctx_delay w (effective_delay receiptDelay)) as [e|] eqn:Hctx.
    + rewrite (workflow_cancelled w c messages receiptDelay responses tr Hp
                 e Hne Hctx). simpl.
      rewrite (Hin_wait []) by (intros ev Hev; inversion Hev).
      split; [intros ->; now split | now intros [-> _]].
    + destruct (GetPushReceipts w c (collect_ticketIDs responses))
        as [fetched tr'] eqn:Hf.
      rewrite (workflow_fetch w c messages receiptDelay responses tr Hp
                 fetched tr' Hne Hctx Hf). simpl.
      rewrite (Hin_wait tr').
      * split; [intros ->; now split | now intros [-> _]].
      * intros ev Hev.
        destruct (GetPushReceipts_sent w c (collect_ticketIDs responses) ev)
          as [_ Htr]; [now rewrite Hf |].
        rewrite Hf in Htr. simpl in Htr. subst tr'.
        apply list_elem_of_singleton in Hev. eexists. exact Hev.
Qed.

(** X18. The workflow starts its wait exactly when [publish] returned
    tickets and one of them goes on to the fetch, and then waits for the
    delay it was given, or for fifteen minutes when it was given none.
    When the context is cancelled during the wait it returns the results as
    built from the tickets together with the context's error. *)
Theorem workflow_wait `{F : Float64} (w : World) (c : Client)
    (messages : list Message) (receiptDelay : Z) :
  (forall d,
     EvReceiptDelay d
     ∈ snd (SendPushNotificationsWithReceipts w c messages receiptDelay) <->
     d = (if receiptDelay =? 0 then 900000000000 else receiptDelay) /\
     exists responses tr,
       Publish w c messages = (Returns (Some responses, None), tr) /\
       exists t, t ∈ responses /\ eligible t) /\
  (forall responses tr err,
     Publish w c messages = (Returns (Some responses, None), tr) ->
     (exists t, t ∈ responses /\ eligible t) ->
     ctx_delay w (effective_delay receiptDelay) = Some err ->
     SendPushNotificationsWithReceipts w c messages receiptDelay
     = (Returns (Some (map ticket_result responses), Some err),
        tr ++ [EvReceiptDelay (effective_delay receiptDelay)])).
Proof.
  assert (Hd : effective_delay receiptDelay
               = if receiptDelay =? 0 then 900000000000 else receiptDelay)
    by reflexivity.
  split.
  - intros d. rewrite <- Hd.
    destruct (Publish_returned_or_not w c messages)
      as [(responses & tr & Hp) | Hfail].
    + rewrite (workflow_wait_event w c messages receiptDelay responses tr d
                 Hp), collect_ticketIDs_some.
      split.
      * intros [-> Hex]. split; [reflexivity |]. now exists responses, tr.
      * intros (-> & responses' & tr' & Hp' & Hex). split; [reflexivity |].
        rewrite Hp in Hp'. now injection Hp' as -> ->.
    + rewrite workflow_publish_failed by exact Hfail. split.
      * intros Hin. exfalso.
        apply (publish_trace_retry_events w c messages (EvReceiptDelay d)).
        exact Hin.
      * intros (_ & responses & tr & Hp & _). now destruct (Hfail responses tr).
  - intros responses tr err Hp Hex Hctx.
    apply (workflow_cancelled w c messages receiptDelay responses tr Hp err);
      [now apply collect_ticketIDs_some | exact Hctx].
Qed.

(** An entry of a returned list is the result built from its ticket, or
    that result after the match against some receipts. *)
Lemma workflow_result_entry `{F : Float64} (w : World) (c : Client)
    (messages : list Message) (receiptDelay : Z)
    (responses : list MessageResponse) (tr : list Event)
    (results : list PushResult) (err : option error) :
  Publish w c messages = (Returns (Some responses, None), tr) ->
  fst (SendPushNotificationsWithReceipts w c messages receiptDelay)
  = Returns (Some results, err) ->
  forall i t res, responses !! i = Some t -> results !! i = Some res ->
    exists receipts, match_receipt receipts (ticket_result t) = Returns res.
Proof.
  intros Hp Hres i t res Hi Hri.
  destruct (workflow_results_from w c messages receiptDelay responses tr
              results err Hp Hres) as [-> | (receipts & Hm)].
  - rewrite list_lookup_fmap, Hi in Hri. injection Hri as <-.
    exists None. now apply match_receipt_missing.
  - destruct (match_receipts_positions receipts _ results Hm) as [_ Hpos].
    destruct (Hpos i (ticket_result t)) as (res' & Hri' & Hone).
    { now rewrite list_lookup_fmap, Hi. }
    exists receipts. congruence.
Qed.

(** The result of the match for one ticket: the terminal entry, the bare
    entry, or the entry with the receipt found under the identifier. *)
Lemma match_receipt_ticket_result
    (receipts : option (gmap string (option PushReceipt)))
    (t : MessageResponse) (res : PushResult) :
  match_receipt receipts (ticket_result t) = Returns res ->
  (~ eligible t /\ res = terminal_result t) \/
  (eligible t /\
   (res = {| pr_TicketID := tk_ID t; pr_Message := tk_MessageItem t;
             pr_PushTicket := Some t; pr_PushReceipt := None;
             pr_Error := None |} \/
    exists receipt,
      lookup_receipt receipts (tk_ID t) = Some (Some receipt) /\
      res = {| pr_TicketID := tk_ID t; pr_Message := tk_MessageItem t;
               pr_PushTicket := Some t; pr_PushReceipt := Some receipt;
               pr_Error :=
                 if rc_IsOk receipt then None
                 else Some (errorString
                              ("push receipt error: " +:+ rc_Message receipt))
            |})).
Proof.
  destruct (has_ticket_id t) eqn:Hid.
  - assert (Hel : eligible t) by now apply has_ticket_id_eligible.
    rewrite (ticket_result_eligible t Hel). unfold match_receipt. simpl.
    destruct (bool_decide_reflect (tk_ID t = "")) as [Hempty | _];
      [now destruct Hel |].
    fold (lookup_receipt receipts (tk_ID t)).
    destruct (lookup_receipt receipts (tk_ID t)) as [[receipt|]|];
      [| discriminate |].
    + intros [= <-]. right. split; [exact Hel |]. right. exists receipt.
      split; [reflexivity |]. now destruct (rc_IsOk receipt).
    + intros [= <-]. right. split; [exact Hel |]. now left.
  - assert (Hnel : ~ eligible t).
    { intros Hel. apply has_ticket_id_eligible in Hel. congruence. }
    rewrite (ticket_result_terminal t Hnel). unfold match_receipt. simpl.
    intros [= <-]. now left.
Qed.

(** X19. How the two classifications read the results of the workflow.  A
    result is successful exactly when its ticket went on to the fetch and
    an ok receipt was attached.  The result of a ticket that did not go on
    is always marked for retry, whatever the reason of the failure.  A
    result without receipt is marked for retry exactly when its ticket did
    not go on, so a result still waiting for its receipt is neither
    successful nor marked for retry.  A result whose receipt says that the
    device is not registered is never marked for retry. *)
Theorem workflow_result_classes `{F : Float64} (w : World) (c : Client)
    (messages : list Message) (receiptDelay : Z)
    (responses : list MessageResponse) (tr : list Event)
    (results : list PushResult) (err : option error) :
  Publish w c messages = (Returns (Some responses, None), tr) ->
  fst (SendPushNotificationsWithReceipts w c messages receiptDelay)
  = Returns (Some results, err) ->
  forall i t res, responses !! i = Some t -> results !! i = Some res ->
    (IsSuccessful res = true <->
     eligible t /\
     exists receipt, pr_PushReceipt res = Some receipt /\
                     rc_IsOk receipt = true) /\
    (~ eligible t -> ShouldRetryToken res = true) /\
    (pr_PushReceipt res = None ->
     (ShouldRetryToken res = true <-> ~ eligible t)) /\
    (forall receipt, pr_PushReceipt res = Some receipt ->
       IsDeviceNotRegistered receipt = true -> ShouldRetryToken res = false).
Proof.
  intros Hp Hres i t res Hi Hri.
  destruct (workflow_result_entry w c messages receiptDelay responses tr
              results err Hp Hres i t res Hi Hri) as [receipts Hm].
  destruct (match_receipt_ticket_result receipts t res Hm)
    as [[Hnel ->] | [Hel [-> | (receipt & _ & ->)]]].
  - refine (conj _ (conj _ (conj _ _))).
    + split; [discriminate | now intros [Hel _]].
    + reflexivity.
    + intros _. split; [now intros _ | reflexivity].
    + intros receipt Hrc. discriminate Hrc.
  - refine (conj _ (conj _ (conj _ _))).
    + split; [discriminate | now intros (_ & receipt & Hrc & _)].
    + intros Hnel. now destruct Hnel.
    + intros _. split; [discriminate | intros Hnel; now destruct Hnel].
    + intros receipt Hrc. discriminate Hrc.
  - assert (Hok : tk_IsOk t = true).
    { unfold tk_IsOk. apply bool_decide_eq_true. now destruct Hel. }
    refine (conj _ (conj _ (conj _ _))).
    + unfold IsSuccessful. simpl.
      destruct (rc_IsOk receipt) eqn:Hrc; simpl.
      * rewrite Hok. split; [intros _ | reflexivity].
        split; [exact Hel |]. now exists receipt.
      * split; [discriminate |].
        intros (_ & receipt' & [= <-] & Hrc'). congruence.
    + intros Hnel. now destruct Hnel.
    + discriminate.
    + intros receipt' [= <-]. unfold IsDeviceNotRegistered, ShouldRetryToken.
      simpl. destruct (rc_Details receipt) as [details|]; [| discriminate].
      now intros ->.
Qed.

Lemma workflow_result_classes_witness :
  ShouldRetryToken
    (terminal_result
       (set_MessageItem (ticket "" "error" "not a registered recipient")
                        two_tokens_message)) = true.
Proof.
  refine (proj1 (proj2 (workflow_result_classes
    (serving mixed_reply unregistered_reply) sample_client
    [two_tokens_message] 0 mixed_tickets [EvAction 0]
    [{| pr_TicketID := "id-1"; pr_Message := Some two_tokens_message;
        pr_PushTicket :=
          Some (set_MessageItem (ticket "id-1" "ok" "") two_tokens_message);
        pr_PushReceipt := Some unregistered_receipt;
        pr_Error := Some (errorString
                            ("push receipt error: "
                             +:+ rc_Message unregistered_receipt)) |};
     terminal_result
       (set_MessageItem (ticket "" "error" "not a registered recipient")
                        two_tokens_message)]
    None eq_refl eq_refl 1%nat _ _ eq_refl eq_refl)) _).
  intros [Hok _]. discriminate Hok.
Defined.

(** ** Filtering tokens in place *)

Lemma set_To_same (msg : Message) : set_To msg (msg_To msg) = msg.
Proof. now destruct msg. Qed.

Lemma set_To_twice (msg : Message) (to to' : list (option Token)) :
  set_To (set_To msg to) to' = set_To msg to'.
Proof. reflexivity. Qed.

Lemma valid_token_is_Some (recipient : option Token) :
  valid_token recipient = true -> is_Some recipient.
Proof. destruct recipient; [now eexists | discriminate]. Qed.

Lemma valid_token_not_empty (recipient : option Token) :
  valid_token recipient = true -> ~ nil_or_empty recipient.
Proof.
  intros Hv [-> | ->]; [discriminate Hv | discriminate Hv].
Qed.

Lemma kept_tokens_valid (to : list (option Token)) :
  Forall (fun r => valid_token r = true) (kept_tokens to).
Proof.
  apply Forall_forall. intros r Hin.
  now apply list_elem_of_filter in Hin as [Hv _].
Qed.

Lemma kept_tokens_all (to : list (option Token)) :
  Forall (fun r => valid_token r = true) to -> kept_tokens to = to.
Proof.
  unfold kept_tokens. induction 1 as [|r to Hr Hall IH]; [reflexivity |].
  rewrite filter_cons_True by exact Hr. now rewrite IH.
Qed.

Lemma kept_tokens_again (to : list (option Token)) :
  kept_tokens (kept_tokens to) = kept_tokens to.
Proof. apply kept_tokens_all, kept_tokens_valid. Qed.

Lemma kept_tokens_length (to : list (option Token)) :
  (length (kept_tokens to) <= length to)%nat.
Proof. apply length_filter. Qed.

(** The inner loop keeps the valid tokens in their order and counts the
    others, when no token is nil. *)
Lemma filter_tokens_returns (to : list (option Token)) :
  forall validTokens removedCount,
    Forall is_Some to ->
    filter_tokens to validTokens removedCount
    = Returns (validTokens ++ kept_tokens to,
               (removedCount + (length to - length (kept_tokens to)))%nat).
Proof.
  induction to as [|[token|] to IH]; intros validTokens removedCount Hall.
  - simpl. now rewrite app_nil_r, Nat.add_0_r.
  - apply Forall_cons in Hall as [_ Hall]. simpl.
    destruct (IsPushTokenValid token) eqn:Hv.
    + rewrite (IH _ _ Hall). unfold kept_tokens.
      rewrite filter_cons_True by exact Hv.
      now rewrite <- app_assoc.
    + rewrite (IH _ _ Hall). unfold kept_tokens.
      rewrite filter_cons_False by (simpl; congruence).
      pose proof (kept_tokens_length to) as Hle. unfold kept_tokens in Hle.
      do 2 f_equal. lia.
  - apply Forall_cons in Hall as [[x Hx] _]. discriminate Hx.
Qed.

Lemma filter_tokens_returned (to : list (option Token)) :
  forall validTokens removedCount out,
    filter_tokens to validTokens removedCount = Returns out ->
    Forall is_Some to.
Proof.
  induction to as [|[token|] to IH]; intros validTokens removedCount out;
    simpl.
  - constructor.
  - intros Hf. constructor; [now eexists |].
    destruct (IsPushTokenValid token); now apply IH in Hf.
  - discriminate.
Qed.

Lemma token_count_insert (store : gmap nat Message) (a : nat)
    (msg msg' : Message) :
  store !! a = Some msg ->
  (token_count (<[a := msg']> store) + length (msg_To msg)
   = token_count store + length (msg_To msg'))%nat.
Proof.
  intros Ha. unfold token_count.
  rewrite <- (insert_delete_eq store a msg').
  rewrite map_fold_insert_L;
    [| intros; lia | apply lookup_delete_eq].
  rewrite (map_fold_delete_L _ _ a msg store); [lia | intros; lia | exact Ha].
Qed.

(** The store after a run of the outer loop, address by address, and the
    count it returns. *)
Lemma filter_messages_returns (messages : list (option nat)) :
  forall store removedCount n store',
    filter_messages messages store removedCount = (Returns n, store') ->
    Forall (filterable store) messages /\
    (forall a,
       store' !! a
       = if bool_decide (Some a ∈ messages)
         then (fun msg => set_To msg (kept_tokens (msg_To msg))) <$> store !! a
         else store !! a) /\
    (n + token_count store' = removedCount + token_count store)%nat.
Proof.
  induction messages as [|[a|] rest IH]; intros store removedCount n store';
    cbn [filter_messages].
  - intros [= <- <-]. split; [constructor |]. split; [| reflexivity].
    intros a. rewrite bool_decide_eq_false_2; [reflexivity |].
    intros Hin. inversion Hin.
  - destruct (store !! a) as [msg|] eqn:Ha; [| discriminate].
    destruct (filter_tokens (msg_To msg) [] removedCount)
      as [[validTokens removedCount']|why] eqn:Hf; [| discriminate].
    pose proof (filter_tokens_returned _ _ _ _ Hf) as Hall.
    rewrite (filter_tokens_returns _ _ _ Hall) in Hf. simpl in Hf.
    injection Hf as <- <-.
    intros Hrest. destruct (IH _ _ _ _ Hrest) as (Hfl & Hst & Hcnt).
    split; [| split].
    + constructor; [now exists a, msg |].
      eapply Forall_impl; [exact Hfl |].
      intros p (b & mb & -> & Hb & Hsome).
      destruct (decide (b = a)) as [-> | Hne].
      * now exists a, msg.
      * rewrite lookup_insert_ne in Hb by congruence. now exists b, mb.
    + intros b. rewrite (Hst b).
      destruct (decide (b = a)) as [-> | Hne].
      * rewrite lookup_insert_eq, Ha.
        rewrite (bool_decide_eq_true_2 (Some a ∈ Some a :: rest))
          by (apply elem_of_cons; now left).
        destruct (bool_decide (Some a ∈ rest)); [| reflexivity].
        simpl. now rewrite set_To_twice, kept_tokens_again.
      * rewrite lookup_insert_ne by congruence.
        destruct (bool_decide_reflect (Some b ∈ rest)) as [Hin | Hnin].
        -- rewrite bool_decide_eq_true_2; [reflexivity |].
           apply elem_of_cons. now right.
        -- rewrite bool_decide_eq_false_2; [reflexivity |].
           intros Hin. apply elem_of_cons in Hin as [[= ->] | Hin];
             [now destruct Hne | now destruct Hnin].
    + pose proof (token_count_insert store a msg
                    (set_To msg (kept_tokens (msg_To msg))) Ha) as Hins.
      simpl in Hins.
      pose proof (kept_tokens_length (msg_To msg)). lia.
  - discriminate.
Qed.

(** The outer loop returns when every pointer is the address of a message
    without nil token. *)
Lemma filter_messages_total (messages : list (option nat)) :
  forall store removedCount,
    Forall (filterable store) messages ->
    exists n store',
      filter_messages messages store removedCount = (Returns n, store').
Proof.
  induction messages as [|p rest IH]; intros store removedCount Hall; simpl.
  - now eexists _, _.
  - apply Forall_cons in Hall as [(a & msg & -> & Ha & Hsome) Hrest].
    rewrite Ha, (filter_tokens_returns _ _ _ Hsome).
    apply IH. eapply Forall_impl; [exact Hrest |].
    intros p (b & mb & -> & Hb & Hsomeb).
    destruct (decide (b = a)) as [-> | Hne].
    + exists a, (set_To msg (kept_tokens (msg_To msg))).
      split; [reflexivity |]. split; [apply lookup_insert_eq |].
      simpl. eapply Forall_impl; [apply kept_tokens_valid |].
      intros r. apply valid_token_is_Some.
    + exists b, mb. split; [reflexivity |].
      split; [now rewrite lookup_insert_ne by congruence | exact Hsomeb].
Qed.

(** On messages that hold valid tokens only, the outer loop changes
    nothing. *)
Lemma filter_messages_clean (messages : list (option nat)) :
  forall store removedCount,
    Forall (fun p => exists a msg,
              p = Some a /\ store !! a = Some msg /\
              Forall (fun r => valid_token r = true) (msg_To msg)) messages ->
    filter_messages messages store removedCount = (Returns removedCount, store).
Proof.
  induction messages as [|p rest IH]; intros store removedCount Hall; simpl.
  - reflexivity.
  - apply Forall_cons in Hall as [(a & msg & -> & Ha & Hvalid) Hrest].
    rewrite Ha, filter_tokens_returns
      by (eapply Forall_impl; [exact Hvalid | apply valid_token_is_Some]).
    rewrite (kept_tokens_all _ Hvalid), Nat.sub_diag, Nat.add_0_r. simpl.
    rewrite set_To_same, (insert_id store a msg Ha).
    now apply IH.
Qed.

(** X20. What a run of [FilterInvalidTokens] that returns leaves behind:
    every message it was given a pointer to keeps exactly its valid tokens,
    in their order, and nothing else of it changes, also when the same
    message is pointed to more than once; messages it was not given are
    untouched; and the number it returns is the number of tokens that
    disappeared from the store. *)
Theorem FilterInvalidTokens_result (messages : list (option nat))
    (store store' : gmap nat Message) (n : nat) :
  FilterInvalidTokens messages store = (Returns n, store') ->
  (forall a, Some a ∈ messages ->
     exists msg,
       store !! a = Some msg /\
       store' !! a = Some (set_To msg (kept_tokens (msg_To msg))) /\
       Forall (fun r => valid_token r = true) (kept_tokens (msg_To msg)) /\
       kept_tokens (msg_To msg) `sublist_of` msg_To msg) /\
  (forall a, Some a ∉ messages -> store' !! a = store !! a) /\
  (n + token_count store' = token_count store)%nat.
Proof.
  intros Hrun.
  destruct (filter_messages_returns messages store 0 n store' Hrun)
    as (Hfl & Hst & Hcnt).
  split; [| split].
  - intros a Hin.
    destruct (proj1 (Forall_forall _ _) Hfl (Some a) Hin)
      as (b & msg & [= <-] & Ha & _).
    exists msg. split; [exact Ha |]. split.
    + rewrite (Hst a), bool_decide_eq_true_2 by exact Hin. now rewrite Ha.
    + split; [apply kept_tokens_valid | apply sublist_filter].
  - intros a Hnin. now rewrite (Hst a), bool_decide_eq_false_2.
  - exact Hcnt.
Qed.

Lemma FilterInvalidTokens_result_witness :
  (2 + token_count filtered_store = token_count sample_store)%nat.
Proof.
  exact (proj2 (proj2 (FilterInvalidTokens_result
    [Some 0%nat; Some 1%nat; Some 0%nat] sample_store filtered_store 2
    eq_refl))).
Defined.

(** X21. [FilterInvalidTokens] returns exactly when every pointer it is
    given is the address of a message none of whose tokens is nil.  It
    crashes on a nil message and on a nil token, where [publish] answers
    the nil token with an error. *)
Theorem FilterInvalidTokens_returns_iff (messages : list (option nat))
    (store : gmap nat Message) :
  ((exists n store', FilterInvalidTokens messages store = (Returns n, store'))
   <-> Forall (filterable store) messages) /\
  (None ∈ messages ->
   exists why store',
     FilterInvalidTokens messages store = (Panics why, store')) /\
  (forall a msg,
     Some a ∈ messages -> store !! a = Some msg -> None ∈ msg_To msg ->
     (exists why store',
        FilterInvalidTokens messages store = (Panics why, store')) /\
     forall pre post,
       validate_messages (pre ++ msg :: post) <> None).
Proof.
  assert (Hiff : (exists n store',
                    FilterInvalidTokens messages store = (Returns n, store'))
                 <-> Forall (filterable store) messages).
  { split.
    - intros (n & store' & Hrun).
      now destruct (filter_messages_returns messages store 0 n store' Hrun).
    - apply filter_messages_total. }
  assert (Hpanics : ~ Forall (filterable store) messages ->
            exists why store',
              FilterInvalidTokens messages store = (Panics why, store')).
  { intros Hnot.
    destruct (FilterInvalidTokens messages store) as [[n|why] store'] eqn:Hrun.
    - destruct Hnot. apply Hiff. now exists n, store'.
    - now exists why, store'. }
  split; [exact Hiff | split].
  - intros Hin. apply Hpanics. intros Hall.
    destruct (proj1 (Forall_forall _ _) Hall None Hin) as (a & msg & Hp & _).
    discriminate Hp.
  - intros a msg Hin Ha Hnil. split.
    + apply Hpanics. intros Hall.
      destruct (proj1 (Forall_forall _ _) Hall (Some a) Hin)
        as (b & msg' & [= <-] & Hb & Hsome).
      rewrite Ha in Hb. injection Hb as <-.
      destruct (proj1 (Forall_forall _ _) Hsome None Hnil) as [x Hx].
      discriminate Hx.
    + intros pre post Hv.
      destruct (validate_messages_rejects (pre ++ msg :: post)) as [err He].
      * exists msg, None. split; [| split; [exact Hnil | now left]].
        apply elem_of_app. right. apply elem_of_cons. now left.
      * congruence.
Qed.

(** X22. A second run of [FilterInvalidTokens] over the same pointers
    removes nothing: it returns 0 and leaves the store as the first run
    left it. *)
Theorem FilterInvalidTokens_idempotent (messages : list (option nat))
    (store store' : gmap nat Message) (n : nat) :
  FilterInvalidTokens messages store = (Returns n, store') ->
  FilterInvalidTokens messages store' = (Returns 0%nat, store').
Proof.
  intros Hrun.
  destruct (filter_messages_returns messages store 0 n store' Hrun)
    as (Hfl & Hst & _).
  apply filter_messages_clean, Forall_forall. intros p Hin.
  destruct (proj1 (Forall_forall _ _) Hfl p Hin) as (a & msg & -> & Ha & _).
  exists a, (set_To msg (kept_tokens (msg_To msg))).
  split; [reflexivity |]. split.
  - rewrite (Hst a), bool_decide_eq_true_2 by exact Hin. now rewrite Ha.
  - apply kept_tokens_valid.
Qed.

Lemma FilterInvalidTokens_idempotent_witness :
  FilterInvalidTokens [Some 0%nat; Some 1%nat; Some 0%nat] filtered_store
  = (Returns 0%nat, filtered_store).
Proof.
  exact (FilterInvalidTokens_idempotent
           [Some 0%nat; Some 1%nat; Some 0%nat] sample_store filtered_store 2
           eq_refl).
Defined.

(** On messages whose tokens are all valid, the checks of [publish] can
    only fail for want of recipients. *)
Lemma validate_messages_valid_tokens (msgs : list Message) :
  Forall (fun m => Forall (fun r => valid_token r = true) (msg_To m)) msgs ->
  (validate_messages msgs = None /\ Forall (fun m => msg_To m <> []) msgs) \/
  (validate_messages msgs = Some (errorString "no recipients") /\
   exists m, m ∈ msgs /\ msg_To m = []).
Proof.
  induction 1 as [|m msgs Hm Hall IH]; simpl.
  - left. split; [reflexivity | constructor].
  - destruct (msg_To m) as [|r to] eqn:Hto.
    + right. split; [reflexivity |]. exists m.
      split; [apply elem_of_cons; now left | exact Hto].
    + simpl length. cbn [Nat.eqb]. rewrite <- Hto.
      rewrite (proj2 (validate_recipients_valid (msg_To m))).
      * destruct IH as [[Hv Hne] | (Hv & m' & Hin & Hempty)].
        -- left. split; [exact Hv |]. constructor; [| exact Hne].
           rewrite Hto. discriminate.
        -- right. split; [exact Hv |]. exists m'.
           split; [apply elem_of_cons; now right | exact Hempty].
      * rewrite Hto. eapply Forall_impl; [exact Hm |].
        apply valid_token_not_empty.
Qed.

Lemma validate_tokens_valid (to : list (option Token)) :
  validate_tokens to = Returns None <->
  Forall (fun r => valid_token r = true) to.
Proof.
  induction to as [|[token|] to IH]; simpl.
  - split; [constructor | reflexivity].
  - rewrite Forall_cons. simpl.
    destruct (IsPushTokenValid token); simpl.
    + rewrite IH. tauto.
    + split; [discriminate | now intros [Hf _]].
  - rewrite Forall_cons. simpl. split; [discriminate | now intros [Hf _]].
Qed.

(** X23. After a run of [FilterInvalidTokens] that returned, the batch of
    the filtered messages holds valid tokens only, so [publish] never turns
    it down for an invalid token and the token loop of [ValidateMessage]
    accepts each message.  The filter may leave a message without
    recipients, though: the batch passes the checks of [publish] exactly
    when every message kept a token, and otherwise [publish] turns the
    whole batch down with the no-recipients error, without a request. *)
Theorem filtered_batch_validation `{F : Float64} (w : World) (c : Client)
    (messages : list (option nat)) (store store' : gmap nat Message)
    (n : nat) (msgs : list Message) :
  FilterInvalidTokens messages store = (Returns n, store') ->
  points_to store' messages msgs ->
  Forall (fun m => Forall (fun r => valid_token r = true) (msg_To m)
                   /\ validate_tokens (msg_To m) = Returns None) msgs /\
  (validate_messages msgs = None <-> Forall (fun m => msg_To m <> []) msgs) /\
  ((exists m, m ∈ msgs /\ msg_To m = []) ->
   publish w c msgs
   = (Returns (None, Some (errorString "no recipients")), [])).
Proof.
  intros Hrun Hpts.
  destruct (filter_messages_returns messages store 0 n store' Hrun)
    as (Hfl & Hst & _).
  assert (Hvalid : Forall (fun m => Forall (fun r => valid_token r = true)
                                           (msg_To m)) msgs).
  { apply Forall_forall. intros m Hin.
    apply list_elem_of_lookup in Hin as [i Hi].
    destruct (Forall2_lookup_r _ _ _ _ _ Hpts Hi) as (p & Hp & a & -> & Ha).
    assert (Hmem : Some a ∈ messages) by (eapply list_elem_of_lookup_2, Hp).
    destruct (proj1 (Forall_forall _ _) Hfl (Some a) Hmem)
      as (b & msg & [= <-] & Hb & _).
    rewrite (Hst a), bool_decide_eq_true_2, Hb in Ha by exact Hmem.
    injection Ha as <-. apply kept_tokens_valid. }
  split; [| split].
  - eapply Forall_impl; [exact Hvalid |]. intros m Hm.
    split; [exact Hm | now apply validate_tokens_valid].
  - destruct (validate_messages_valid_tokens msgs Hvalid)
      as [[Hv Hne] | (Hv & m & Hin & Hempty)].
    + now rewrite Hv.
    + rewrite Hv. split; [discriminate |]. intros Hne.
      now destruct (proj1 (Forall_forall _ _) Hne m Hin).
  - intros (m & Hin & Hempty). apply publish_invalid.
    destruct (validate_messages_valid_tokens msgs Hvalid)
      as [[Hv Hne] | (Hv & _)]; [| exact Hv].
    now destruct (proj1 (Forall_forall _ _) Hne m Hin).
Qed.

Lemma filtered_batch_validation_witness :
  publish (replying (Some two_tickets)) sample_client
    [message_to [Some "ExponentPushToken[aaa]"; Some "ExponentPushToken[bbb]"]
                "Hello" "World";
     message_to [] "Hello" "World"]
  = (Returns (None, Some (errorString "no recipients")), []).
Proof.
  refine (proj2 (proj2 (filtered_batch_validation
    (replying (Some two_tickets)) sample_client
    [Some 0%nat; Some 1%nat] sample_store filtered_store 2
    [message_to [Some "ExponentPushToken[aaa]"; Some "ExponentPushToken[bbb]"]
                "Hello" "World";
     message_to [] "Hello" "World"] eq_refl _)) _).
  - repeat constructor; eexists; (split; [reflexivity |]); reflexivity.
  - exists (message_to [] "Hello" "World"). split; [| reflexivity].
    apply elem_of_cons. right. apply elem_of_cons. now left.
Defined.

(** X24. [ValidateMessage] accepts a message exactly when it has a
    recipient, its estimated size is at most 4000 and every token is there
    and has the prefix; a message it accepts passes the checks of
    [publish].  It crashes exactly when the message has a recipient, the
    size is within the limit and a nil token comes before any token without
    the prefix. *)
Theorem ValidateMessage_accepts_iff (msg : Message) :
  (ValidateMessage msg = Returns None <->
   msg_To msg <> [] /\ (estimated_size msg <= 4000)%nat /\
   Forall (fun r => valid_token r = true) (msg_To msg)) /\
  (ValidateMessage msg = Returns None -> validate_messages [msg] = None) /\
  ((exists why, ValidateMessage msg = Panics why) <->
   msg_To msg <> [] /\ (estimated_size msg <= 4000)%nat /\
   exists pre post,
     msg_To msg = pre ++ None :: post /\
     Forall (fun r => valid_token r = true) pre).
Proof.
  assert (Hpanic : forall to,
            (exists why, validate_tokens to = Panics why) <->
            exists pre post, to = pre ++ None :: post /\
                             Forall (fun r => valid_token r = true) pre).
  { induction to as [|[token|] to IH]; simpl.
    - split; [now intros [why Hw] |].
      intros (pre & post & Heq & _). now destruct pre.
    - destruct (IsPushTokenValid token) eqn:Hv; simpl.
      + rewrite IH. split.
        * intros (pre & post & -> & Hpre). exists (Some token :: pre), post.
          split; [reflexivity | now constructor].
        * intros (pre & post & Heq & Hpre). destruct pre as [|r pre];
            [discriminate Heq |].
          injection Heq as <- ->. apply Forall_cons in Hpre as [_ Hpre].
          now exists pre, post.
      + split; [now intros [why Hw] |].
        intros (pre & post & Heq & Hpre). destruct pre as [|r pre];
          [discriminate Heq |].
        injection Heq as <- ->. apply Forall_cons in Hpre as [Hr _].
        simpl in Hr. congruence.
    - split; [intros _ | now eexists].
      exists [], to. split; [reflexivity | constructor]. }
  assert (Hiff : ValidateMessage msg = Returns None <->
            msg_To msg <> [] /\ (estimated_size msg <= 4000)%nat /\
            Forall (fun r => valid_token r = true) (msg_To msg)).
  { unfold ValidateMessage. fold (estimated_size msg).
    destruct (msg_To msg) as [|r to] eqn:Hto.
    - simpl. split; [discriminate | now intros [Hne _]].
    - simpl length. cbn [Nat.eqb].
      destruct (Nat.ltb_spec 4000 (estimated_size msg)).
      + split; [discriminate | intros (_ & Hle & _); lia].
      + rewrite validate_tokens_valid.
        split; [intros Hall; repeat split; [discriminate | lia | exact Hall]
               | now intros (_ & _ & Hall)]. }
  split; [exact Hiff | split].
  - intros Hok. apply Hiff in Hok as (Hne & _ & Hall).
    apply validate_messages_valid. constructor; [| constructor].
    split; [exact Hne |].
    eapply Forall_impl; [exact Hall | apply valid_token_not_empty].
  - unfold ValidateMessage. fold (estimated_size msg).
    destruct (msg_To msg) as [|r to] eqn:Hto.
    + simpl. split; [now intros [why Hw] | now intros [Hne _]].
    + simpl length. cbn [Nat.eqb].
      destruct (Nat.ltb_spec 4000 (estimated_size msg)).
      * split; [now intros [why Hw] | intros (_ & Hle & _); lia].
      * rewrite Hpanic. split.
        -- intros Hex. repeat split; [discriminate | lia | exact Hex].
        -- now intros (_ & _ & Hex).
Qed.

Lemma sum_sizes_foldl (entries : list (string * string)) :
  forall estimatedSize : nat,
    foldl (fun acc '(k, v) => (acc + (String.length k + String.length v))%nat)
          estimatedSize entries
    = (estimatedSize
       + sum_list_with (fun '(k, v) => (String.length k + String.length v)%nat)
                       entries)%nat.
Proof.
  induction entries as [|[k v] entries IH]; intros estimatedSize; simpl.
  - lia.
  - rewrite IH. lia.
Qed.

Lemma data_size_sum (m : gmap string string) :
  data_size (Some m)
  = sum_list_with (fun '(k, v) => (String.length k + String.length v)%nat)
                  (map_to_list m).
Proof.
  unfold data_size. rewrite map_fold_foldr.
  induction (map_to_list m) as [|[k v] entries IH]; simpl; [reflexivity |].
  rewrite IH. lia.
Qed.

(** X25. The size estimate does not depend on the order in which the
    entries of the data map are visited: the loop of [ValidateMessage], run
    from any starting size over the entries in any order, ends at the
    starting size plus [data_size]; and an entry under a new key adds the
    lengths of its key and value. *)
Theorem data_size_any_order (m : gmap string string)
    (entries : list (string * string)) (estimatedSize : nat) :
  entries ≡ₚ map_to_list m ->
  foldl (fun acc '(k, v) => (acc + (String.length k + String.length v))%nat)
        estimatedSize entries
  = (estimatedSize + data_size (Some m))%nat /\
  forall k v, m !! k = None ->
    data_size (Some (<[k := v]> m))
    = (data_size (Some m) + (String.length k + String.length v))%nat.
Proof.
  intros Hperm. split.
  - rewrite sum_sizes_foldl, data_size_sum. now rewrite Hperm.
  - intros k v Hk. rewrite !data_size_sum.
    rewrite (map_to_list_insert m k v Hk). simpl. lia.
Qed.

Lemma data_size_any_order_witness :
  foldl (fun acc '(k, v) => (acc + (String.length k + String.length v))%nat)
        10%nat [("url", "https://example.org"); ("id", "42")]
  = (10 + data_size (Some {[ "id" := "42"; "url" := "https://example.org" ]}))%nat.
Proof.
  refine (proj1 (data_size_any_order
    {[ "id" := "42"; "url" := "https://example.org" ]}
    [("url", "https://example.org"); ("id", "42")] 10 _)).
  vm_compute map_to_list.
  first [reflexivity | apply perm_swap].
Defined.
